(** * Nested-set encoding of the administrative divisions (division/build.go)

    A shallow embedding of [build.go]: the code resolver ([getProvince],
    [getCity], [getArea]), the tree builder ([buildTrees]), the nested-set
    indexer ([assignKeys], [indexTree]) and the statement emitter
    ([genSQLFile], [genSQL]), followed by the properties of the program.

    Conventions of the embedding.
    - A Go [string] is a sequence of bytes: [string] of [ascii].
    - [int32] is a [Z] kept in range by [wrap32] (Go's signed arithmetic wraps).
    - A Go map read at an absent key gives the zero value: [default 0 (m !! k)].
    - A run-time panic is the [Panic] outcome of [result]; the loops of
      [buildTrees] thread it.
    - The nodes are reached through one pointer each (every [&Area{...}]
      is stored in exactly one slice), so the in-place updates of the source
      are list updates at the index the source dereferences. *)

From Stdlib Require Import ZArith String Ascii List Lia DecimalString DecimalZ
  DecimalPos.
From stdpp Require Import gmap strings list fin_maps sorting.

Open Scope Z_scope.

(** ** Data model *)

(** [flatNode]: one record of the JSON files; the fields carry the JSON tags
    of the source struct ([Code], [Name], [ParentCode] there). *)
Record flatNode : Type := mkFlat {
  code : string;
  name : string;
  parent_code : string
}.

(** [Area]: a node of the forest, at any of the four levels. The induction
    principle that reaches the children is [Area_ind] below. *)
#[local] Unset Elimination Schemes.
Inductive Area : Type := mkArea {
  Code : string;
  Name : string;
  ParentCode : string;
  Left : Z;
  Right : Z;
  SubAreas : list Area
}.
#[local] Set Elimination Schemes.

(** The four package-level slices [provinces, cities, areas, streets]
    that [loadAddress] fills and [buildTrees] reads. *)
Record dataset : Type := mkDataset {
  provinces : list flatNode;
  cities : list flatNode;
  areas : list flatNode;
  streets : list flatNode
}.

#[global] Instance flatNode_eq_dec : EqDecision flatNode.
Proof. solve_decision. Defined.

(** ** Go run-time outcomes *)

(** The two run-time errors the program can raise outside of its I/O:
    a slice expression whose upper bound exceeds the capacity, and an index
    expression outside the length. *)
Inductive runtimeError : Type :=
  | SliceBoundsOutOfRange (high capacity : nat)
  | IndexOutOfRange (index len : nat).

Inductive result (A : Type) : Type :=
  | Ok (a : A)
  | Panic (e : runtimeError).

Arguments Ok {A} a.
Arguments Panic {A} e.

Definition bind {A B : Type} (r : result A) (k : A -> result B) : result B :=
  match r with
  | Ok a => k a
  | Panic e => Panic e
  end.

Notation "'do' x <- r ; k" := (bind r (fun x => k))
  (at level 10, x name, r at level 100, k at level 200).

(** [l[i]] of Go: the element, or the index panic. *)
Definition index {A : Type} (l : list A) (i : nat) : result A :=
  match l !! i with
  | Some a => Ok a
  | None => Panic (IndexOutOfRange i (length l))
  end.

(** ** int32 *)

Definition wrap32 (z : Z) : Z := (z + 2 ^ 31) mod 2 ^ 32 - 2 ^ 31.

(** [start++] and [depth+1] on an [int32]. *)
Definition incr32 (z : Z) : Z := wrap32 (z + 1).

Definition maxInt32 : Z := 2 ^ 31 - 1.
Definition minInt32 : Z := - 2 ^ 31.

(** [copy(dst, src)]: the first [min (len dst) (len src)] bytes of [dst]
    are overwritten; the value is [dst] afterwards. *)
Definition copy (dst src : list ascii) : list ascii :=
  take (length dst) src ++ drop (length src) dst.

(** The byte slice [[]byte("000000")]. *)
Definition zeros6 : list ascii := list_ascii_of_string "000000".

(** ** Code resolver *)

Section Program.

(** The capacity of the slice [[]byte(code)] is left to the implementation
    by the language; [spare n] is what the conversion of an [n]-byte string
    gives beyond its length (0 when the bytes of the string are used in
    place, [32 - n] when the conversion goes through the run-time's 32-byte
    buffer). The spare bytes are zero. *)
Variable spare : nat -> nat.

(** [[]byte(code)[:high]]: a slice expression on a slice is checked
    against the capacity, not the length. *)
Definition bytesUpTo (high : nat) (code : string) : result (list ascii) :=
  let b := list_ascii_of_string code in
  let capacity := (length b + spare (length b))%nat in
  if (high <=? capacity)%nat
  then Ok (take high (b ++ replicate (spare (length b)) Ascii.zero))
  else Panic (SliceBoundsOutOfRange high capacity).

Definition getProvince (code : string) : result string :=
  let p := zeros6 in
  do src <- bytesUpTo 2 code;
  Ok (string_of_list_ascii (copy (take 2 p) src ++ drop 2 p)).

Definition getCity (code : string) : result string :=
  let c := zeros6 in
  do src <- bytesUpTo 4 code;
  Ok (string_of_list_ascii (copy (take 4 c) src ++ drop 4 c)).

Definition getArea (code : string) : result string :=
  let c := zeros6 in
  do src <- bytesUpTo 6 code;
  Ok (string_of_list_ascii (copy c src)).

(** What the three resolvers have in common, for the proofs: the bytes a
    slice expression on [[]byte(code)] ranges over, and [high] of them laid
    over the front of ["000000"]. *)
Definition backing (code : string) : list ascii :=
  list_ascii_of_string code ++ replicate (spare (String.length code)) Ascii.zero.

Definition resolver (high : nat) (code : string) : result string :=
  if (high <=? length (backing code))%nat
  then Ok (string_of_list_ascii (take high (backing code) ++ drop high zeros6))
  else Panic (SliceBoundsOutOfRange high (length (backing code))).

(** ** Tree builder *)

(** The node literals of [buildTrees]; [Left] and [Right] start at the
    zero value, an absent [SubAreas] is the nil slice. *)
Definition provinceNode (p : flatNode) : Area :=
  mkArea (code p) (name p) "0" 0 0 [].

Definition cityNode (c : flatNode) : Area :=
  mkArea (code c) (name c) (parent_code c) 0 0 [].

Definition areaNode (a : flatNode) : Area :=
  mkArea (code a) (name a) (parent_code a) 0 0 [].

Definition streetNode (s : flatNode) : Area :=
  mkArea (code s) (name s) (parent_code s) 0 0 [].

(** [p.SubAreas = subs] on the node [p] points to. *)
Definition withSubAreas (p : Area) (subs : list Area) : Area :=
  mkArea (Code p) (Name p) (ParentCode p) (Left p) (Right p) subs.

(** [p.SubAreas = append(p.SubAreas, n)]. *)
Definition appendSub (p n : Area) : Area :=
  withSubAreas p (SubAreas p ++ [n]).

(** [order[k]] on a [map[string]int]: 0 when [k] is absent. *)
Definition lookupOrder (order : gmap string nat) (k : string) : nat :=
  default 0%nat (order !! k).

(** A [for _, x := range l] loop whose body may panic. *)
Fixpoint forEach {St A : Type} (body : St -> A -> result St) (l : list A)
  (st : St) : result St :=
  match l with
  | [] => Ok st
  | x :: l' => do st' <- body st x; forEach body l' st'
  end.

(** Lines 116-124: [for i, p := range provinces]. *)
Fixpoint provinceLoop (i : nat) (ps : list flatNode)
  (st : list Area * gmap string nat) : list Area * gmap string nat :=
  match ps with
  | [] => st
  | p :: ps' =>
      provinceLoop (S i) ps' (st.1 ++ [provinceNode p], <[code p := i]> st.2)
  end.

(** Lines 128-139: the body of the loop over [cities]. *)
Definition cityStep (provinceOrder : gmap string nat)
  (st : list Area * gmap string nat) (c : flatNode)
  : result (list Area * gmap string nat) :=
  let '(trees, cityOrder) := st in
  do pCode <- getProvince (code c);
  let pi := lookupOrder provinceOrder pCode in
  do p <- index trees pi;
  let p' := appendSub p (cityNode c) in
  Ok (<[pi := p']> trees,
      <[code c := (length (SubAreas p') - 1)%nat]> cityOrder).

(** Lines 143-155: the body of the loop over [areas]. *)
Definition areaStep (provinceOrder cityOrder : gmap string nat)
  (st : list Area * gmap string nat) (a : flatNode)
  : result (list Area * gmap string nat) :=
  let '(trees, areaOrder) := st in
  do pCode <- getProvince (code a);
  do cCode <- getCity (code a);
  let pi := lookupOrder provinceOrder pCode in
  do p <- index trees pi;
  let ci := lookupOrder cityOrder cCode in
  do c <- index (SubAreas p) ci;
  let c' := appendSub c (areaNode a) in
  Ok (<[pi := withSubAreas p (<[ci := c']> (SubAreas p))]> trees,
      <[code a := (length (SubAreas c') - 1)%nat]> areaOrder).

(** Lines 158-172: the body of the loop over [streets]. *)
Definition streetStep (provinceOrder cityOrder areaOrder : gmap string nat)
  (trees : list Area) (s : flatNode) : result (list Area) :=
  do pCode <- getProvince (code s);
  do cCode <- getCity (code s);
  do aCode <- getArea (code s);
  let pi := lookupOrder provinceOrder pCode in
  do p <- index trees pi;
  let ci := lookupOrder cityOrder cCode in
  do c <- index (SubAreas p) ci;
  let ai := lookupOrder areaOrder aCode in
  do a <- index (SubAreas c) ai;
  let a' := appendSub a (streetNode s) in
  let c' := withSubAreas c (<[ai := a']> (SubAreas c)) in
  Ok (<[pi := withSubAreas p (<[ci := c']> (SubAreas p))]> trees).

(** The state of [buildTrees] after each of its four loops. *)
Definition afterProvinces (d : dataset) : list Area * gmap string nat :=
  provinceLoop 0 (provinces d) ([], ∅).

Definition afterCities (d : dataset) : result (list Area * gmap string nat) :=
  forEach (cityStep (afterProvinces d).2) (cities d) ((afterProvinces d).1, ∅).

Definition afterAreas (d : dataset)
  : result (list Area * gmap string nat * gmap string nat) :=
  do s <- afterCities d;
  do s' <- forEach (areaStep (afterProvinces d).2 s.2) (areas d) (s.1, ∅);
  Ok (s'.1, s.2, s'.2).

Definition buildTrees (d : dataset) : result (list Area) :=
  do s <- afterAreas d;
  forEach (streetStep (afterProvinces d).2 s.1.2 s.2) (streets d) s.1.1.

End Program.

(** The two conversions of a string to bytes that Go's compiler has used:
    the bytes of the string in place (capacity = length), and the copy into
    the run-time's 32-byte buffer. *)
Definition inPlace : nat -> nat := fun _ => 0%nat.
Definition tmpBuf : nat -> nat := fun n => (32 - n)%nat.

(** ** Nested-set indexer *)

Fixpoint indexTree (root : Area) (start : Z) {struct root} : Area * Z :=
  match root with
  | mkArea c n pc _ _ subs =>
      let start := incr32 start in
      let left := start in
      let '(subs', start) :=
        (fix loop (l : list Area) (start : Z) {struct l} : list Area * Z :=
           match l with
           | [] => ([], start)
           | sub :: l' =>
               let '(sub', start) := indexTree sub start in
               let '(l'', start) := loop l' start in
               (sub' :: l'', start)
           end) subs start in
      let start := incr32 start in
      (mkArea c n pc left start subs', start)
  end.

(** [for _, p := range trees { start = indexTree(p, start) }]: the forest
    after the loop and the final counter. *)
Fixpoint indexTrees (trees : list Area) (start : Z) : list Area * Z :=
  match trees with
  | [] => ([], start)
  | p :: trees' =>
      let '(p', start) := indexTree p start in
      let '(trees'', start) := indexTrees trees' start in
      (p' :: trees'', start)
  end.

Definition assignKeys (trees : list Area) : list Area :=
  (indexTrees trees 0).1.

(** ** Statement emitter *)

Definition tblName : string := "nested".

Definition insertPrefix : string :=
  "INSERT INTO " +:+ tblName +:+ "(id, node, pid, depth, lft, rgt) VALUES(".

(** [strconv.FormatInt(int64(i), 10)]. *)
Definition itoa (i : Z) : string := NilZero.string_of_int (Z.to_int i).

Definition newline : string := String (ascii_of_nat 10) EmptyString.

(** [genSQL]: the sequence of buffers handed to [f.Write], one per call
    (every write is taken to succeed: the sink is outside the program). *)
Fixpoint genSQL (area : Area) (depth : Z) {struct area} : list string :=
  match area with
  | mkArea c n pc l r subs =>
      let sql := insertPrefix in
      let sql := sql +:+ c in
      let sql := sql +:+ ", '" in
      let sql := sql +:+ n in
      let sql := sql +:+ "', " in
      let sql := sql +:+ pc in
      let sql := sql +:+ ", " in
      let sql := sql +:+ itoa depth in
      let sql := sql +:+ ", " in
      let sql := sql +:+ itoa l in
      let sql := sql +:+ ", " in
      let sql := sql +:+ itoa r in
      let sql := sql +:+ ");" +:+ newline in
      sql ::
      (fix loop (l : list Area) : list string :=
         match l with
         | [] => []
         | sub :: l' => genSQL sub (incr32 depth) ++ loop l'
         end) subs
  end.

Fixpoint genSQLFile (trees : list Area) : list string :=
  match trees with
  | [] => []
  | p :: trees' => genSQL p 1 ++ genSQLFile trees'
  end.

(** [main], without its log lines: the statements written to [division.sql];
    a panic is recovered by the deferred function, which logs the stack and
    writes nothing. The second log line reads [trees[0].Left]. *)
Definition main (spare : nat -> nat) (d : dataset) : result (list string) :=
  do trees <- buildTrees spare d;
  let trees := assignKeys trees in
  do first <- index trees 0;
  Ok (genSQLFile trees).

(** ** Views of the forest used by the statements *)

(** The three fields a node takes from its record. *)
Definition flatOf (a : Area) : flatNode :=
  mkFlat (Code a) (Name a) (ParentCode a).

(** A province record as its root shows it. *)
Definition rootRecord (p : flatNode) : flatNode :=
  mkFlat (code p) (name p) "0".

(** The children of the nodes of [l], in order. *)
Definition below (l : list Area) : list Area := flat_map SubAreas l.

(** [level k l]: the nodes [k] levels below the roots [l]
    (0: provinces, 1: cities, 2: areas, 3: streets). *)
Fixpoint level (k : nat) (l : list Area) : list Area :=
  match k with
  | O => l
  | S k' => level k' (below l)
  end.

(** Pre-order traversal: a node, then the subtrees of its children. *)
Fixpoint nodes (t : Area) : list Area :=
  match t with
  | mkArea _ _ _ _ _ subs => t :: flat_map nodes subs
  end.

Definition forestNodes (l : list Area) : list Area := flat_map nodes l.

Definition descendants (t : Area) : list Area := forestNodes (SubAreas t).

Definition size (t : Area) : nat := length (nodes t).

Definition count (l : list Area) : nat := length (forestNodes l).

(** The keys of a tree in the order the counter passes them. *)
Fixpoint keys (t : Area) : list Z :=
  match t with
  | mkArea _ _ _ l r subs => l :: flat_map keys subs ++ [r]
  end.

(** All [Left] and all [Right] values of a forest. *)
Definition allKeys (l : list Area) : list Z :=
  map Left (forestNodes l) ++ map Right (forestNodes l).

(** [chained s l e]: the trees of [l] are numbered one after the other by a
    counter that is [s] before the first and [e] after the last;
    [keyed s t]: [t] is numbered by a counter that is [s] on entry. *)
Fixpoint keyed (s : Z) (t : Area) {struct t} : Prop :=
  match t with
  | mkArea _ _ _ l r subs =>
      l = s + 1 /\
      (fix chain (cs : list Area) (s : Z) {struct cs} : Prop :=
         match cs with
         | [] => r = s + 1
         | c :: cs' => keyed s c /\ chain cs' (Right c)
         end) subs l
  end.

Fixpoint chained (s : Z) (l : list Area) (e : Z) : Prop :=
  match l with
  | [] => e = s
  | c :: l' => keyed s c /\ chained (Right c) l' e
  end.

(** The nested-set invariant at one node: its own range, the chain of its
    children in build order, and the containment of its descendants. *)
Definition nestedSet (N : Area) : Prop :=
  Left N < Right N /\
  (forall c, head (SubAreas N) = Some c -> Left N < Left c) /\
  (forall i c c', SubAreas N !! i = Some c -> SubAreas N !! S i = Some c' ->
     Right c < Left c') /\
  (forall c, last (SubAreas N) = Some c -> Right c < Right N) /\
  (forall D, D ∈ descendants N ->
     Left N < Left D /\ Left D < Right D /\ Right D < Right N).

(** The ranges of the roots follow each other in root order. *)
Definition rootsOrdered (l : list Area) : Prop :=
  forall i j r r', (i < j)%nat -> l !! i = Some r -> l !! j = Some r' ->
    Right r < Left r'.

(** A node with the keys stripped: what [indexTree] leaves alone. *)
Fixpoint unkey (t : Area) : Area :=
  match t with
  | mkArea c n pc _ _ subs => mkArea c n pc 0 0 (map unkey subs)
  end.

(** One output record. *)
Record row : Type := mkRow {
  rCode : string;
  rName : string;
  rParentCode : string;
  rDepth : Z;
  rLeft : Z;
  rRight : Z
}.

Definition rowOf (depth : Z) (a : Area) : row :=
  mkRow (Code a) (Name a) (ParentCode a) depth (Left a) (Right a).

Definition rowFlat (r : row) : flatNode :=
  mkFlat (rCode r) (rName r) (rParentCode r).

(** The insert statement of a record. *)
Definition statement (r : row) : string :=
  insertPrefix +:+ rCode r +:+ ", '" +:+ rName r +:+ "', " +:+ rParentCode r
  +:+ ", " +:+ itoa (rDepth r) +:+ ", " +:+ itoa (rLeft r) +:+ ", "
  +:+ itoa (rRight r) +:+ ");" +:+ newline.

(** The records of a tree in pre-order, the root at [depth], one more per
    level (in unbounded integers). *)
Fixpoint rows (depth : Z) (t : Area) : list row :=
  match t with
  | mkArea _ _ _ _ _ subs => rowOf depth t :: flat_map (rows (depth + 1)) subs
  end.

Definition forestRows (l : list Area) : list row := flat_map (rows 1) l.

(** The records of depth [k]. *)
Definition atDepth (k : Z) (rs : list row) : list row :=
  filter (fun r => rDepth r = k) rs.

(** ** Inputs whose records resolve *)

(** [r] resolves through [get] to the code of one of [uppers]. *)
Definition resolvesTo (get : string -> result string) (uppers : list flatNode)
  (r : flatNode) : bool :=
  match get (code r) with
  | Ok k => bool_decide (k ∈ map code uppers)
  | Panic _ => false
  end.

Definition resolved (spare : nat -> nat) (d : dataset) : bool :=
  forallb (resolvesTo (getProvince spare) (provinces d)) (cities d)
  && forallb (resolvesTo (getCity spare) (cities d)) (areas d)
  && forallb (resolvesTo (getArea spare) (areas d)) (streets d).

(** Each parent's children, as records, appear in the order of [input]. *)
Definition siblingsFollow (input : list flatNode) (parents : list Area) : Prop :=
  Forall (fun p => sublist (map flatOf (SubAreas p)) input) parents.

(** ** What a loop of the builder does to the forest *)

(** [attach n k l l']: [l'] is [l] with [n] appended to the children of one
    node [k] levels below the roots. *)
Inductive attach (n : Area) : nat -> list Area -> list Area -> Prop :=
  | attach_here (l1 : list Area) (p : Area) (l2 : list Area) :
      attach n 0 (l1 ++ p :: l2) (l1 ++ appendSub p n :: l2)
  | attach_below (k : nat) (l1 : list Area) (p : Area) (l2 subs' : list Area) :
      attach n k (SubAreas p) subs' ->
      attach n (S k) (l1 ++ p :: l2) (l1 ++ withSubAreas p subs' :: l2).

(** A node as its record and the records of its children. *)
Definition family (p : Area) : flatNode * list flatNode :=
  (flatOf p, map flatOf (SubAreas p)).

(** The records read so far, per level (0: cities, 1: areas, 2: streets). *)
Definition upd (inp : nat -> list flatNode) (k : nat) (v : list flatNode)
  : nat -> list flatNode :=
  fun j => if decide (j = k) then v else inp j.

(** [Built T inp]: at every level [j], the children of each node follow the
    order of [inp j], and the nodes one level down are the records [inp j]. *)
Definition Built (T : list Area) (inp : nat -> list flatNode) : Prop :=
  forall j, siblingsFollow (inp j) (level j T)
            /\ map flatOf (level (S j) T) ≡ₚ inp j.

(** The records of a dataset below the provinces, per level. *)
Definition inputs (d : dataset) : nat -> list flatNode :=
  fun j =>
    match j with
    | 0%nat => cities d
    | 1%nat => areas d
    | 2%nat => streets d
    | _ => []
    end.

(** The number of children of each root, and of each child of each root. *)
Definition widths (l : list Area) : list nat :=
  (fun p => length (SubAreas p)) <$> l.

Definition widths2 (l : list Area) : list (list nat) :=
  (fun p => widths (SubAreas p)) <$> l.

(** The positions remembered in [cityOrder] and [areaOrder] are positions
    of the forest, under the parent that the code of the entry resolves to. *)
Definition cityIndexed (spare : nat -> nat) (po co : gmap string nat)
  (T : list Area) : Prop :=
  forall k j, co !! k = Some j ->
    exists pk w, getProvince spare k = Ok pk
      /\ widths T !! lookupOrder po pk = Some w /\ (j < w)%nat.

Definition areaIndexed (spare : nat -> nat) (po co ao : gmap string nat)
  (T : list Area) : Prop :=
  forall k l, ao !! k = Some l ->
    exists pk ck ws w, getProvince spare k = Ok pk /\ getCity spare k = Ok ck
      /\ widths2 T !! lookupOrder po pk = Some ws
      /\ ws !! lookupOrder co ck = Some w /\ (l < w)%nat.

(** ** Example inputs *)

(** The example of the specification: one record per level. *)
Definition oneEach : dataset :=
  mkDataset [mkFlat "11" "A" ""]
            [mkFlat "1101" "B" "11"]
            [mkFlat "110101" "C" "1101"]
            [mkFlat "1101010001" "D" "110101"].

(** Two provinces, cities, areas and streets with six-digit codes. *)
Definition twoProvinces : dataset :=
  mkDataset [mkFlat "110000" "Beijing" "0"; mkFlat "130000" "Hebei" "0"]
            [mkFlat "130100" "Shijiazhuang" "130000";
             mkFlat "110100" "Beijing City" "110000";
             mkFlat "130200" "Tangshan" "130000"]
            [mkFlat "130102" "Changan" "130100";
             mkFlat "110101" "Dongcheng" "110100";
             mkFlat "130104" "Qiaoxi" "130100"]
            [mkFlat "110101001" "Donghuamen" "110101";
             mkFlat "130102001" "Jianbei" "130102";
             mkFlat "110101002" "Jingshan" "110101"].

(** A city whose province is not in the province list. *)
Definition strayCity : dataset :=
  mkDataset [mkFlat "110000" "A" "0"] [mkFlat "990100" "B" "990000"] [] [].

(** A city with no province at all to attach to. *)
Definition noProvince : dataset :=
  mkDataset [] [mkFlat "990100" "B" "990000"] [] [].


(** A node without children. *)
Definition leaf : Area := mkArea "110000" "A" "0" 0 0 [].

(** [2 ^ 30] provinces and nothing below them, and their roots. *)
Definition manyProvinces : dataset :=
  mkDataset (replicate (Z.to_nat (2 ^ 30)) (mkFlat "110000" "A" "0")) [] [] [].

Definition manyLeaves : list Area := replicate (Z.to_nat (2 ^ 30)) leaf.

(** The forest of [oneEach], and the forest of [twoProvinces]. *)
Definition oneEachForest : list Area :=
  [mkArea "11" "A" "0" 0 0
     [mkArea "1101" "B" "11" 0 0
        [mkArea "110101" "C" "1101" 0 0
           [mkArea "1101010001" "D" "110101" 0 0 []]]]].

Definition twoProvincesForest : list Area :=
  Eval vm_compute in
    match buildTrees inPlace twoProvinces with
    | Ok T => T
    | Panic _ => []
    end.

(** The number of records of a dataset. *)
Definition records (d : dataset) : nat :=
  (length (provinces d) + length (cities d) + length (areas d)
   + length (streets d))%nat.

(** Three provinces, the last two with the same code, and a city of theirs. *)
Definition twinProvinces : dataset :=
  mkDataset [mkFlat "110000" "Beijing" "0"; mkFlat "120000" "Tianjin" "0";
             mkFlat "120000" "Tianjin again" "0"]
            [mkFlat "120100" "Tianjin City" "120000"] [] [].

(** ** Parents by their codes *)

(** [linked get l]: every child of a node of [l] has a code that [get]
    resolves to the code of the node. *)
Definition linked (get : string -> result string) (l : list Area) : Prop :=
  Forall (fun p => Forall (fun c => get (Code c) = Ok (Code p)) (SubAreas p)) l.

(** The resolver that takes a node to its parent [j] levels below the roots. *)
Definition resolverAt (spare : nat -> nat) (j : nat) : string -> result string :=
  match j with
  | 0%nat => getProvince spare
  | 1%nat => getCity spare
  | _ => getArea spare
  end.

(** [attachUnder n pc k l l']: [attach n k l l'], the parent having the
    code [pc]. *)
Inductive attachUnder (n : Area) (pc : string)
  : nat -> list Area -> list Area -> Prop :=
  | under_here (l1 : list Area) (p : Area) (l2 : list Area) :
      Code p = pc ->
      attachUnder n pc 0 (l1 ++ p :: l2) (l1 ++ appendSub p n :: l2)
  | under_below (k : nat) (l1 : list Area) (p : Area) (l2 subs' : list Area) :
      attachUnder n pc k (SubAreas p) subs' ->
      attachUnder n pc (S k) (l1 ++ p :: l2) (l1 ++ withSubAreas p subs' :: l2).

(** The codes of the children of each root, and of their children. *)
Definition codes2 (l : list Area) : list (list string) :=
  (fun p => Code <$> SubAreas p) <$> l.

Definition codes3 (l : list Area) : list (list (list string)) :=
  (fun p => codes2 (SubAreas p)) <$> l.

(** The positions the three tables remember are those of nodes with the
    code of the entry. *)
Definition provCoded (po : gmap string nat) (T : list Area) : Prop :=
  forall k i, po !! k = Some i -> (Code <$> T) !! i = Some k.

Definition cityCoded (spare : nat -> nat) (po co : gmap string nat)
  (T : list Area) : Prop :=
  forall k j, co !! k = Some j ->
    exists pk cs, getProvince spare k = Ok pk
      /\ codes2 T !! lookupOrder po pk = Some cs /\ cs !! j = Some k.

Definition areaCoded (spare : nat -> nat) (po co ao : gmap string nat)
  (T : list Area) : Prop :=
  forall k l, ao !! k = Some l ->
    exists pk ck css cs, getProvince spare k = Ok pk /\ getCity spare k = Ok ck
      /\ codes3 T !! lookupOrder po pk = Some css
      /\ css !! lookupOrder co ck = Some cs /\ cs !! l = Some k.

(** ** What a statement carries *)

(** The number a decimal numeral denotes. *)
Definition readInt (s : string) : option Z :=
  option_map Z.of_int (NilZero.int_of_string s).

(** [carries s r]: the statement [s], written out, carries the six fields
    of [r], the code, the name and the parent code as they are, the depth
    and the two keys as decimal numerals, and ends with a line feed. *)
Definition carries (s : string) (r : row) : Prop :=
  exists sd sl sr,
    s = "INSERT INTO nested(id, node, pid, depth, lft, rgt) VALUES("
        +:+ rCode r +:+ ", '" +:+ rName r +:+ "', "
        +:+ rParentCode r +:+ ", " +:+ sd +:+ ", " +:+ sl +:+ ", "
        +:+ sr +:+ ");" +:+ String (ascii_of_nat 10) EmptyString
    /\ readInt sd = Some (rDepth r)
    /\ readInt sl = Some (rLeft r)
    /\ readInt sr = Some (rRight r).

(** The counter of the indexer, were it unbounded, when it enters the node
    of the row at position [i] (from 0) of the pre-order: [i] nodes were
    entered before, and all of them left but the [rDepth r - 1] ancestors. *)
Definition counterAt (i : nat) (r : row) : Z :=
  2 * Z.of_nat i + 2 - rDepth r.

(** ** The panics of the builder *)

(** The run-time errors [buildTrees] can end in: an index expression on an
    empty slice, the index being the zero value of an absent map key, and a
    slice expression of a resolver on a code whose bytes have less capacity
    than the 2, 4 or 6 bytes asked for. *)
Definition builderPanic (e : runtimeError) : Prop :=
  match e with
  | IndexOutOfRange i n => i = 0%nat /\ n = 0%nat
  | SliceBoundsOutOfRange high capacity =>
      (capacity < high)%nat /\ (high = 2 \/ high = 4 \/ high = 6)%nat
  end.

(** The positions of the three tables are positions of the forest. *)
Definition tablesFit (spare : nat -> nat) (po co ao : gmap string nat)
  (T : list Area) : Prop :=
  (forall k i, po !! k = Some i -> (i < length T)%nat)
  /\ cityIndexed spare po co T /\ areaIndexed spare po co ao T.

(** A city whose code is one byte long, and no province. *)
Definition shortOrphan : dataset :=
  mkDataset [] [mkFlat "9" "B" "110000"] [] [].

(** Reduce the projections of a node written out. *)
Ltac projs := cbn [Code Name ParentCode Left Right SubAreas] in *.

(** * Properties *)

(** ** Strings as byte lists *)

Lemma length_list_ascii_of_string (s : string) :
  length (list_ascii_of_string s) = String.length s.
Proof. induction s as [|a s IH]; simpl; congruence. Qed.

Lemma string_of_list_ascii_app (l1 l2 : list ascii) :
  string_of_list_ascii (l1 ++ l2)
  = string_of_list_ascii l1 +:+ string_of_list_ascii l2.
Proof.
  induction l1 as [|a l1 IH]; [reflexivity|]. simpl. rewrite IH. reflexivity.
Qed.

Lemma copy_same_length (dst src : list ascii) :
  length src = length dst -> copy dst src = src.
Proof.
  intros Hlen. unfold copy.
  rewrite <- Hlen, take_ge, drop_ge by lia. apply app_nil_r.
Qed.

(** ** Code resolver *)

Section ResolverProperties.

Variable spare : nat -> nat.

Lemma length_backing (code : string) :
  length (backing spare code) = (String.length code + spare (String.length code))%nat.
Proof.
  unfold backing.
  rewrite length_app, length_replicate, length_list_ascii_of_string. reflexivity.
Qed.

Lemma bytesUpTo_eq (high : nat) (code : string) :
  bytesUpTo spare high code =
  if (high <=? length (backing spare code))%nat
  then Ok (take high (backing spare code))
  else Panic (SliceBoundsOutOfRange high (length (backing spare code))).
Proof.
  unfold bytesUpTo. rewrite length_backing. unfold backing.
  rewrite !length_list_ascii_of_string. reflexivity.
Qed.

Lemma resolver_scheme (high : nat) (code : string) :
  (high <= 6)%nat ->
  (do src <- bytesUpTo spare high code;
   Ok (string_of_list_ascii (copy (take high zeros6) src ++ drop high zeros6)))
  = resolver spare high code.
Proof.
  intros Hhigh. rewrite bytesUpTo_eq. unfold resolver.
  destruct (high <=? length (backing spare code))%nat eqn:Hcap; [|reflexivity].
  apply Nat.leb_le in Hcap. simpl.
  rewrite copy_same_length; [reflexivity|].
  rewrite !length_take. change (length zeros6) with 6%nat. lia.
Qed.

Lemma getProvince_eq (code : string) : getProvince spare code = resolver spare 2 code.
Proof. unfold getProvince. apply (resolver_scheme 2). lia. Qed.

Lemma getCity_eq (code : string) : getCity spare code = resolver spare 4 code.
Proof. unfold getCity. apply (resolver_scheme 4). lia. Qed.

Lemma getArea_eq (code : string) : getArea spare code = resolver spare 6 code.
Proof.
  unfold getArea. rewrite <- (resolver_scheme 6) by lia.
  change (take 6 zeros6) with zeros6. change (drop 6 zeros6) with (@nil ascii).
  destruct (bytesUpTo spare 6 code); simpl; [|reflexivity].
  rewrite app_nil_r. reflexivity.
Qed.

(** A code long enough: the prefix of the code itself. *)
Lemma resolver_long (high : nat) (code : string) :
  (high <= String.length code)%nat ->
  resolver spare high code
  = Ok (substring 0 high code +:+ string_of_list_ascii (drop high zeros6)).
Proof.
  intros Hlen. unfold resolver.
  assert (Hcap : (high <=? length (backing spare code))%nat = true).
  { apply Nat.leb_le. rewrite length_backing. lia. }
  rewrite Hcap, string_of_list_ascii_app. do 2 f_equal.
  unfold backing. rewrite take_app_le by (rewrite length_list_ascii_of_string; lia).
  clear Hcap. revert high Hlen.
  induction code as [|a code IH]; intros [|high] Hlen; simpl in *;
    try reflexivity; try lia.
  rewrite IH by lia. reflexivity.
Qed.

Lemma length_substring_0 (high : nat) (code : string) :
  (high <= String.length code)%nat ->
  String.length (substring 0 high code) = high.
Proof.
  revert high. induction code as [|a code IH]; intros [|high] Hlen; simpl in *;
    try reflexivity; try lia.
  rewrite IH by lia. reflexivity.
Qed.

Lemma length_string_app (s1 s2 : string) :
  String.length (s1 +:+ s2) = (String.length s1 + String.length s2)%nat.
Proof.
  induction s1 as [|a s1 IH]; [reflexivity|].
  change (String a s1 +:+ s2) with (String a (s1 +:+ s2)). simpl. congruence.
Qed.


(** Every result is six bytes long. *)
Lemma resolver_length (high : nat) (code r : string) :
  (high <= 6)%nat -> resolver spare high code = Ok r -> String.length r = 6%nat.
Proof.
  intros Hhigh. unfold resolver.
  destruct (high <=? _)%nat eqn:Hcap; [|discriminate].
  apply Nat.leb_le in Hcap. intros [= <-].
  rewrite <- length_list_ascii_of_string, list_ascii_of_string_of_list_ascii.
  rewrite length_app, length_take, length_drop. change (length zeros6) with 6%nat.
  lia.
Qed.

(** Resolving a resolved code: the shorter prefix of a result is the
    shorter prefix of the code it came from. *)
Lemma resolver_resolver (h1 h2 : nat) (code k : string) :
  (h1 <= h2)%nat -> (h2 <= 6)%nat ->
  resolver spare h2 code = Ok k -> resolver spare h1 k = resolver spare h1 code.
Proof.
  intros H12 H26 Hk.
  pose proof (resolver_length _ _ _ H26 Hk) as Hlen.
  unfold resolver in Hk.
  destruct (h2 <=? length (backing spare code))%nat eqn:Hcap; [|discriminate].
  apply Nat.leb_le in Hcap. injection Hk as <-.
  unfold resolver.
  assert (H1 : (h1 <=? length (backing spare code))%nat = true)
    by (apply Nat.leb_le; lia).
  rewrite H1.
  match goal with |- (if ?b then _ else _) = _ => assert (Hb : b = true) end.
  { apply Nat.leb_le. rewrite length_backing, Hlen. lia. }
  rewrite Hb. do 3 f_equal.
  unfold backing at 1. rewrite list_ascii_of_string_of_list_ascii.
  rewrite <- !app_assoc, take_app_le by (rewrite length_take; lia).
  rewrite take_take. f_equal. lia.
Qed.

Lemma getCity_getProvince (code k : string) :
  getCity spare code = Ok k -> getProvince spare k = getProvince spare code.
Proof.
  rewrite getCity_eq, !getProvince_eq. apply resolver_resolver; lia.
Qed.

Lemma getArea_getCity (code k : string) :
  getArea spare code = Ok k -> getCity spare k = getCity spare code.
Proof.
  rewrite getArea_eq, !getCity_eq. apply resolver_resolver; lia.
Qed.

Lemma getArea_getProvince (code k : string) :
  getArea spare code = Ok k -> getProvince spare k = getProvince spare code.
Proof.
  rewrite getArea_eq, !getProvince_eq. apply resolver_resolver; lia.
Qed.

(** C8. For a code of at least 2 (4, 6) bytes, [getProvince] ([getCity],
    [getArea]) returns the first 2 (4, 6) bytes of the code followed by
    the digit 0 up to six bytes, and the result is six bytes long. *)
Theorem resolver_prefix (code : string) :
  ((2 <= String.length code)%nat ->
     getProvince spare code = Ok (substring 0 2 code +:+ "0000")
     /\ String.length (substring 0 2 code +:+ "0000") = 6%nat)
  /\ ((4 <= String.length code)%nat ->
     getCity spare code = Ok (substring 0 4 code +:+ "00")
     /\ String.length (substring 0 4 code +:+ "00") = 6%nat)
  /\ ((6 <= String.length code)%nat ->
     getArea spare code = Ok (substring 0 6 code)
     /\ String.length (substring 0 6 code) = 6%nat).
Proof.
  repeat split.
  - rewrite getProvince_eq, resolver_long by assumption. reflexivity.
  - rewrite length_string_app, length_substring_0 by assumption. reflexivity.
  - rewrite getCity_eq, resolver_long by assumption. reflexivity.
  - rewrite length_string_app, length_substring_0 by assumption. reflexivity.
  - rewrite getArea_eq, resolver_long by assumption. simpl.
    f_equal. clear. induction (substring 0 6 code) as [|a s IH]; [reflexivity|].
    change (String a s +:+ "") with (String a (s +:+ "")). congruence.
  - apply length_substring_0. assumption.
Qed.

End ResolverProperties.

(** ** Trees *)

(** Induction on a node with the property known of its children. *)
Lemma Area_ind (P : Area -> Prop) :
  (forall c n pc l r subs, Forall P subs -> P (mkArea c n pc l r subs)) ->
  forall t, P t.
Proof.
  intros step. fix rec 1. intros [c n pc l r subs]. apply step.
  induction subs as [|sub subs IH]; constructor; [apply rec | exact IH].
Qed.

Lemma nodes_eq (t : Area) : nodes t = t :: forestNodes (SubAreas t).
Proof. destruct t; reflexivity. Qed.

Lemma size_eq (t : Area) : size t = S (count (SubAreas t)).
Proof. unfold size. rewrite nodes_eq. reflexivity. Qed.

Lemma count_cons (t : Area) (l : list Area) : count (t :: l) = (size t + count l)%nat.
Proof. unfold count, size, forestNodes. simpl. apply length_app. Qed.

Lemma count_app (l1 l2 : list Area) : count (l1 ++ l2) = (count l1 + count l2)%nat.
Proof. unfold count, forestNodes. rewrite flat_map_app. apply length_app. Qed.

Lemma size_pos (t : Area) : (0 < size t)%nat.
Proof. rewrite size_eq. lia. Qed.

Lemma forestNodes_cons (t : Area) (l : list Area) :
  forestNodes (t :: l) = nodes t ++ forestNodes l.
Proof. reflexivity. Qed.

Lemma elem_of_forestNodes (N : Area) (l : list Area) :
  N ∈ forestNodes l <-> exists t, t ∈ l /\ N ∈ nodes t.
Proof.
  unfold forestNodes. rewrite list_elem_of_In, in_flat_map.
  split; intros (t & Ht & HN); exists t; rewrite ?list_elem_of_In in *; auto.
Qed.

(** ** int32 *)

Lemma wrap32_small (z : Z) : minInt32 <= z <= maxInt32 -> wrap32 z = z.
Proof.
  unfold wrap32, minInt32, maxInt32. intros Hz.
  rewrite Z.mod_small by lia. lia.
Qed.

Lemma wrap32_add (a b : Z) : wrap32 (wrap32 a + b) = wrap32 (a + b).
Proof.
  unfold wrap32. f_equal.
  replace ((a + 2 ^ 31) mod 2 ^ 32 - 2 ^ 31 + b + 2 ^ 31)
    with ((a + 2 ^ 31) mod 2 ^ 32 + b) by lia.
  rewrite Zplus_mod_idemp_l. f_equal. lia.
Qed.

Lemma wrap32_range (z : Z) : minInt32 <= wrap32 z <= maxInt32.
Proof.
  unfold wrap32, minInt32, maxInt32.
  pose proof (Z.mod_pos_bound (z + 2 ^ 31) (2 ^ 32)). lia.
Qed.

Lemma incr32_wrap32 (z : Z) : incr32 (wrap32 z) = wrap32 (z + 1).
Proof. apply wrap32_add. Qed.

(** ** Nested-set indexer *)

(** [indexTree] in terms of the loop over the children. *)
Lemma indexTree_eq (t : Area) (start : Z) :
  indexTree t start =
  let r := indexTrees (SubAreas t) (incr32 start) in
  (mkArea (Code t) (Name t) (ParentCode t) (incr32 start) (incr32 r.2) r.1,
   incr32 r.2).
Proof.
  destruct t as [c n pc l r subs]. simpl.
  change ((fix loop (l0 : list Area) (start0 : Z) {struct l0} : list Area * Z :=
             match l0 with
             | [] => ([], start0)
             | sub :: l' =>
                 let '(sub', start1) := indexTree sub start0 in
                 let '(l'', start2) := loop l' start1 in (sub' :: l'', start2)
             end) subs (incr32 start))
    with (indexTrees subs (incr32 start)).
  destruct (indexTrees subs (incr32 start)); reflexivity.
Qed.

Lemma indexTrees_cons (t : Area) (l : list Area) (start : Z) :
  indexTrees (t :: l) start =
  ((indexTree t start).1 :: (indexTrees l (indexTree t start).2).1,
   (indexTrees l (indexTree t start).2).2).
Proof.
  simpl. destruct (indexTree t start) as [t' s']. simpl.
  destruct (indexTrees l s'); reflexivity.
Qed.

(** The counter is threaded through the whole list: it is not reset. *)
Lemma indexTrees_app (l1 l2 : list Area) (start : Z) :
  indexTrees (l1 ++ l2) start =
  ((indexTrees l1 start).1 ++ (indexTrees l2 (indexTrees l1 start).2).1,
   (indexTrees l2 (indexTrees l1 start).2).2).
Proof.
  revert start. induction l1 as [|t l1 IH]; intros start.
  - simpl. destruct (indexTrees l2 start); reflexivity.
  - rewrite <- app_comm_cons, !indexTrees_cons, IH. reflexivity.
Qed.

Lemma indexTree_Left (t : Area) (start : Z) :
  Left (indexTree t start).1 = incr32 start.
Proof. rewrite indexTree_eq. reflexivity. Qed.

Lemma indexTree_Right (t : Area) (start : Z) :
  Right (indexTree t start).1 = (indexTree t start).2.
Proof. rewrite indexTree_eq. reflexivity. Qed.

Lemma indexTree_SubAreas (t : Area) (start : Z) :
  SubAreas (indexTree t start).1 = (indexTrees (SubAreas t) (incr32 start)).1.
Proof. rewrite indexTree_eq. reflexivity. Qed.

(** Indexing changes the keys only. *)
Lemma unkey_eq (t : Area) :
  unkey t = mkArea (Code t) (Name t) (ParentCode t) 0 0 (map unkey (SubAreas t)).
Proof. destruct t; reflexivity. Qed.

Lemma indexTrees_unkey_from (l : list Area) :
  Forall (fun t => forall s, unkey (indexTree t s).1 = unkey t) l ->
  forall s, map unkey (indexTrees l s).1 = map unkey l.
Proof.
  induction 1 as [|t l Ht _ IH]; intros s; [reflexivity|].
  rewrite indexTrees_cons. simpl. rewrite Ht, IH. reflexivity.
Qed.

Lemma indexTree_unkey (t : Area) (s : Z) : unkey (indexTree t s).1 = unkey t.
Proof.
  revert s. induction t as [c n pc l r subs IH] using Area_ind. intros s.
  rewrite indexTree_eq. simpl. f_equal.
  apply indexTrees_unkey_from. exact IH.
Qed.

Lemma indexTrees_unkey (l : list Area) (s : Z) :
  map unkey (indexTrees l s).1 = map unkey l.
Proof.
  apply indexTrees_unkey_from, Forall_forall. intros t _ s'. apply indexTree_unkey.
Qed.

Lemma length_indexTrees (l : list Area) (s : Z) :
  length (indexTrees l s).1 = length l.
Proof.
  rewrite <- (length_map unkey), indexTrees_unkey. apply length_map.
Qed.

Lemma count_unkey_from (l : list Area) :
  Forall (fun t => size (unkey t) = size t) l -> count (map unkey l) = count l.
Proof.
  induction 1 as [|t l Ht _ IH]; [reflexivity|].
  simpl. rewrite !count_cons. congruence.
Qed.

Lemma size_unkey (t : Area) : size (unkey t) = size t.
Proof.
  induction t as [c n pc l r subs IH] using Area_ind.
  rewrite unkey_eq, !size_eq. simpl. f_equal. apply count_unkey_from, IH.
Qed.

Lemma count_unkey (l : list Area) : count (map unkey l) = count l.
Proof. apply count_unkey_from, Forall_forall. intros t _. apply size_unkey. Qed.

Lemma size_indexTree (t : Area) (s : Z) : size (indexTree t s).1 = size t.
Proof. rewrite <- size_unkey, indexTree_unkey. apply size_unkey. Qed.

Lemma count_indexTrees (l : list Area) (s : Z) : count (indexTrees l s).1 = count l.
Proof. rewrite <- count_unkey, indexTrees_unkey. apply count_unkey. Qed.

(** The counter after a tree, in int32 arithmetic. *)
Lemma indexTrees_counter_from (l : list Area) :
  Forall (fun t => forall s,
            (indexTree t s).2 = wrap32 (s + 2 * Z.of_nat (size t))) l ->
  forall s, (indexTrees l (wrap32 s)).2 = wrap32 (s + 2 * Z.of_nat (count l)).
Proof.
  induction 1 as [|t l Ht _ IH]; intros s.
  - simpl. f_equal. unfold count. simpl. lia.
  - rewrite indexTrees_cons. simpl. rewrite Ht, wrap32_add, IH, count_cons.
    f_equal. lia.
Qed.

Lemma indexTree_counter (t : Area) (s : Z) :
  (indexTree t s).2 = wrap32 (s + 2 * Z.of_nat (size t)).
Proof.
  revert s. induction t as [c n pc l r subs IH] using Area_ind. intros s.
  rewrite indexTree_eq. simpl.
  unfold incr32 at 2. rewrite (indexTrees_counter_from _ IH).
  rewrite incr32_wrap32, size_eq. simpl SubAreas. f_equal. lia.
Qed.

Lemma indexTrees_counter (l : list Area) (s : Z) :
  minInt32 <= s <= maxInt32 ->
  (indexTrees l s).2 = wrap32 (s + 2 * Z.of_nat (count l)).
Proof.
  intros Hs. rewrite <- (wrap32_small s) at 1 by assumption.
  apply indexTrees_counter_from, Forall_forall. intros t _ s'.
  apply indexTree_counter.
Qed.

(** ** Trees numbered by a counter *)

Lemma keyed_eq (s : Z) (t : Area) :
  keyed s t <-> Left t = s + 1 /\ chained (Left t) (SubAreas t) (Right t - 1).
Proof.
  destruct t as [c n pc l r subs]. simpl.
  apply and_iff_compat_l. generalize l. clear.
  induction subs as [|sub subs IH]; intros l; simpl.
  - lia.
  - rewrite IH. reflexivity.
Qed.

(** A counter that numbers a list ends where the sizes say. *)
Lemma chained_end_from (l : list Area) :
  Forall (fun t => forall s, keyed s t -> Right t = s + 2 * Z.of_nat (size t)) l ->
  forall s e, chained s l e -> e = s + 2 * Z.of_nat (count l).
Proof.
  induction 1 as [|t l Ht _ IH]; intros s e; simpl.
  - unfold count. simpl. lia.
  - intros [Hk Hc]. rewrite (IH _ _ Hc), (Ht _ Hk), count_cons. lia.
Qed.

Lemma keyed_Right (t : Area) (s : Z) :
  keyed s t -> Right t = s + 2 * Z.of_nat (size t).
Proof.
  revert s. induction t as [c n pc l r subs IH] using Area_ind. intros s.
  rewrite keyed_eq, size_eq. simpl. intros [-> Hc].
  apply (chained_end_from _ IH) in Hc. lia.
Qed.

Lemma chained_end (l : list Area) (s e : Z) :
  chained s l e -> e = s + 2 * Z.of_nat (count l).
Proof.
  apply chained_end_from, Forall_forall. intros t _. apply keyed_Right.
Qed.

Lemma keyed_Left (t : Area) (s : Z) : keyed s t -> Left t = s + 1.
Proof. rewrite keyed_eq. tauto. Qed.

Lemma keyed_children (t : Area) (s : Z) :
  keyed s t -> chained (Left t) (SubAreas t) (Right t - 1).
Proof. rewrite keyed_eq. tauto. Qed.

Lemma chained_app (l1 l2 : list Area) (s e : Z) :
  chained s (l1 ++ l2) e <-> exists m, chained s l1 m /\ chained m l2 e.
Proof.
  revert s. induction l1 as [|t l1 IH]; intros s; simpl.
  - split; [intros H; exists s; auto | intros (m & -> & H); exact H].
  - rewrite IH. split.
    + intros (Hk & m & H1 & H2). exists m. auto.
    + intros (m & (Hk & H1) & H2). split; [exact Hk | exists m; auto].
Qed.

(** Every tree of a numbered list is numbered, inside the bounds of the list. *)
Lemma chained_elem (l : list Area) (s e : Z) (t : Area) :
  chained s l e -> t ∈ l -> exists s', keyed s' t /\ s <= s' /\ Right t <= e.
Proof.
  intros Hc Ht. apply list_elem_of_split in Ht as (l1 & l2 & ->).
  apply chained_app in Hc as (m & H1 & H2). simpl in H2. destruct H2 as [Hk H2].
  apply chained_end in H1, H2. exists m. split; [exact Hk|]. lia.
Qed.

(** Every node of a numbered tree is numbered, inside the range of the tree. *)
Lemma keyed_nodes (t : Area) :
  forall s N, keyed s t -> N ∈ nodes t ->
    exists s', keyed s' N /\ s <= s' /\ Right N <= Right t.
Proof.
  induction t as [c n pc l r subs IH] using Area_ind. intros s N Hk HN.
  rewrite nodes_eq in HN. apply elem_of_cons in HN as [-> | HN].
  - exists s. split; [exact Hk | lia].
  - simpl in HN. apply elem_of_forestNodes in HN as (sub & Hsub & HN).
    pose proof (keyed_Left _ _ Hk) as HL. apply keyed_children in Hk. simpl in *.
    destruct (chained_elem _ _ _ _ Hk Hsub) as (s1 & Hk1 & Hs1 & Hr1).
    rewrite Forall_forall in IH.
    destruct (IH sub Hsub s1 N Hk1 HN) as (s' & Hk' & Hs' & Hr').
    exists s'. split; [exact Hk' | lia].
Qed.

Lemma chained_nodes (l : list Area) (s e : Z) (N : Area) :
  chained s l e -> N ∈ forestNodes l ->
  exists s', keyed s' N /\ s <= s' /\ Right N <= e.
Proof.
  intros Hc HN. apply elem_of_forestNodes in HN as (t & Ht & HN).
  destruct (chained_elem _ _ _ _ Hc Ht) as (s1 & Hk1 & Hs1 & Hr1).
  destruct (keyed_nodes _ _ _ Hk1 HN) as (s' & Hk' & Hs' & Hr').
  exists s'. split; [exact Hk' | lia].
Qed.

(** Neighbours in a numbered list: the next one starts right after. *)
Lemma chained_next (l : list Area) (s e : Z) (i : nat) (c c' : Area) :
  chained s l e -> l !! i = Some c -> l !! S i = Some c' -> Left c' = Right c + 1.
Proof.
  revert s i. induction l as [|t l IH]; intros s i Hc Hi HSi; [discriminate|].
  destruct Hc as [Hk Hc]. destruct i as [|i]; simpl in *.
  - injection Hi as ->. destruct l as [|t' l]; [discriminate|].
    injection HSi as ->. destruct Hc as [Hk' _]. apply (keyed_Left _ _ Hk').
  - apply (IH _ _ Hc Hi HSi).
Qed.

Lemma chained_last (l : list Area) (s e : Z) (c : Area) :
  chained s l e -> last l = Some c -> Right c = e.
Proof.
  intros Hc Hl. apply last_Some in Hl as (l' & ->).
  apply chained_app in Hc as (m & _ & Hc). simpl in Hc. destruct Hc as [_ Hc].
  simpl in Hc. congruence.
Qed.

Lemma chained_ordered (l : list Area) (s e : Z) :
  chained s l e -> rootsOrdered l.
Proof.
  revert s. induction l as [|t l IH]; intros s Hc i j r r' Hij Hi Hj;
    [discriminate|].
  destruct Hc as [Hk Hc]. destruct j as [|j]; [lia|]. simpl in Hj.
  destruct i as [|i]; simpl in Hi.
  - injection Hi as ->. apply list_elem_of_lookup_2 in Hj.
    destruct (chained_elem _ _ _ _ Hc Hj) as (s' & Hk' & Hs' & _).
    apply keyed_Left in Hk'. lia.
  - apply (IH _ Hc i j); [lia | assumption..].
Qed.

(** The invariant of the nested set at a numbered node. *)
Lemma keyed_nestedSet (N : Area) (s : Z) : keyed s N -> nestedSet N.
Proof.
  intros Hk.
  pose proof (keyed_Left _ _ Hk) as HL. pose proof (keyed_Right _ _ Hk) as HR.
  pose proof (size_pos N) as Hsz. pose proof (keyed_children _ _ Hk) as Hc.
  repeat split.
  - lia.
  - intros c Hc1. destruct (SubAreas N) as [|c1 subs]; [discriminate|].
    injection Hc1 as ->. destruct Hc as [Hk1 _]. apply keyed_Left in Hk1. lia.
  - intros i c c' Hi HSi. rewrite (chained_next _ _ _ _ _ _ Hc Hi HSi). lia.
  - intros c Hl. rewrite (chained_last _ _ _ _ Hc Hl). lia.
  - destruct (chained_nodes _ _ _ _ Hc H) as (s' & Hk' & Hs' & Hr').
    apply keyed_Left in Hk'. lia.
  - destruct (chained_nodes _ _ _ _ Hc H) as (s' & Hk' & Hs' & Hr').
    pose proof (keyed_Left _ _ Hk'). pose proof (keyed_Right _ _ Hk').
    pose proof (size_pos D). lia.
  - destruct (chained_nodes _ _ _ _ Hc H) as (s' & Hk' & Hs' & Hr'). lia.
Qed.

(** ** Indexing without overflow *)

Lemma indexTrees_chained_from (l : list Area) :
  Forall (fun t => forall s, minInt32 <= s ->
            s + 2 * Z.of_nat (size t) <= maxInt32 -> keyed s (indexTree t s).1) l ->
  forall s, minInt32 <= s -> s + 2 * Z.of_nat (count l) <= maxInt32 ->
    chained s (indexTrees l s).1 (s + 2 * Z.of_nat (count l)).
Proof.
  induction 1 as [|t l Ht _ IH]; intros s Hlo Hhi.
  - simpl. unfold count. simpl. lia.
  - rewrite count_cons in Hhi |- *. rewrite indexTrees_cons. simpl.
    split; [apply Ht; lia|].
    rewrite indexTree_Right, indexTree_counter, wrap32_small
      by (unfold minInt32, maxInt32 in *; lia).
    replace (s + 2 * Z.of_nat (size t + count l))
      with (s + 2 * Z.of_nat (size t) + 2 * Z.of_nat (count l)) by lia.
    apply IH; lia.
Qed.

Lemma indexTree_keyed (t : Area) (s : Z) :
  minInt32 <= s -> s + 2 * Z.of_nat (size t) <= maxInt32 ->
  keyed s (indexTree t s).1.
Proof.
  revert s. induction t as [c n pc l r subs IH] using Area_ind. intros s Hlo Hhi.
  rewrite size_eq in Hhi. simpl in Hhi.
  assert (Hs1 : incr32 s = s + 1).
  { apply wrap32_small. unfold minInt32, maxInt32 in *. lia. }
  rewrite keyed_eq, indexTree_Left, indexTree_Right, indexTree_SubAreas.
  rewrite indexTree_counter, size_eq, Hs1. simpl SubAreas.
  rewrite wrap32_small by (unfold minInt32, maxInt32 in *; lia).
  split; [reflexivity|].
  replace (s + 2 * Z.of_nat (S (count subs)) - 1)
    with (s + 1 + 2 * Z.of_nat (count subs)) by lia.
  apply (indexTrees_chained_from _ IH); lia.
Qed.

Lemma indexTrees_chained (l : list Area) (s : Z) :
  minInt32 <= s -> s + 2 * Z.of_nat (count l) <= maxInt32 ->
  chained s (indexTrees l s).1 (s + 2 * Z.of_nat (count l)).
Proof.
  apply indexTrees_chained_from, Forall_forall. intros t _ s'.
  apply indexTree_keyed.
Qed.

Lemma assignKeys_chained (trees : list Area) :
  2 * Z.of_nat (count trees) <= maxInt32 ->
  chained 0 (assignKeys trees) (2 * Z.of_nat (count trees)).
Proof.
  intros Hhi. apply (indexTrees_chained trees 0); [unfold minInt32|]; lia.
Qed.

(** ** The keys in counter order *)

Lemma keys_eq (t : Area) :
  keys t = Left t :: flat_map keys (SubAreas t) ++ [Right t].
Proof. destruct t; reflexivity. Qed.

Lemma seqZ_one (m : Z) : seqZ m 1 = [m].
Proof. rewrite seqZ_cons by lia. rewrite seqZ_nil by lia. reflexivity. Qed.

Lemma chained_keys_from (l : list Area) :
  Forall (fun t => forall s, keyed s t ->
            keys t = seqZ (s + 1) (2 * Z.of_nat (size t))) l ->
  forall s e, chained s l e ->
    flat_map keys l = seqZ (s + 1) (2 * Z.of_nat (count l)).
Proof.
  induction 1 as [|t l Ht _ IH]; intros s e; simpl.
  - intros _. unfold count. simpl. rewrite seqZ_nil by lia. reflexivity.
  - intros [Hk Hc]. rewrite (Ht _ Hk), (IH _ _ Hc), (keyed_Right _ _ Hk), count_cons.
    replace (2 * Z.of_nat (size t + count l))
      with (2 * Z.of_nat (size t) + 2 * Z.of_nat (count l)) by lia.
    rewrite seqZ_app by lia. do 2 f_equal. lia.
Qed.

Lemma keyed_keys (t : Area) (s : Z) :
  keyed s t -> keys t = seqZ (s + 1) (2 * Z.of_nat (size t)).
Proof.
  revert s. induction t as [c n pc l r subs IH] using Area_ind. intros s Hk.
  pose proof (keyed_Left _ _ Hk) as HL. pose proof (keyed_Right _ _ Hk) as HR.
  apply keyed_children in Hk. rewrite size_eq in HR |- *. rewrite keys_eq. projs.
  rewrite (chained_keys_from _ IH _ _ Hk). subst l r.
  replace (2 * Z.of_nat (S (count subs)))
    with (1 + (2 * Z.of_nat (count subs) + 1)) by lia.
  rewrite (seqZ_app (s + 1) 1), seqZ_one by lia.
  rewrite (seqZ_app (s + 1 + 1)), seqZ_one by lia.
  simpl. do 3 f_equal. lia.
Qed.

Lemma chained_keys (l : list Area) (s e : Z) :
  chained s l e -> flat_map keys l = seqZ (s + 1) (2 * Z.of_nat (count l)).
Proof.
  apply chained_keys_from, Forall_forall. intros t _. apply keyed_keys.
Qed.

(** The keys in counter order are the [Left] and [Right] values, rearranged. *)
Lemma allKeys_cons (t : Area) (l : list Area) :
  allKeys (t :: l) ≡ₚ allKeys [t] ++ allKeys l.
Proof.
  unfold allKeys. rewrite !forestNodes_cons. change (forestNodes []) with (@nil Area).
  rewrite app_nil_r, !map_app. solve_Permutation.
Qed.

Lemma allKeys_tree (t : Area) :
  allKeys [t] ≡ₚ Left t :: allKeys (SubAreas t) ++ [Right t].
Proof.
  unfold allKeys. rewrite forestNodes_cons. change (forestNodes []) with (@nil Area).
  rewrite app_nil_r, nodes_eq. simpl. solve_Permutation.
Qed.

Lemma keys_allKeys_from (l : list Area) :
  Forall (fun t => keys t ≡ₚ allKeys [t]) l -> flat_map keys l ≡ₚ allKeys l.
Proof.
  induction 1 as [|t l Ht _ IH]; [reflexivity|].
  simpl. rewrite allKeys_cons, Ht, IH. reflexivity.
Qed.

Lemma keys_allKeys_tree (t : Area) : keys t ≡ₚ allKeys [t].
Proof.
  induction t as [c n pc l r subs IH] using Area_ind.
  rewrite keys_eq, allKeys_tree. simpl. rewrite (keys_allKeys_from _ IH).
  reflexivity.
Qed.

Lemma keys_allKeys (l : list Area) : flat_map keys l ≡ₚ allKeys l.
Proof.
  apply keys_allKeys_from, Forall_forall. intros t _. apply keys_allKeys_tree.
Qed.

(** A node without children is a node without descendants. *)
Lemma descendants_nil (N : Area) : descendants N = [] <-> SubAreas N = [].
Proof.
  unfold descendants. destruct (SubAreas N) as [|c subs]; [tauto|].
  rewrite forestNodes_cons, nodes_eq. split; discriminate.
Qed.

Lemma size_descendants (N : Area) : size N = S (length (descendants N)).
Proof. apply size_eq. Qed.

Lemma keyed_descendants (N : Area) (s : Z) :
  keyed s N ->
  Right N = Left N + 2 * Z.of_nat (length (descendants N)) + 1
  /\ (SubAreas N = [] <-> Right N = Left N + 1).
Proof.
  intros Hk. pose proof (keyed_Left _ _ Hk) as HL.
  pose proof (keyed_Right _ _ Hk) as HR. rewrite size_descendants in HR.
  split; [lia|]. rewrite <- descendants_nil. split.
  - intros Hd. rewrite Hd in HR. simpl in HR. lia.
  - intros Hr. destruct (descendants N); [reflexivity|]. simpl in HR. lia.
Qed.

(** ** The indexer: statements *)

(** C9 (amended). For every tree [t] and every int32 [s] with
    [s + 2 * size t] no more than the largest int32, [indexTree t s] returns
    [s + 2 * size t]; in general it returns that number reduced to an int32.
    Consequently, after [assignKeys] on a forest with [2 * count] no more than
    the largest int32, every node has
    [Right = Left + 2 * (number of proper descendants) + 1], and a node has
    no children exactly when [Right = Left + 1]. *)
Theorem indexTree_returns :
  (forall (t : Area) (s : Z),
     minInt32 <= s -> s + 2 * Z.of_nat (size t) <= maxInt32 ->
     (indexTree t s).2 = s + 2 * Z.of_nat (size t))
  /\ (forall (t : Area) (s : Z),
     (indexTree t s).2 = wrap32 (s + 2 * Z.of_nat (size t)))
  /\ (forall (trees : list Area),
     2 * Z.of_nat (count trees) <= maxInt32 ->
     forall N, N ∈ forestNodes (assignKeys trees) ->
       Right N = Left N + 2 * Z.of_nat (length (descendants N)) + 1
       /\ (SubAreas N = [] <-> Right N = Left N + 1)).
Proof.
  split; [|split].
  - intros t s Hlo Hhi. rewrite indexTree_counter. apply wrap32_small.
    unfold minInt32, maxInt32 in *. lia.
  - apply indexTree_counter.
  - intros trees Hhi N HN.
    destruct (chained_nodes _ _ _ _ (assignKeys_chained _ Hhi) HN)
      as (s' & Hk & _).
    apply (keyed_descendants _ _ Hk).
Qed.

(** C2 (amended). After [assignKeys] on a forest with [2 * count] no more
    than the largest int32, the [Left] and [Right] values of the forest are
    the numbers [1 .. 2 * count], each once; the ranges of the roots follow
    each other in root order; and the counter is not reset between trees: the
    trees after a prefix are numbered from where the prefix ended. *)
Theorem assignKeys_range (trees : list Area) :
  2 * Z.of_nat (count trees) <= maxInt32 ->
  allKeys (assignKeys trees) ≡ₚ seqZ 1 (2 * Z.of_nat (count trees))
  /\ NoDup (allKeys (assignKeys trees))
  /\ rootsOrdered (assignKeys trees)
  /\ (forall l1 l2, trees = l1 ++ l2 ->
        assignKeys trees
        = assignKeys l1 ++ (indexTrees l2 (2 * Z.of_nat (count l1))).1).
Proof.
  intros Hhi. pose proof (assignKeys_chained _ Hhi) as Hc.
  assert (Hperm : allKeys (assignKeys trees) ≡ₚ seqZ 1 (2 * Z.of_nat (count trees))).
  { rewrite <- keys_allKeys, (chained_keys _ _ _ Hc).
    unfold assignKeys. rewrite count_indexTrees. reflexivity. }
  split; [exact Hperm|]. split; [rewrite Hperm; apply NoDup_seqZ|].
  split; [exact (chained_ordered _ _ _ Hc)|].
  intros l1 l2 ->. unfold assignKeys. rewrite indexTrees_app. simpl.
  rewrite count_app in Hhi.
  rewrite (indexTrees_counter l1 0) by (unfold minInt32, maxInt32; lia).
  rewrite wrap32_small by (unfold minInt32, maxInt32 in *; lia). reflexivity.
Qed.

(** ** The [Left] keys along the pre-order *)

Lemma StronglySorted_sublist {A : Type} (R : relation A) (l1 l2 : list A) :
  sublist l1 l2 -> StronglySorted R l2 -> StronglySorted R l1.
Proof.
  induction 1 as [|x l1 l2 Hsub IH|x l1 l2 Hsub IH]; intros Hs.
  - constructor.
  - apply StronglySorted_inv in Hs as [Hs Hx]. constructor; [auto|].
    rewrite Forall_forall in Hx |- *. intros y Hy. apply Hx.
    apply (elem_of_sublist _ _ _ Hy Hsub).
  - apply StronglySorted_inv in Hs as [Hs _]. auto.
Qed.

Lemma StronglySorted_seqZ_nat (n : nat) (m : Z) :
  StronglySorted Z.lt (seqZ m (Z.of_nat n)).
Proof.
  revert m. induction n as [|n IH]; intros m.
  - rewrite seqZ_nil by lia. constructor.
  - rewrite seqZ_cons by lia. constructor.
    + replace (Z.pred (Z.of_nat (S n))) with (Z.of_nat n) by lia. apply IH.
    + apply Forall_seqZ. intros k Hk. lia.
Qed.

Lemma lefts_keys_from (l : list Area) :
  Forall (fun t => sublist (map Left (nodes t)) (keys t)) l ->
  sublist (map Left (forestNodes l)) (flat_map keys l).
Proof.
  induction 1 as [|t l Ht _ IH]; [constructor|].
  rewrite forestNodes_cons, map_app. simpl. apply sublist_app; assumption.
Qed.

Lemma lefts_keys_tree (t : Area) : sublist (map Left (nodes t)) (keys t).
Proof.
  induction t as [c n pc l r subs IH] using Area_ind.
  rewrite nodes_eq, keys_eq. simpl. apply sublist_skip, sublist_inserts_r.
  apply (lefts_keys_from _ IH).
Qed.

(** Numbered by one counter, the nodes in pre-order have increasing [Left]. *)
Lemma chained_lefts_sorted (l : list Area) (s e : Z) :
  chained s l e -> StronglySorted Z.lt (map Left (forestNodes l)).
Proof.
  intros Hc. apply (StronglySorted_sublist _ _ (flat_map keys l)).
  - apply lefts_keys_from, Forall_forall. intros t _. apply lefts_keys_tree.
  - rewrite (chained_keys _ _ _ Hc).
    replace (2 * Z.of_nat (count l)) with (Z.of_nat (2 * count l)) by lia.
    apply StronglySorted_seqZ_nat.
Qed.

(** ** Outcomes and loops *)

Lemma bind_Ok {A B : Type} (r : result A) (k : A -> result B) (b : B) :
  (do x <- r; k x) = Ok b <-> exists a, r = Ok a /\ k a = Ok b.
Proof.
  destruct r as [a|e]; simpl; split.
  - intros H. exists a. auto.
  - intros (a' & [= <-] & H). exact H.
  - discriminate.
  - intros (a' & [=] & _).
Qed.

Lemma index_Ok {A : Type} (l : list A) (i : nat) (a : A) :
  index l i = Ok a <-> l !! i = Some a.
Proof.
  unfold index. destruct (l !! i); split; intros H; try discriminate;
    injection H as ->; reflexivity.
Qed.

(** A loop keeps an invariant on the list read so far (if it ends). *)
Lemma forEach_partial {St A : Type} (body : St -> A -> result St)
  (I : list A -> St -> Prop) :
  (forall pre st x st', I pre st -> body st x = Ok st' -> I (pre ++ [x]) st') ->
  forall l pre st st', I pre st -> forEach body l st = Ok st' -> I (pre ++ l) st'.
Proof.
  intros Hstep. induction l as [|x l IH]; intros pre st st' HI Hrun; simpl in Hrun.
  - injection Hrun as <-. rewrite app_nil_r. exact HI.
  - apply bind_Ok in Hrun as (st1 & Hx & Hrun).
    rewrite (cons_middle x pre l), app_assoc.
    apply (IH _ st1); [|exact Hrun]. apply (Hstep _ st); assumption.
Qed.

(** A loop whose body succeeds under the invariant ends. *)
Lemma forEach_total {St A : Type} (body : St -> A -> result St)
  (I : list A -> St -> Prop) (P : A -> Prop) :
  (forall pre st x, I pre st -> P x ->
     exists st', body st x = Ok st' /\ I (pre ++ [x]) st') ->
  forall l pre st, I pre st -> Forall P l ->
    exists st', forEach body l st = Ok st' /\ I (pre ++ l) st'.
Proof.
  intros Hstep. induction l as [|x l IH]; intros pre st HI HP; simpl.
  - exists st. rewrite app_nil_r. auto.
  - apply Forall_cons in HP as [Hx HP].
    destruct (Hstep _ _ _ HI Hx) as (st1 & -> & HI1). simpl.
    rewrite (cons_middle x pre l), app_assoc.
    apply IH; assumption.
Qed.

(** ** Levels *)

Lemma below_app (l1 l2 : list Area) : below (l1 ++ l2) = below l1 ++ below l2.
Proof. apply flat_map_app. Qed.

Lemma below_cons (p : Area) (l : list Area) : below (p :: l) = SubAreas p ++ below l.
Proof. reflexivity. Qed.

Lemma level_nil (k : nat) : level k [] = [].
Proof. induction k; simpl; auto. Qed.

Lemma level_app (k : nat) (l1 l2 : list Area) :
  level k (l1 ++ l2) = level k l1 ++ level k l2.
Proof.
  revert l1 l2. induction k as [|k IH]; intros l1 l2; [reflexivity|].
  change (level (S k) (l1 ++ l2)) with (level k (below (l1 ++ l2))).
  rewrite below_app. apply IH.
Qed.

Lemma level_cons (k : nat) (p : Area) (l : list Area) :
  level (S k) (p :: l) = level k (SubAreas p) ++ level (S k) l.
Proof.
  change (level (S k) (p :: l)) with (level k (below (p :: l))).
  rewrite below_cons, level_app. reflexivity.
Qed.

Lemma level_S (k : nat) (l : list Area) : level (S k) l = below (level k l).
Proof.
  revert l. induction k as [|k IH]; intros l; [reflexivity|].
  change (level (S (S k)) l) with (level (S k) (below l)). rewrite IH. reflexivity.
Qed.

Lemma level_add (j k : nat) (l : list Area) : level (j + k) l = level j (level k l).
Proof.
  induction j as [|j IH]; [reflexivity|].
  change (S j + k)%nat with (S (j + k)). rewrite !level_S, IH. reflexivity.
Qed.

(** Replacing the element at an index, seen as a split of the list. *)
Lemma insert_split {A : Type} (l : list A) (i : nat) (x y : A) :
  l !! i = Some x ->
  exists l1 l2, l = l1 ++ x :: l2 /\ <[i:=y]> l = l1 ++ y :: l2 /\ length l1 = i.
Proof.
  intros Hi. exists (take i l), (drop (S i) l).
  pose proof (lookup_lt_Some _ _ _ Hi) as Hlt.
  split; [symmetry; apply take_drop_middle; exact Hi|].
  split; [apply insert_take_drop; exact Hlt|].
  rewrite length_take. lia.
Qed.

(** ** Attaching a node *)

(** Down to the level of the parent, the records stay what they were. *)
Lemma attach_flat (n : Area) (k : nat) (l l' : list Area) :
  attach n k l l' ->
  forall j, (j <= k)%nat -> map flatOf (level j l') = map flatOf (level j l).
Proof.
  induction 1 as [l1 p l2 | k l1 p l2 subs' Hin IH]; intros j Hj.
  - assert (j = 0%nat) as -> by lia. simpl. rewrite !map_app. reflexivity.
  - destruct j as [|j].
    + simpl. rewrite !map_app. reflexivity.
    + rewrite !level_app, !level_cons, !map_app. simpl SubAreas.
      rewrite IH by lia. reflexivity.
Qed.

(** Above the level of the parent, the families stay what they were. *)
Lemma attach_family (n : Area) (k : nat) (l l' : list Area) :
  attach n k l l' ->
  forall j, (j < k)%nat -> map family (level j l') = map family (level j l).
Proof.
  induction 1 as [l1 p l2 | k l1 p l2 subs' Hin IH]; intros j Hj; [lia|].
  destruct j as [|j].
  - simpl. rewrite !map_app. simpl. do 2 f_equal. unfold family. simpl.
    f_equal. apply (attach_flat _ _ _ _ Hin 0%nat). lia.
  - rewrite !level_app, !level_cons, !map_app. simpl SubAreas.
    rewrite IH by lia. reflexivity.
Qed.

(** At the level of the parent, one node gets the child. *)
Lemma attach_parent (n : Area) (k : nat) (l l' : list Area) :
  attach n k l l' ->
  exists a p b, level k l = a ++ p :: b /\ level k l' = a ++ appendSub p n :: b.
Proof.
  induction 1 as [l1 p l2 | k l1 p l2 subs' Hin IH].
  - exists l1, p, l2. auto.
  - destruct IH as (a & q & b & Hl & Hl').
    exists (level (S k) l1 ++ a), q, (b ++ level (S k) l2).
    rewrite !level_app, !level_cons. simpl SubAreas. rewrite Hl, Hl'.
    rewrite <- !app_assoc. auto.
Qed.

(** One level below the parent, the node is inserted. *)
Lemma attach_child (n : Area) (k : nat) (l l' : list Area) :
  attach n k l l' ->
  exists a b, level (S k) l = a ++ b /\ level (S k) l' = a ++ n :: b.
Proof.
  intros H. destruct (attach_parent _ _ _ _ H) as (a & p & b & Hl & Hl').
  exists (below a ++ SubAreas p), (below b).
  rewrite !level_S, Hl, Hl', !below_app, !below_cons. simpl.
  rewrite <- !app_assoc. auto.
Qed.

(** Further down nothing changes, the node having no children. *)
Lemma attach_deeper (n : Area) (k : nat) (l l' : list Area) :
  attach n k l l' -> SubAreas n = [] ->
  forall j, (S k < j)%nat -> level j l' = level j l.
Proof.
  intros H Hn j Hj. destruct (attach_child _ _ _ _ H) as (a & b & Hl & Hl').
  replace j with ((j - S (S k)) + S (S k))%nat by lia.
  rewrite !(level_add _ (S (S k))). f_equal.
  rewrite !(level_S (S k)), Hl, Hl', !below_app, below_cons, Hn. reflexivity.
Qed.

(** ** The invariant of the builder under one attachment *)

Lemma siblingsFollow_family (input : list flatNode) (l l' : list Area) :
  map family l' = map family l -> siblingsFollow input l -> siblingsFollow input l'.
Proof.
  unfold siblingsFollow. intros Heq Hl.
  apply (Forall_map family (fun f => sublist f.2 input)).
  rewrite Heq. apply Forall_map. exact Hl.
Qed.

Lemma siblingsFollow_snoc (input : list flatNode) (x : flatNode) (l : list Area) :
  siblingsFollow input l -> siblingsFollow (input ++ [x]) l.
Proof.
  unfold siblingsFollow. intros H. eapply Forall_impl; [exact H|].
  intros p Hp. apply sublist_inserts_r. exact Hp.
Qed.

Lemma upd_eq (inp : nat -> list flatNode) (k : nat) (v : list flatNode) :
  upd inp k v k = v.
Proof. unfold upd. rewrite decide_True; reflexivity. Qed.

Lemma upd_ne (inp : nat -> list flatNode) (k j : nat) (v : list flatNode) :
  j <> k -> upd inp k v j = inp j.
Proof. intros Hne. unfold upd. rewrite decide_False; auto. Qed.

Lemma Built_ext (T : list Area) (inp inp' : nat -> list flatNode) :
  (forall j, inp j = inp' j) -> Built T inp -> Built T inp'.
Proof. intros Heq HB j. rewrite <- Heq. apply HB. Qed.

Lemma attach_Built (n : Area) (k : nat) (T T' : list Area)
  (inp : nat -> list flatNode) :
  attach n k T T' -> SubAreas n = [] -> Built T inp ->
  Built T' (upd inp k (inp k ++ [flatOf n])).
Proof.
  intros Hat Hn HB j. destruct (HB j) as [Hsib Hperm]. split.
  - destruct (lt_eq_lt_dec j k) as [[Hlt | ->] | Hgt].
    + rewrite upd_ne by lia.
      apply (siblingsFollow_family _ (level j T));
        [apply (attach_family _ _ _ _ Hat); lia | exact Hsib].
    + rewrite upd_eq.
      destruct (attach_parent _ _ _ _ Hat) as (a & p & b & Hl & Hl').
      rewrite Hl in Hsib. rewrite Hl'. unfold siblingsFollow in *.
      apply Forall_app in Hsib as [Ha Hpb]. apply Forall_cons in Hpb as [Hp Hb].
      apply Forall_app. split; [apply siblingsFollow_snoc; exact Ha|].
      apply Forall_cons. split; [|apply siblingsFollow_snoc; exact Hb].
      simpl. rewrite map_app. simpl. apply sublist_app; [exact Hp | reflexivity].
    + rewrite upd_ne by lia. destruct (decide (j = S k)) as [-> | Hne].
      * destruct (attach_child _ _ _ _ Hat) as (a & b & Hl & Hl').
        rewrite Hl in Hsib. rewrite Hl'. unfold siblingsFollow in *.
        apply Forall_app in Hsib as [Ha Hb].
        apply Forall_app. split; [exact Ha|]. apply Forall_cons. split; [|exact Hb].
        rewrite Hn. apply sublist_nil_l.
      * rewrite (attach_deeper _ _ _ _ Hat Hn) by lia. exact Hsib.
  - destruct (lt_eq_lt_dec j k) as [[Hlt | ->] | Hgt].
    + rewrite upd_ne by lia. rewrite (attach_flat _ _ _ _ Hat) by lia. exact Hperm.
    + rewrite upd_eq.
      destruct (attach_child _ _ _ _ Hat) as (a & b & Hl & Hl').
      rewrite Hl in Hperm. rewrite Hl', <- Hperm, !map_app. simpl.
      rewrite <- Permutation_middle. rewrite Permutation_cons_append. reflexivity.
    + rewrite upd_ne by lia. rewrite (attach_deeper _ _ _ _ Hat Hn) by lia.
      exact Hperm.
Qed.

(** ** The steps of the builder *)

Section BuilderSteps.

Variable spare : nat -> nat.
Variable provinceOrder : gmap string nat.

Lemma length_appendSub (p n : Area) :
  (length (SubAreas (appendSub p n)) - 1)%nat = length (SubAreas p).
Proof. simpl. rewrite length_app. simpl. lia. Qed.

Lemma cityStep_Ok (T : list Area) (cityOrder : gmap string nat) (c : flatNode)
  (st' : list Area * gmap string nat) :
  cityStep spare provinceOrder (T, cityOrder) c = Ok st' <->
  exists pk p,
    getProvince spare (code c) = Ok pk
    /\ T !! lookupOrder provinceOrder pk = Some p
    /\ st' = (<[lookupOrder provinceOrder pk := appendSub p (cityNode c)]> T,
              <[code c := length (SubAreas p)]> cityOrder).
Proof.
  unfold cityStep. rewrite bind_Ok. split.
  - intros (pk & Hpk & H). apply bind_Ok in H as (p & Hp & H).
    apply index_Ok in Hp. rewrite length_appendSub in H. injection H as <-.
    exists pk, p. auto.
  - intros (pk & p & Hpk & Hp & ->). exists pk. split; [exact Hpk|].
    apply bind_Ok. exists p. split; [apply index_Ok; exact Hp|].
    rewrite length_appendSub. reflexivity.
Qed.

Lemma areaStep_Ok (cityOrder : gmap string nat) (T : list Area)
  (areaOrder : gmap string nat) (a : flatNode)
  (st' : list Area * gmap string nat) :
  areaStep spare provinceOrder cityOrder (T, areaOrder) a = Ok st' <->
  exists pk ck p c,
    getProvince spare (code a) = Ok pk /\ getCity spare (code a) = Ok ck
    /\ T !! lookupOrder provinceOrder pk = Some p
    /\ SubAreas p !! lookupOrder cityOrder ck = Some c
    /\ st' = (<[lookupOrder provinceOrder pk :=
                  withSubAreas p (<[lookupOrder cityOrder ck :=
                                      appendSub c (areaNode a)]> (SubAreas p))]> T,
              <[code a := length (SubAreas c)]> areaOrder).
Proof.
  unfold areaStep. rewrite bind_Ok. split.
  - intros (pk & Hpk & H). apply bind_Ok in H as (ck & Hck & H).
    apply bind_Ok in H as (p & Hp & H). apply bind_Ok in H as (c & Hc & H).
    apply index_Ok in Hp, Hc. rewrite length_appendSub in H. injection H as <-.
    exists pk, ck, p, c. auto.
  - intros (pk & ck & p & c & Hpk & Hck & Hp & Hc & ->).
    exists pk. split; [exact Hpk|]. apply bind_Ok. exists ck. split; [exact Hck|].
    apply bind_Ok. exists p. split; [apply index_Ok; exact Hp|].
    apply bind_Ok. exists c. split; [apply index_Ok; exact Hc|].
    rewrite length_appendSub. reflexivity.
Qed.

Lemma streetStep_Ok (cityOrder areaOrder : gmap string nat) (T : list Area)
  (s : flatNode) (T' : list Area) :
  streetStep spare provinceOrder cityOrder areaOrder T s = Ok T' <->
  exists pk ck ak p c a,
    getProvince spare (code s) = Ok pk /\ getCity spare (code s) = Ok ck
    /\ getArea spare (code s) = Ok ak
    /\ T !! lookupOrder provinceOrder pk = Some p
    /\ SubAreas p !! lookupOrder cityOrder ck = Some c
    /\ SubAreas c !! lookupOrder areaOrder ak = Some a
    /\ T' = <[lookupOrder provinceOrder pk :=
                withSubAreas p
                  (<[lookupOrder cityOrder ck :=
                       withSubAreas c
                         (<[lookupOrder areaOrder ak :=
                              appendSub a (streetNode s)]> (SubAreas c))]>
                     (SubAreas p))]> T.
Proof.
  unfold streetStep. rewrite bind_Ok. split.
  - intros (pk & Hpk & H). apply bind_Ok in H as (ck & Hck & H).
    apply bind_Ok in H as (ak & Hak & H).
    apply bind_Ok in H as (p & Hp & H). apply bind_Ok in H as (c & Hc & H).
    apply bind_Ok in H as (a & Ha & H).
    apply index_Ok in Hp, Hc, Ha. injection H as <-.
    exists pk, ck, ak, p, c, a. auto 10.
  - intros (pk & ck & ak & p & c & a & Hpk & Hck & Hak & Hp & Hc & Ha & ->).
    exists pk. split; [exact Hpk|]. apply bind_Ok. exists ck. split; [exact Hck|].
    apply bind_Ok. exists ak. split; [exact Hak|].
    apply bind_Ok. exists p. split; [apply index_Ok; exact Hp|].
    apply bind_Ok. exists c. split; [apply index_Ok; exact Hc|].
    apply bind_Ok. exists a. split; [apply index_Ok; exact Ha|]. reflexivity.
Qed.

(** Each step attaches the node of its record, at the level of its loop. *)
Lemma cityStep_attach (T : list Area) (co : gmap string nat) (c : flatNode)
  (st' : list Area * gmap string nat) :
  cityStep spare provinceOrder (T, co) c = Ok st' ->
  attach (cityNode c) 0 T st'.1.
Proof.
  intros H. apply cityStep_Ok in H as (pk & p & _ & Hp & ->). simpl.
  destruct (insert_split _ _ _ (appendSub p (cityNode c)) Hp)
    as (l1 & l2 & -> & -> & _).
  constructor.
Qed.

Lemma areaStep_attach (co : gmap string nat) (T : list Area)
  (ao : gmap string nat) (a : flatNode) (st' : list Area * gmap string nat) :
  areaStep spare provinceOrder co (T, ao) a = Ok st' ->
  attach (areaNode a) 1 T st'.1.
Proof.
  intros H. apply areaStep_Ok in H as (pk & ck & p & c & _ & _ & Hp & Hc & ->).
  simpl.
  destruct (insert_split _ _ _ (appendSub c (areaNode a)) Hc)
    as (m1 & m2 & Hm & -> & _).
  destruct (insert_split _ _ _ (withSubAreas p (m1 ++ appendSub c (areaNode a) :: m2)) Hp)
    as (l1 & l2 & -> & -> & _).
  constructor. rewrite Hm. constructor.
Qed.

Lemma streetStep_attach (co ao : gmap string nat) (T : list Area)
  (s : flatNode) (T' : list Area) :
  streetStep spare provinceOrder co ao T s = Ok T' ->
  attach (streetNode s) 2 T T'.
Proof.
  intros H.
  apply streetStep_Ok in H
    as (pk & ck & ak & p & c & a & _ & _ & _ & Hp & Hc & Ha & ->).
  destruct (insert_split _ _ _ (appendSub a (streetNode s)) Ha)
    as (n1 & n2 & Hn & -> & _).
  destruct (insert_split _ _ _
              (withSubAreas c (n1 ++ appendSub a (streetNode s) :: n2)) Hc)
    as (m1 & m2 & Hm & -> & _).
  destruct (insert_split _ _ _
              (withSubAreas p
                 (m1 ++ withSubAreas c (n1 ++ appendSub a (streetNode s) :: n2)
                     :: m2)) Hp)
    as (l1 & l2 & -> & -> & _).
  constructor. rewrite Hm. constructor. rewrite Hn. constructor.
Qed.

End BuilderSteps.

(** ** The loops of the builder *)

Lemma provinceLoop_trees (i : nat) (ps : list flatNode) (T : list Area)
  (po : gmap string nat) :
  (provinceLoop i ps (T, po)).1 = T ++ map provinceNode ps.
Proof.
  revert i T po. induction ps as [|p ps IH]; intros i T po; simpl.
  - rewrite app_nil_r. reflexivity.
  - rewrite IH, <- app_assoc. reflexivity.
Qed.

Lemma afterProvinces_trees (d : dataset) :
  (afterProvinces d).1 = map provinceNode (provinces d).
Proof. unfold afterProvinces. apply provinceLoop_trees. Qed.

Lemma below_provinces (ps : list flatNode) : below (map provinceNode ps) = [].
Proof. induction ps as [|p ps IH]; [reflexivity|]. simpl. exact IH. Qed.

Lemma flatOf_provinces (ps : list flatNode) :
  map flatOf (map provinceNode ps) = map rootRecord ps.
Proof. rewrite map_map. reflexivity. Qed.

Lemma Built_provinces (ps : list flatNode) :
  Built (map provinceNode ps) (fun _ => []).
Proof.
  intros j. split.
  - destruct j as [|j].
    + simpl. unfold siblingsFollow. apply Forall_map, Forall_forall.
      intros p _. simpl. reflexivity.
    + change (level (S j) (map provinceNode ps))
        with (level j (below (map provinceNode ps))).
      rewrite below_provinces, level_nil. constructor.
  - change (level (S j) (map provinceNode ps))
      with (level j (below (map provinceNode ps))).
    rewrite below_provinces, level_nil. reflexivity.
Qed.

(** A loop whose steps attach the nodes of its records at level [k]. *)
Lemma loop_Built {St : Type} (treesOf : St -> list Area)
  (body : St -> flatNode -> result St) (mk : flatNode -> Area) (k : nat) :
  (forall st x st', body st x = Ok st' ->
     attach (mk x) k (treesOf st) (treesOf st')) ->
  (forall x, SubAreas (mk x) = [] /\ flatOf (mk x) = x) ->
  forall xs st st' inp,
    forEach body xs st = Ok st' -> Built (treesOf st) inp ->
    Built (treesOf st') (upd inp k (inp k ++ xs))
    /\ map flatOf (treesOf st') = map flatOf (treesOf st).
Proof.
  intros Hstep Hmk xs st st' inp Hrun HB.
  apply (forEach_partial body
           (fun pre s => Built (treesOf s) (upd inp k (inp k ++ pre))
                         /\ map flatOf (treesOf s) = map flatOf (treesOf st))
           ) with (pre := []) (st := st) (l := xs).
  - intros pre s x s' [HBs Hflat] Hx. pose proof (Hstep _ _ _ Hx) as Hat.
    destruct (Hmk x) as [Hleaf Hrec]. split.
    + apply (Built_ext _ (upd (upd inp k (inp k ++ pre)) k
                            (upd inp k (inp k ++ pre) k ++ [flatOf (mk x)]))).
      * intros j. unfold upd. destruct (decide (j = k)); [|reflexivity].
        rewrite decide_True by reflexivity. rewrite Hrec, app_assoc. reflexivity.
      * apply (attach_Built _ _ _ _ _ Hat Hleaf HBs).
    + rewrite <- Hflat. apply (attach_flat _ _ _ _ Hat 0%nat). lia.
  - split; [|reflexivity]. apply (Built_ext _ inp); [|exact HB].
    intros j. unfold upd. destruct (decide (j = k)) as [->|]; [|reflexivity].
    rewrite app_nil_r. reflexivity.
  - exact Hrun.
Qed.

Lemma cityNode_record (x : flatNode) :
  SubAreas (cityNode x) = [] /\ flatOf (cityNode x) = x.
Proof. destruct x; split; reflexivity. Qed.

Lemma areaNode_record (x : flatNode) :
  SubAreas (areaNode x) = [] /\ flatOf (areaNode x) = x.
Proof. destruct x; split; reflexivity. Qed.

Lemma streetNode_record (x : flatNode) :
  SubAreas (streetNode x) = [] /\ flatOf (streetNode x) = x.
Proof. destruct x; split; reflexivity. Qed.

Section BuilderPartial.

Variable spare : nat -> nat.

(** What [buildTrees] returns, when it returns: the roots are the province
    records, with the parent code ["0"]; below them, the records of each
    level, each attached once, the children of every node in the order of
    their list. *)
Lemma buildTrees_Built (d : dataset) (T : list Area) :
  buildTrees spare d = Ok T ->
  map flatOf T = map rootRecord (provinces d) /\ Built T (inputs d).
Proof.
  unfold buildTrees, afterAreas, afterCities. intros H.
  apply bind_Ok in H as ([[T2 co] ao] & H & Hstreets).
  apply bind_Ok in H as ([T1 co'] & Hcities & H).
  apply bind_Ok in H as ([T2' ao'] & Hareas & [= <- <- <-]). simpl in *.
  set (po := (afterProvinces d).2) in *.
  pose proof (Built_provinces (provinces d)) as HB0.
  rewrite <- afterProvinces_trees in HB0.
  refine (_ (loop_Built fst (cityStep spare po) cityNode 0 _
              cityNode_record
              _ _ _ _ Hcities HB0)).
  2:{ intros [T0 c0] x st'. apply cityStep_attach. }
  intros [HB1 Hf1].
  refine (_ (loop_Built fst (areaStep spare po co') areaNode 1 _
              areaNode_record
              _ _ _ _ Hareas HB1)).
  2:{ intros [T0 a0] x st'. apply areaStep_attach. }
  intros [HB2 Hf2].
  destruct (loop_Built (fun T => T) (streetStep spare po co' ao') streetNode 2
              (streetStep_attach spare po co' ao')
              streetNode_record
              _ _ _ _ Hstreets HB2) as [HB3 Hf3].
  simpl in *. split.
  - rewrite Hf3, Hf2, Hf1, afterProvinces_trees. apply flatOf_provinces.
  - eapply Built_ext; [|exact HB3]. intros [|[|[|j]]]; reflexivity.
Qed.

End BuilderPartial.

(** ** The positions remembered by the builder *)

Lemma lookupOrder_Some (order : gmap string nat) (k : string) (i : nat) :
  order !! k = Some i -> lookupOrder order k = i.
Proof. intros H. unfold lookupOrder. rewrite H. reflexivity. Qed.

Lemma provinceLoop_order (ps : list flatNode) :
  forall (i : nat) (T : list Area) (po : gmap string nat),
    (forall k j, po !! k = Some j -> (j < i)%nat) ->
    (forall k j, (provinceLoop i ps (T, po)).2 !! k = Some j ->
       (j < i + length ps)%nat)
    /\ (forall k, is_Some (po !! k) \/ k ∈ map code ps ->
          is_Some ((provinceLoop i ps (T, po)).2 !! k)).
Proof.
  induction ps as [|p ps IH]; intros i T po Hpo; simpl.
  - split.
    + intros k j Hk. specialize (Hpo _ _ Hk). lia.
    + intros k [Hk | Hk]; [exact Hk | inversion Hk].
  - destruct (IH (S i) (T ++ [provinceNode p]) (<[code p := i]> po)) as [Hlt Hdom].
    { intros k j. rewrite lookup_insert. case_decide.
      - intros [= <-]. lia.
      - intros Hk. specialize (Hpo _ _ Hk). lia. }
    split.
    + intros k j Hk. specialize (Hlt _ _ Hk). lia.
    + intros k Hk. apply Hdom. destruct (decide (code p = k)) as [<- | Hne].
      * left. rewrite lookup_insert_eq. eauto.
      * destruct Hk as [Hk | Hk].
        -- left. rewrite lookup_insert_ne by exact Hne. exact Hk.
        -- right. apply elem_of_cons in Hk as [Hk | Hk]; [congruence | exact Hk].
Qed.

Lemma afterProvinces_order (d : dataset) (k : string) :
  k ∈ map code (provinces d) ->
  exists i, (afterProvinces d).2 !! k = Some i
            /\ (i < length (afterProvinces d).1)%nat.
Proof.
  intros Hk. unfold afterProvinces.
  destruct (provinceLoop_order (provinces d) 0 [] ∅) as [Hlt Hdom].
  { intros k' j. rewrite lookup_empty. discriminate. }
  destruct (Hdom k (or_intror Hk)) as [i Hi]. exists i. split; [exact Hi|].
  rewrite provinceLoop_trees. simpl. rewrite length_map.
  apply (Hlt _ _ Hi).
Qed.

Lemma widths_lookup (T : list Area) (i w : nat) :
  widths T !! i = Some w <->
  exists p, T !! i = Some p /\ w = length (SubAreas p).
Proof.
  unfold widths. rewrite list_lookup_fmap. destruct (T !! i) as [p|]; simpl.
  - split; [intros [= <-]; eauto | intros (p' & [= <-] & ->); reflexivity].
  - split; [discriminate | intros (p' & [=] & _)].
Qed.

Lemma widths2_lookup (T : list Area) (i : nat) (ws : list nat) :
  widths2 T !! i = Some ws <->
  exists p, T !! i = Some p /\ ws = widths (SubAreas p).
Proof.
  unfold widths2. rewrite list_lookup_fmap. destruct (T !! i) as [p|]; simpl.
  - split; [intros [= <-]; eauto | intros (p' & [= <-] & ->); reflexivity].
  - split; [discriminate | intros (p' & [=] & _)].
Qed.

Lemma widths_insert (T : list Area) (i : nat) (p : Area) :
  widths (<[i:=p]> T) = <[i:=length (SubAreas p)]> (widths T).
Proof. unfold widths. apply (list_fmap_insert (fun p => length (SubAreas p))). Qed.

Lemma widths2_insert (T : list Area) (i : nat) (p : Area) :
  widths2 (<[i:=p]> T) = <[i:=widths (SubAreas p)]> (widths2 T).
Proof. unfold widths2. apply (list_fmap_insert (fun p => widths (SubAreas p))). Qed.

(** Replacing a node by one with as many children keeps the widths. *)
Lemma widths_insert_same (T : list Area) (i : nat) (p p' : Area) :
  T !! i = Some p -> length (SubAreas p') = length (SubAreas p) ->
  widths (<[i:=p']> T) = widths T.
Proof.
  intros Hp Hlen. rewrite widths_insert, Hlen. apply list_insert_id.
  apply widths_lookup. eauto.
Qed.

Lemma widths2_insert_same (T : list Area) (i : nat) (p p' : Area) :
  T !! i = Some p -> widths (SubAreas p') = widths (SubAreas p) ->
  widths2 (<[i:=p']> T) = widths2 T.
Proof.
  intros Hp Hw. rewrite widths2_insert, Hw. apply list_insert_id.
  apply widths2_lookup. eauto.
Qed.

Lemma resolvesTo_true (get : string -> result string) (uppers : list flatNode)
  (r : flatNode) :
  resolvesTo get uppers r = true ->
  exists k, get (code r) = Ok k /\ k ∈ map code uppers.
Proof.
  unfold resolvesTo. destruct (get (code r)) as [k|e]; [|discriminate].
  intros H. apply bool_decide_eq_true in H. eauto.
Qed.

Lemma forallb_Forall {A : Type} (f : A -> bool) (P : A -> Prop) (l : list A) :
  (forall x, f x = true -> P x) -> forallb f l = true -> Forall P l.
Proof.
  intros Hf. induction l as [|x l IH]; simpl; [constructor|].
  intros H. apply andb_prop in H as [Hx Hl]. constructor; auto.
Qed.

(** ** The builder on records that resolve *)

Section BuilderTotal.

Variable spare : nat -> nat.
Variable po : gmap string nat.

(** The loop over the cities. *)
Lemma cityStep_total (n0 : nat) (uppers : list string) (pre : list flatNode)
  (T : list Area) (co : gmap string nat) (c : flatNode) :
  (forall k, k ∈ uppers -> exists i, po !! k = Some i /\ (i < n0)%nat) ->
  length T = n0 -> cityIndexed spare po co T ->
  (forall k, k ∈ map code pre -> is_Some (co !! k)) ->
  (exists pk, getProvince spare (code c) = Ok pk /\ pk ∈ uppers) ->
  exists st', cityStep spare po (T, co) c = Ok st'
    /\ length st'.1 = n0 /\ cityIndexed spare po st'.2 st'.1
    /\ (forall k, k ∈ map code (pre ++ [c]) -> is_Some (st'.2 !! k)).
Proof.
  intros Hpo Hlen Hidx Hdom (pk & Hpk & Hin).
  destruct (Hpo _ Hin) as (i & Hi & Hlt). rewrite <- Hlen in Hlt.
  destruct (lookup_lt_is_Some_2 T i Hlt) as [p Hp].
  pose proof (lookupOrder_Some _ _ _ Hi) as Hlook.
  eexists. split.
  { apply cityStep_Ok. exists pk, p. rewrite Hlook. eauto. }
  simpl. split; [rewrite length_insert; exact Hlen|]. split.
  - intros k j. rewrite lookup_insert. case_decide as Hk.
    + intros [= <-]. subst k. exists pk, (S (length (SubAreas p))).
      split; [exact Hpk|]. split; [|lia].
      rewrite Hlook, widths_insert, list_lookup_insert_eq
        by (unfold widths; rewrite length_fmap; exact Hlt).
      simpl. rewrite length_app. simpl. f_equal. lia.
    + intros Hj. destruct (Hidx _ _ Hj) as (pk0 & w0 & Hpk0 & Hw0 & Hlt0).
      rewrite widths_insert.
      destruct (decide (lookupOrder po pk0 = i)) as [Heq | Hne].
      * exists pk0, (S (length (SubAreas p))). split; [exact Hpk0|].
        rewrite Heq in Hw0 |- *. apply widths_lookup in Hw0 as (p' & Hp' & ->).
        assert (p' = p) as -> by congruence.
        rewrite list_lookup_insert_eq
          by (unfold widths; rewrite length_fmap; exact Hlt).
        simpl. rewrite length_app. simpl. split; [f_equal; lia | lia].
      * exists pk0, w0. split; [exact Hpk0|]. split; [|exact Hlt0].
        rewrite list_lookup_insert_ne by congruence. exact Hw0.
  - intros k. rewrite map_app, elem_of_app. simpl. rewrite list_elem_of_singleton.
    rewrite lookup_insert. case_decide as Hk; [eauto|].
    intros [Hk' | Hk']; [apply Hdom; exact Hk' | congruence].
Qed.

Lemma cityLoop_total (n0 : nat) (uppers : list string) (cs : list flatNode)
  (T : list Area) :
  (forall k, k ∈ uppers -> exists i, po !! k = Some i /\ (i < n0)%nat) ->
  length T = n0 ->
  Forall (fun c => exists pk, getProvince spare (code c) = Ok pk /\ pk ∈ uppers) cs ->
  exists st', forEach (cityStep spare po) cs (T, ∅) = Ok st'
    /\ cityIndexed spare po st'.2 st'.1
    /\ (forall k, k ∈ map code cs -> is_Some (st'.2 !! k)).
Proof.
  intros Hpo Hlen Hcs.
  destruct (forEach_total (cityStep spare po)
              (fun pre st => length st.1 = n0 /\ cityIndexed spare po st.2 st.1
                             /\ (forall k, k ∈ map code pre -> is_Some (st.2 !! k)))
              (fun c => exists pk, getProvince spare (code c) = Ok pk /\ pk ∈ uppers))
    with (l := cs) (pre := @nil flatNode) (st := (T, ∅ : gmap string nat))
    as (st' & Hrun & _ & Hidx & Hdom).
  - intros pre [T0 co0] c (HlenT & Hidx & Hdom) Hc. simpl in *.
    apply (cityStep_total n0 uppers pre); assumption.
  - simpl. split; [exact Hlen|]. split.
    + intros k j. rewrite lookup_empty. discriminate.
    + intros k Hk. inversion Hk.
  - exact Hcs.
  - exists st'. auto.
Qed.

(** The loop over the areas. *)
Variable co : gmap string nat.

Lemma areaStep_total (uppers : list string) (pre : list flatNode)
  (T : list Area) (ao : gmap string nat) (a : flatNode) :
  (forall k, k ∈ uppers -> is_Some (co !! k)) ->
  cityIndexed spare po co T -> areaIndexed spare po co ao T ->
  (forall k, k ∈ map code pre -> is_Some (ao !! k)) ->
  (exists ck, getCity spare (code a) = Ok ck /\ ck ∈ uppers) ->
  exists st', areaStep spare po co (T, ao) a = Ok st'
    /\ cityIndexed spare po co st'.1 /\ areaIndexed spare po co st'.2 st'.1
    /\ (forall k, k ∈ map code (pre ++ [a]) -> is_Some (st'.2 !! k)).
Proof.
  intros Hco Hcidx Haidx Hdom (ck & Hck & Hin).
  destruct (Hco _ Hin) as [j Hj].
  destruct (Hcidx _ _ Hj) as (pk & w & Hpk & Hw & Hjw).
  rewrite (getCity_getProvince _ _ _ Hck) in Hpk.
  apply widths_lookup in Hw as (p & Hp & ->).
  destruct (lookup_lt_is_Some_2 _ _ Hjw) as [c Hc].
  pose proof (lookupOrder_Some _ _ _ Hj) as Hlook.
  set (i := lookupOrder po pk) in *.
  set (c' := appendSub c (areaNode a)).
  set (p' := withSubAreas p (<[j:=c']> (SubAreas p))).
  assert (HT' : areaStep spare po co (T, ao) a
                = Ok (<[i:=p']> T, <[code a := length (SubAreas c)]> ao)).
  { apply areaStep_Ok. exists pk, ck, p, c. rewrite Hlook. auto. }
  eexists. split; [exact HT'|]. simpl.
  assert (Hi : (i < length T)%nat) by (apply (lookup_lt_Some _ _ _ Hp)).
  assert (Hwid : widths (<[i:=p']> T) = widths T).
  { apply (widths_insert_same _ _ p); [exact Hp|]. simpl. apply length_insert. }
  split; [|split].
  - intros k j0 Hk. rewrite Hwid. apply (Hcidx _ _ Hk).
  - intros k l. rewrite lookup_insert. case_decide as Hk.
    + intros [= <-]. subst k.
      exists pk, ck, (widths (SubAreas p')), (S (length (SubAreas c))).
      split; [exact Hpk|]. split; [exact Hck|]. split; [|split; [|lia]].
      * rewrite widths2_insert. apply list_lookup_insert_eq.
        unfold widths2. rewrite length_fmap. exact Hi.
      * rewrite Hlook. simpl. rewrite widths_insert.
        rewrite list_lookup_insert_eq
          by (unfold widths; rewrite length_fmap; exact Hjw).
        simpl. rewrite length_app. simpl. f_equal. lia.
    + intros Hl. destruct (Haidx _ _ Hl)
        as (pk0 & ck0 & ws0 & w0 & Hpk0 & Hck0 & Hws0 & Hw0 & Hlw0).
      rewrite widths2_insert.
      destruct (decide (lookupOrder po pk0 = i)) as [Heq | Hne].
      * rewrite Heq in Hws0.
        apply widths2_lookup in Hws0 as (p0 & Hp0 & ->).
        assert (p0 = p) as -> by congruence.
        exists pk0, ck0, (widths (SubAreas p')).
        destruct (decide (lookupOrder co ck0 = j)) as [Heqj | Hnej].
        -- exists (S (length (SubAreas c))). rewrite Heqj in Hw0.
           apply widths_lookup in Hw0 as (c0 & Hc0 & ->).
           assert (c0 = c) as -> by congruence.
           split; [exact Hpk0|]. split; [exact Hck0|]. split; [|split; [|lia]].
           ++ rewrite Heq. apply list_lookup_insert_eq. unfold widths2.
              rewrite length_fmap. exact Hi.
           ++ rewrite Heqj. simpl. rewrite widths_insert.
              rewrite list_lookup_insert_eq
                by (unfold widths; rewrite length_fmap; exact Hjw).
              simpl. rewrite length_app. simpl. f_equal. lia.
        -- exists w0. split; [exact Hpk0|]. split; [exact Hck0|].
           split; [|split; [|exact Hlw0]].
           ++ rewrite Heq. apply list_lookup_insert_eq. unfold widths2.
              rewrite length_fmap. exact Hi.
           ++ simpl. rewrite widths_insert.
              rewrite list_lookup_insert_ne by congruence. exact Hw0.
      * exists pk0, ck0, ws0, w0. split; [exact Hpk0|]. split; [exact Hck0|].
        split; [|split; assumption].
        rewrite list_lookup_insert_ne by congruence. exact Hws0.
  - intros k. rewrite map_app, elem_of_app. simpl. rewrite list_elem_of_singleton.
    rewrite lookup_insert. case_decide as Hk; [eauto|].
    intros [Hk' | Hk']; [apply Hdom; exact Hk' | congruence].
Qed.

Lemma areaLoop_total (uppers : list string) (xs : list flatNode) (T : list Area) :
  (forall k, k ∈ uppers -> is_Some (co !! k)) ->
  cityIndexed spare po co T ->
  Forall (fun a => exists ck, getCity spare (code a) = Ok ck /\ ck ∈ uppers) xs ->
  exists st', forEach (areaStep spare po co) xs (T, ∅) = Ok st'
    /\ areaIndexed spare po co st'.2 st'.1
    /\ (forall k, k ∈ map code xs -> is_Some (st'.2 !! k)).
Proof.
  intros Hco Hcidx Hxs.
  destruct (forEach_total (areaStep spare po co)
              (fun pre st => cityIndexed spare po co st.1
                             /\ areaIndexed spare po co st.2 st.1
                             /\ (forall k, k ∈ map code pre -> is_Some (st.2 !! k)))
              (fun a => exists ck, getCity spare (code a) = Ok ck /\ ck ∈ uppers))
    with (l := xs) (pre := @nil flatNode) (st := (T, ∅ : gmap string nat))
    as (st' & Hrun & _ & Hidx & Hdom).
  - intros pre [T0 ao0] a (Hc0 & Ha0 & Hdom) Ha. simpl in *.
    apply (areaStep_total uppers pre); assumption.
  - simpl. split; [exact Hcidx|]. split.
    + intros k j. rewrite lookup_empty. discriminate.
    + intros k Hk. inversion Hk.
  - exact Hxs.
  - exists st'. auto.
Qed.

(** The loop over the streets. *)
Variable ao : gmap string nat.

Lemma streetStep_total (uppers : list string) (T : list Area) (s : flatNode) :
  (forall k, k ∈ uppers -> is_Some (ao !! k)) ->
  areaIndexed spare po co ao T ->
  (exists ak, getArea spare (code s) = Ok ak /\ ak ∈ uppers) ->
  exists T', streetStep spare po co ao T s = Ok T'
    /\ areaIndexed spare po co ao T'.
Proof.
  intros Hao Haidx (ak & Hak & Hin).
  destruct (Hao _ Hin) as [l Hl].
  destruct (Haidx _ _ Hl) as (pk & ck & ws & w & Hpk & Hck & Hws & Hw & Hlw).
  rewrite (getArea_getProvince _ _ _ Hak) in Hpk.
  rewrite (getArea_getCity _ _ _ Hak) in Hck.
  apply widths2_lookup in Hws as (p & Hp & ->).
  apply widths_lookup in Hw as (c & Hc & ->).
  destruct (lookup_lt_is_Some_2 _ _ Hlw) as [a Ha].
  pose proof (lookupOrder_Some _ _ _ Hl) as Hlook.
  set (i := lookupOrder po pk) in *. set (j := lookupOrder co ck) in *.
  set (c' := withSubAreas c (<[l:=appendSub a (streetNode s)]> (SubAreas c))).
  set (p' := withSubAreas p (<[j:=c']> (SubAreas p))).
  assert (HT' : streetStep spare po co ao T s = Ok (<[i:=p']> T)).
  { apply streetStep_Ok. exists pk, ck, ak, p, c, a. rewrite Hlook. auto 10. }
  eexists. split; [exact HT'|].
  assert (Hwid : widths2 (<[i:=p']> T) = widths2 T).
  { apply (widths2_insert_same _ _ p); [exact Hp|]. simpl.
    apply (widths_insert_same _ _ c); [exact Hc|]. simpl. apply length_insert. }
  intros k l0 Hk. rewrite Hwid. apply (Haidx _ _ Hk).
Qed.

Lemma streetLoop_total (uppers : list string) (xs : list flatNode) (T : list Area) :
  (forall k, k ∈ uppers -> is_Some (ao !! k)) ->
  areaIndexed spare po co ao T ->
  Forall (fun s => exists ak, getArea spare (code s) = Ok ak /\ ak ∈ uppers) xs ->
  exists T', forEach (streetStep spare po co ao) xs T = Ok T'.
Proof.
  intros Hao Haidx Hxs.
  destruct (forEach_total (streetStep spare po co ao)
              (fun _ T0 => areaIndexed spare po co ao T0)
              (fun s => exists ak, getArea spare (code s) = Ok ak /\ ak ∈ uppers))
    with (l := xs) (pre := @nil flatNode) (st := T) as (T' & Hrun & _).
  - intros pre T0 s Ha0 Hs. apply (streetStep_total uppers); assumption.
  - exact Haidx.
  - exact Hxs.
  - exists T'. exact Hrun.
Qed.

End BuilderTotal.

(** On records that resolve, [buildTrees] returns a forest. *)
Lemma buildTrees_total (spare : nat -> nat) (d : dataset) :
  resolved spare d = true -> exists T, buildTrees spare d = Ok T.
Proof.
  unfold resolved. intros H.
  apply andb_prop in H as [H Hstreets]. apply andb_prop in H as [Hcities Hareas].
  apply (forallb_Forall _ _ _ (resolvesTo_true _ _)) in Hcities, Hareas, Hstreets.
  set (po := (afterProvinces d).2).
  destruct (cityLoop_total spare po (length (afterProvinces d).1)
              (map code (provinces d)) (cities d) (afterProvinces d).1)
    as ([T1 co] & Hrun1 & Hcidx & Hcdom); [|reflexivity|exact Hcities|].
  { intros k Hk. apply afterProvinces_order. exact Hk. }
  simpl in *.
  destruct (areaLoop_total spare po co (map code (cities d)) (areas d) T1)
    as ([T2 ao] & Hrun2 & Haidx & Hadom); [exact Hcdom|exact Hcidx|exact Hareas|].
  simpl in *.
  destruct (streetLoop_total spare po co ao (map code (areas d)) (streets d) T2)
    as (T3 & Hrun3); [exact Hadom|exact Haidx|exact Hstreets|].
  exists T3. unfold buildTrees, afterAreas, afterCities. fold po.
  rewrite Hrun1. simpl. rewrite Hrun2. simpl. exact Hrun3.
Qed.

(** ** The builder: statements *)

Lemma roots_ParentCode (T : list Area) (ps : list flatNode) :
  map flatOf T = map rootRecord ps ->
  Forall (fun p => ParentCode p = "0") T
  /\ map Code T = map code ps /\ map Name T = map name ps.
Proof.
  revert ps. induction T as [|t T IH]; intros [|p ps] H; try discriminate.
  - repeat split; constructor.
  - injection H as Hc Hn Hp HT. destruct (IH _ HT) as (H1 & H2 & H3).
    repeat split; [constructor; assumption | simpl; congruence..].
Qed.

Section BuilderStatements.

Variable spare : nat -> nat.

(** The levels of the forest [buildTrees] returns: the roots are the
    province records, the three levels below are the city, area and street
    records, and the fifth level is empty. *)
Lemma buildTrees_levels (d : dataset) (T : list Area) :
  buildTrees spare d = Ok T ->
  map flatOf T = map rootRecord (provinces d)
  /\ map flatOf (level 1 T) ≡ₚ cities d
  /\ map flatOf (level 2 T) ≡ₚ areas d
  /\ map flatOf (level 3 T) ≡ₚ streets d
  /\ level 4 T = [].
Proof.
  intros HT. destruct (buildTrees_Built _ _ _ HT) as [Hroots HB].
  destruct (HB 0%nat) as [_ P0], (HB 1%nat) as [_ P1], (HB 2%nat) as [_ P2],
    (HB 3%nat) as [_ P3].
  repeat split; try assumption.
  simpl inputs in P3. apply Permutation_nil_r in P3.
  destruct (level 4 T); [reflexivity | discriminate].
Qed.

(** C5. When every record resolves to a record of the level above,
    [buildTrees] returns a forest in which the roots are the provinces in
    the order of the province list and, at every level, the children of
    each node are records of that level's list in the order of the list,
    every record of the list being the child of one node. *)
Theorem buildTrees_order (d : dataset) :
  resolved spare d = true ->
  exists T, buildTrees spare d = Ok T
    /\ map flatOf T = map rootRecord (provinces d)
    /\ siblingsFollow (cities d) T
    /\ map flatOf (level 1 T) ≡ₚ cities d
    /\ siblingsFollow (areas d) (level 1 T)
    /\ map flatOf (level 2 T) ≡ₚ areas d
    /\ siblingsFollow (streets d) (level 2 T)
    /\ map flatOf (level 3 T) ≡ₚ streets d.
Proof.
  intros Hres. destruct (buildTrees_total _ _ Hres) as [T HT].
  exists T. split; [exact HT|].
  destruct (buildTrees_Built _ _ _ HT) as [Hroots HB].
  split; [exact Hroots|].
  destruct (HB 0%nat) as [H0 P0], (HB 1%nat) as [H1 P1], (HB 2%nat) as [H2 P2].
  repeat split; assumption.
Qed.

(** C10. In the forest [buildTrees] returns, every root has the parent code
    ["0"] and the code and name of its province record, whatever the
    [parent_code] of the record; the nodes one, two and three levels down
    carry the code, name and parent code of the city, area and street
    records, one node per record; there is nothing further down. *)
Theorem buildTrees_fields (d : dataset) (T : list Area) :
  buildTrees spare d = Ok T ->
  Forall (fun p => ParentCode p = "0") T
  /\ map Code T = map code (provinces d)
  /\ map Name T = map name (provinces d)
  /\ map flatOf (level 1 T) ≡ₚ cities d
  /\ map flatOf (level 2 T) ≡ₚ areas d
  /\ map flatOf (level 3 T) ≡ₚ streets d
  /\ level 4 T = [].
Proof.
  intros HT. destruct (buildTrees_levels _ _ HT) as (Hroots & P1 & P2 & P3 & H4).
  destruct (roots_ParentCode _ _ Hroots) as (R1 & R2 & R3).
  repeat split; assumption.
Qed.

(** C3 (amended). For a city, area or street whose resolved parent code has
    no entry in the table of the level above, the table gives position 0:
    the record is attached as the last child of the node at position 0
    (the first province; the first city of the province the record resolved
    to; the first area of the city it resolved to), and the step stops with
    the run-time panic "index out of range [0] with length 0" when there is
    no such node. A forest that [buildTrees] returns holds every city, area
    and street record, resolved or not. *)
Theorem unresolved_parent_defaults (po co ao : gmap string nat) :
  (forall T cityOrder c pk,
     getProvince spare (code c) = Ok pk -> po !! pk = None ->
     cityStep spare po (T, cityOrder) c =
     match T with
     | [] => Panic (IndexOutOfRange 0 0)
     | p :: T' => Ok (appendSub p (cityNode c) :: T',
                      <[code c := length (SubAreas p)]> cityOrder)
     end)
  /\ (forall T areaOrder a pk ck p,
     getProvince spare (code a) = Ok pk -> getCity spare (code a) = Ok ck ->
     co !! ck = None -> T !! lookupOrder po pk = Some p ->
     areaStep spare po co (T, areaOrder) a =
     match SubAreas p with
     | [] => Panic (IndexOutOfRange 0 0)
     | c :: cs =>
         Ok (<[lookupOrder po pk :=
                 withSubAreas p (appendSub c (areaNode a) :: cs)]> T,
             <[code a := length (SubAreas c)]> areaOrder)
     end)
  /\ (forall T s pk ck ak p c,
     getProvince spare (code s) = Ok pk -> getCity spare (code s) = Ok ck ->
     getArea spare (code s) = Ok ak -> ao !! ak = None ->
     T !! lookupOrder po pk = Some p ->
     SubAreas p !! lookupOrder co ck = Some c ->
     streetStep spare po co ao T s =
     match SubAreas c with
     | [] => Panic (IndexOutOfRange 0 0)
     | a :: aa =>
         Ok (<[lookupOrder po pk :=
                 withSubAreas p
                   (<[lookupOrder co ck :=
                        withSubAreas c (appendSub a (streetNode s) :: aa)]>
                      (SubAreas p))]> T)
     end)
  /\ (forall d T,
     buildTrees spare d = Ok T ->
     map flatOf (level 1 T) ≡ₚ cities d
     /\ map flatOf (level 2 T) ≡ₚ areas d
     /\ map flatOf (level 3 T) ≡ₚ streets d).
Proof.
  split; [|split; [|split]].
  - intros T cityOrder c pk Hpk Hnone.
    assert (Hz : lookupOrder po pk = 0%nat)
      by (unfold lookupOrder; rewrite Hnone; reflexivity).
    unfold cityStep. rewrite Hpk. simpl. rewrite Hz.
    destruct T as [|p T']; [reflexivity|]. simpl.
    rewrite length_app. simpl. do 3 f_equal. lia.
  - intros T areaOrder a pk ck p Hpk Hck Hnone Hp.
    assert (Hz : lookupOrder co ck = 0%nat)
      by (unfold lookupOrder; rewrite Hnone; reflexivity).
    unfold areaStep. rewrite Hpk, Hck. simpl.
    apply index_Ok in Hp. rewrite Hp. simpl. rewrite Hz.
    destruct (SubAreas p) as [|c cs]; [reflexivity|]. simpl.
    rewrite length_app. simpl. do 3 f_equal. lia.
  - intros T s pk ck ak p c Hpk Hck Hak Hnone Hp Hc.
    assert (Hz : lookupOrder ao ak = 0%nat)
      by (unfold lookupOrder; rewrite Hnone; reflexivity).
    unfold streetStep. rewrite Hpk, Hck, Hak. simpl.
    apply index_Ok in Hp, Hc. rewrite Hp. simpl. rewrite Hc. simpl. rewrite Hz.
    destruct (SubAreas c) as [|a aa]; reflexivity.
  - intros d T HT. destruct (buildTrees_Built _ _ _ HT) as [_ HB].
    destruct (HB 0%nat) as [_ P0], (HB 1%nat) as [_ P1], (HB 2%nat) as [_ P2].
    repeat split; assumption.
Qed.


End BuilderStatements.

(** ** The size of the forest of the builder *)

Lemma count_below (l : list Area) : count l = (length l + count (below l))%nat.
Proof.
  induction l as [|t l IH]; [reflexivity|].
  rewrite count_cons, size_eq, below_cons, count_app, IH. simpl. lia.
Qed.

Lemma count_levels (k : nat) (l : list Area) :
  level k l = [] ->
  count l = list_sum (map (fun j => length (level j l)) (seq 0 k)).
Proof.
  revert l. induction k as [|k IH]; intros l Hl.
  - simpl in Hl. subst l. reflexivity.
  - rewrite count_below, (IH (below l)) by exact Hl.
    simpl. f_equal. rewrite <- seq_shift, map_map. reflexivity.
Qed.

Lemma buildTrees_count (spare : nat -> nat) (d : dataset) (T : list Area) :
  buildTrees spare d = Ok T -> count T = records d.
Proof.
  intros HT.
  destruct (buildTrees_levels _ _ _ HT) as (Hc & P1 & P2 & P3 & H4).
  rewrite (count_levels 4 T H4). simpl.
  apply (f_equal (@length _)) in Hc. rewrite !length_map in Hc.
  apply Permutation_length in P1, P2, P3. rewrite length_map in P1, P2, P3.
  simpl in P1, P2, P3. unfold records. lia.
Qed.

(** C1 (amended). After [assignKeys] on a forest with [2 * count] no more
    than the largest int32, and so on the forest [buildTrees] returns for a
    dataset of fewer than [2 ^ 30] records, every node [N] has
    [Left N < Right N]; its first child starts after [Left N], each child
    starts after the child before it ends, its last child ends before
    [Right N]; and every descendant [D] has
    [Left N < Left D < Right D < Right N]. *)
Theorem assignKeys_nestedSet :
  (forall trees : list Area,
     2 * Z.of_nat (count trees) <= maxInt32 ->
     forall N, N ∈ forestNodes (assignKeys trees) -> nestedSet N)
  /\ (forall (spare : nat -> nat) (d : dataset) (T : list Area),
     buildTrees spare d = Ok T -> Z.of_nat (records d) < 2 ^ 30 ->
     forall N, N ∈ forestNodes (assignKeys T) -> nestedSet N).
Proof.
  assert (Hgen : forall trees : list Area,
             2 * Z.of_nat (count trees) <= maxInt32 ->
             forall N, N ∈ forestNodes (assignKeys trees) -> nestedSet N).
  { intros trees Hhi N HN.
    destruct (chained_nodes _ _ _ _ (assignKeys_chained _ Hhi) HN)
      as (s' & Hk & _).
    apply (keyed_nestedSet _ _ Hk). }
  split; [exact Hgen|].
  intros spare d T HT Hrec. apply Hgen.
  rewrite (buildTrees_count _ _ _ HT). unfold maxInt32. lia.
Qed.

(** ** Statement emitter *)

Lemma append_cons (a : ascii) (s t : string) :
  String a s +:+ t = String a (s +:+ t).
Proof. reflexivity. Qed.

Lemma append_assoc (s1 s2 s3 : string) : (s1 +:+ s2) +:+ s3 = s1 +:+ (s2 +:+ s3).
Proof.
  induction s1 as [|a s1 IH]; [reflexivity|].
  rewrite !append_cons, IH. reflexivity.
Qed.

Lemma rows_eq (t : Area) (depth : Z) :
  rows depth t = rowOf depth t :: flat_map (rows (depth + 1)) (SubAreas t).
Proof. destruct t; reflexivity. Qed.

(** [genSQL] writes the statement of the node, then the subtrees of its
    children one level down. *)
Lemma genSQL_eq (t : Area) (depth : Z) :
  genSQL t depth =
  statement (rowOf depth t)
  :: flat_map (fun sub => genSQL sub (incr32 depth)) (SubAreas t).
Proof.
  destruct t as [c n pc l r subs]. simpl. f_equal.
  unfold statement. simpl. rewrite !append_assoc. reflexivity.
Qed.

Lemma genSQLFile_eq (trees : list Area) :
  genSQLFile trees = flat_map (fun p => genSQL p 1) trees.
Proof. induction trees as [|p trees IH]; simpl; congruence. Qed.

Lemma level_cons_nil (k : nat) (t : Area) (l : list Area) :
  level (S k) (t :: l) = [] -> level k (SubAreas t) = [] /\ level (S k) l = [].
Proof. rewrite level_cons. apply app_eq_nil. Qed.

(** On a forest of at most [k] levels, with room for [k] more in an int32,
    the statements written are those of the rows. *)
Lemma genSQL_rows (k : nat) :
  forall (l : list Area) (depth : Z),
    level k l = [] -> minInt32 <= depth -> depth + Z.of_nat k <= maxInt32 ->
    flat_map (fun p => genSQL p depth) l
    = map statement (flat_map (rows depth) l).
Proof.
  induction k as [|k IH]; intros l depth Hl Hlo Hhi.
  - simpl in Hl. subst l. reflexivity.
  - induction l as [|t l IHl]; [reflexivity|].
    apply level_cons_nil in Hl as [Ht Hl]. simpl.
    rewrite genSQL_eq, rows_eq, map_app, IHl by exact Hl. simpl.
    assert (Hd : incr32 depth = depth + 1).
    { apply wrap32_small. unfold minInt32, maxInt32 in *. lia. }
    rewrite Hd, IH; [reflexivity | exact Ht | |];
      unfold minInt32, maxInt32 in *; lia.
Qed.

(** The rows are the nodes in pre-order, each with a depth. *)
Lemma rows_nodes_from (l : list Area) :
  Forall (fun t => forall d,
            Forall2 (fun r a => exists k, r = rowOf k a) (rows d t) (nodes t)) l ->
  forall d, Forall2 (fun r a => exists k, r = rowOf k a)
              (flat_map (rows d) l) (forestNodes l).
Proof.
  induction 1 as [|t l Ht _ IH]; intros d; [constructor|].
  rewrite forestNodes_cons. simpl. apply Forall2_app; [apply Ht | apply IH].
Qed.

Lemma rows_nodes (t : Area) (d : Z) :
  Forall2 (fun r a => exists k, r = rowOf k a) (rows d t) (nodes t).
Proof.
  revert d. induction t as [c n pc l r subs IH] using Area_ind. intros d.
  rewrite rows_eq, nodes_eq. constructor; [eauto|].
  apply (rows_nodes_from _ IH).
Qed.

Lemma forestRows_nodes (l : list Area) :
  Forall2 (fun r a => exists k, r = rowOf k a) (forestRows l) (forestNodes l).
Proof.
  apply rows_nodes_from, Forall_forall. intros t _ d. apply rows_nodes.
Qed.

(** No row of a tree is above the depth of its root. *)
Lemma rows_depth_from (l : list Area) :
  Forall (fun t => forall d, Forall (fun r => d <= rDepth r) (rows d t)) l ->
  forall d, Forall (fun r => d <= rDepth r) (flat_map (rows d) l).
Proof.
  induction 1 as [|t l Ht _ IH]; intros d; [constructor|].
  simpl. apply Forall_app. split; [apply Ht | apply IH].
Qed.

Lemma rows_depth (t : Area) (d : Z) : Forall (fun r => d <= rDepth r) (rows d t).
Proof.
  revert d. induction t as [c n pc l r subs IH] using Area_ind. intros d.
  rewrite rows_eq. constructor; [simpl; lia|].
  eapply Forall_impl; [apply (rows_depth_from _ IH (d + 1))|].
  intros r' Hr. simpl in Hr. lia.
Qed.

Lemma atDepth_app (k : Z) (l1 l2 : list row) :
  atDepth k (l1 ++ l2) = atDepth k l1 ++ atDepth k l2.
Proof. apply filter_app. Qed.

Lemma atDepth_cons_eq (k : Z) (r : row) (l : list row) :
  rDepth r = k -> atDepth k (r :: l) = r :: atDepth k l.
Proof. intros H. unfold atDepth. apply filter_cons_True. exact H. Qed.

Lemma atDepth_cons_ne (k : Z) (r : row) (l : list row) :
  rDepth r <> k -> atDepth k (r :: l) = atDepth k l.
Proof. intros H. unfold atDepth. apply filter_cons_False. exact H. Qed.

Lemma atDepth_above (d k : Z) (l : list Area) :
  k < d -> atDepth k (flat_map (rows d) l) = [].
Proof.
  intros Hk.
  assert (H : Forall (fun r => d <= rDepth r) (flat_map (rows d) l)).
  { apply rows_depth_from, Forall_forall. intros t _ d'. apply rows_depth. }
  induction H as [|r rs Hr _ IH]; [reflexivity|].
  rewrite atDepth_cons_ne by lia. exact IH.
Qed.

(** The rows of depth [d + j] are the nodes [j] levels down. *)
Lemma atDepth_level (j : nat) :
  forall (l : list Area) (d : Z),
    atDepth (d + Z.of_nat j) (flat_map (rows d) l)
    = map (rowOf (d + Z.of_nat j)) (level j l).
Proof.
  induction j as [|j IH]; intros l d.
  - replace (d + Z.of_nat 0) with d by lia. simpl level.
    induction l as [|t l IHl]; [reflexivity|].
    simpl. rewrite rows_eq, atDepth_app, atDepth_cons_eq by reflexivity.
    rewrite (atDepth_above (d + 1) d) by lia. simpl. rewrite IHl. reflexivity.
  - induction l as [|t l IHl]; [simpl; rewrite level_nil; reflexivity|].
    rewrite level_cons, map_app. simpl flat_map.
    rewrite rows_eq, atDepth_app, atDepth_cons_ne by (simpl; lia).
    rewrite IHl. f_equal.
    replace (d + Z.of_nat (S j)) with (d + 1 + Z.of_nat j) by lia.
    apply IH.
Qed.

(** ** Indexing leaves the records in place *)

Lemma SubAreas_unkey (t : Area) : SubAreas (unkey t) = map unkey (SubAreas t).
Proof. destruct t; reflexivity. Qed.

Lemma flatOf_unkey (t : Area) : flatOf (unkey t) = flatOf t.
Proof. destruct t; reflexivity. Qed.

Lemma below_unkey (l : list Area) : below (map unkey l) = map unkey (below l).
Proof.
  induction l as [|t l IH]; [reflexivity|].
  change (map unkey (t :: l)) with (unkey t :: map unkey l).
  rewrite !below_cons, map_app, SubAreas_unkey, IH. reflexivity.
Qed.

Lemma level_unkey (k : nat) (l : list Area) :
  level k (map unkey l) = map unkey (level k l).
Proof.
  revert l. induction k as [|k IH]; intros l; [reflexivity|].
  change (level (S k) (map unkey l)) with (level k (below (map unkey l))).
  rewrite below_unkey, IH. reflexivity.
Qed.

Lemma level_flat_unkey (k : nat) (l l' : list Area) :
  map unkey l' = map unkey l ->
  map flatOf (level k l') = map flatOf (level k l).
Proof.
  intros H.
  assert (Hk : forall m, map flatOf (level k m) = map flatOf (level k (map unkey m))).
  { intros m. rewrite level_unkey, map_map. apply map_ext.
    intros t. rewrite flatOf_unkey. reflexivity. }
  rewrite (Hk l'), (Hk l), H. reflexivity.
Qed.

Lemma assignKeys_level_flat (k : nat) (T : list Area) :
  map flatOf (level k (assignKeys T)) = map flatOf (level k T).
Proof. apply level_flat_unkey. unfold assignKeys. apply indexTrees_unkey. Qed.

Lemma rowFlat_rowOf (d : Z) (l : list Area) :
  map rowFlat (map (rowOf d) l) = map flatOf l.
Proof. rewrite map_map. reflexivity. Qed.

Lemma map_nil_inv {A B : Type} (f : A -> B) (l : list A) : map f l = [] -> l = [].
Proof. destruct l; [reflexivity | discriminate]. Qed.

(** The rows of a forest without nodes [k] levels down have depth at most [k]. *)
Lemma rows_depth_le (k : nat) :
  forall (l : list Area) (d : Z),
    level k l = [] ->
    Forall (fun r => rDepth r < d + Z.of_nat k) (flat_map (rows d) l).
Proof.
  induction k as [|k IH]; intros l d Hl.
  - simpl in Hl. subst l. constructor.
  - induction l as [|t l IHl]; [constructor|].
    apply level_cons_nil in Hl as [Ht Hl]. simpl. rewrite rows_eq.
    apply Forall_app. split; [|apply IHl; exact Hl].
    constructor; [simpl; lia|].
    eapply Forall_impl; [apply (IH _ (d + 1) Ht)|]. intros r Hr. simpl in Hr. lia.
Qed.

Lemma rows_Left (rs : list row) (ns : list Area) :
  Forall2 (fun r a => exists k, r = rowOf k a) rs ns ->
  map rLeft rs = map Left ns.
Proof.
  induction 1 as [|r a rs ns (k & ->) _ IH]; [reflexivity|].
  simpl. rewrite IH. reflexivity.
Qed.

(** ** The fields in the statements *)

Lemma readInt_itoa (z : Z) : readInt (itoa z) = Some z.
Proof.
  unfold readInt, itoa. rewrite NilZero.isi.
  - simpl. f_equal. apply DecimalZ.of_to.
  - destruct z as [|p|p]; try discriminate. simpl. intros [= Hp].
    exact (DecimalPos.Unsigned.to_uint_nonnil p Hp).
  - destruct z as [|p|p]; try discriminate. simpl. intros [= Hp].
    exact (DecimalPos.Unsigned.to_uint_nonnil p Hp).
Qed.

Lemma statement_carries (r : row) : carries (statement r) r.
Proof.
  exists (itoa (rDepth r)), (itoa (rLeft r)), (itoa (rRight r)).
  split; [reflexivity|]. rewrite !readInt_itoa. auto.
Qed.

Lemma statements_carry (rs : list row) : Forall2 carries (map statement rs) rs.
Proof.
  induction rs as [|r rs IH]; constructor; [apply statement_carries | exact IH].
Qed.

(** ** The keys along the statements *)

Lemma length_rows_from (l : list Area) :
  Forall (fun t => forall d, length (rows d t) = size t) l ->
  forall d, length (flat_map (rows d) l) = count l.
Proof.
  induction 1 as [|t l Ht _ IH]; intros d; [reflexivity|].
  simpl. rewrite length_app, Ht, IH, count_cons. reflexivity.
Qed.

Lemma length_rows (t : Area) (d : Z) : length (rows d t) = size t.
Proof.
  revert d. induction t as [c n pc l r subs IH] using Area_ind. intros d.
  rewrite rows_eq, size_eq. simpl. f_equal. apply (length_rows_from _ IH).
Qed.

(** The [Left] of the row at position [j] of an indexed forest is the
    counter at that position: two steps per node before it, less one for
    each ancestor not yet left. *)
Lemma rows_Left_counter_from (l : list Area) :
  Forall (fun t => forall s d,
            map rLeft (rows d (indexTree t s).1)
            = imap (fun j r => wrap32 (s + 1 + d + 2 * Z.of_nat j - rDepth r))
                (rows d (indexTree t s).1)) l ->
  forall s d,
    map rLeft (flat_map (rows d) (indexTrees l s).1)
    = imap (fun j r => wrap32 (s + 1 + d + 2 * Z.of_nat j - rDepth r))
        (flat_map (rows d) (indexTrees l s).1).
Proof.
  induction 1 as [|t l Ht _ IH]; intros s d; [reflexivity|].
  rewrite indexTrees_cons. cbn [fst flat_map].
  rewrite map_app, imap_app, Ht, IH. f_equal.
  apply imap_ext. intros j r _. cbn beta.
  rewrite length_rows, size_indexTree, indexTree_counter.
  replace (wrap32 (s + 2 * Z.of_nat (size t)) + 1 + d + 2 * Z.of_nat j
           - rDepth r)
    with (wrap32 (s + 2 * Z.of_nat (size t))
          + (1 + d + 2 * Z.of_nat j - rDepth r)) by lia.
  rewrite wrap32_add. f_equal. lia.
Qed.

Lemma rows_Left_counter_tree (t : Area) (s d : Z) :
  map rLeft (rows d (indexTree t s).1)
  = imap (fun j r => wrap32 (s + 1 + d + 2 * Z.of_nat j - rDepth r))
      (rows d (indexTree t s).1).
Proof.
  revert s d. induction t as [c n pc l r subs IH] using Area_ind. intros s d.
  rewrite indexTree_eq. cbn [fst]. rewrite rows_eq. cbn [SubAreas].
  cbn [map imap]. f_equal.
  - unfold rowOf, incr32. cbn [rLeft rDepth Left]. f_equal. lia.
  - rewrite (rows_Left_counter_from _ IH). apply imap_ext. intros j r' _.
    unfold compose, incr32. cbn beta.
    replace (wrap32 (s + 1) + 1 + (d + 1) + 2 * Z.of_nat j - rDepth r')
      with (wrap32 (s + 1) + (1 + (d + 1) + 2 * Z.of_nat j - rDepth r'))
      by lia.
    rewrite wrap32_add. f_equal. lia.
Qed.

Lemma forestRows_Left_counter (T : list Area) :
  map rLeft (forestRows (assignKeys T))
  = imap (fun i r => wrap32 (counterAt i r)) (forestRows (assignKeys T)).
Proof.
  unfold forestRows, assignKeys.
  rewrite (rows_Left_counter_from T)
    by (apply Forall_forall; intros t _ s d; apply rows_Left_counter_tree).
  apply imap_ext. intros i r _. unfold counterAt. f_equal. lia.
Qed.

Lemma StronglySorted_app_between {A : Type} (R : relation A) (l1 l2 : list A) :
  StronglySorted R l1 -> StronglySorted R l2 ->
  (forall x y, x ∈ l1 -> y ∈ l2 -> R x y) ->
  StronglySorted R (l1 ++ l2).
Proof.
  induction 1 as [|x l1 Hs IH Hx]; intros H2 Hb; [exact H2|].
  simpl. constructor.
  - apply IH; [exact H2|]. intros a b Ha Hb'. apply Hb; [|exact Hb'].
    apply elem_of_cons. auto.
  - apply Forall_app. split; [exact Hx|]. apply Forall_forall.
    intros y Hy. apply Hb; [apply elem_of_cons; auto | exact Hy].
Qed.

(** The unbounded counter increases along the rows of any forest. *)
Lemma rows_counter_sorted_from (l : list Area) :
  Forall (fun t => forall d i0,
            StronglySorted Z.lt
              (imap (fun j r => 2 * (i0 + Z.of_nat j) - rDepth r) (rows d t))
            /\ Forall (fun v => 2 * i0 - d <= v
                                < 2 * (i0 + Z.of_nat (size t)) - d)
                 (imap (fun j r => 2 * (i0 + Z.of_nat j) - rDepth r)
                    (rows d t))) l ->
  forall d i0,
    StronglySorted Z.lt
      (imap (fun j r => 2 * (i0 + Z.of_nat j) - rDepth r) (flat_map (rows d) l))
    /\ Forall (fun v => 2 * i0 - d <= v < 2 * (i0 + Z.of_nat (count l)) - d)
         (imap (fun j r => 2 * (i0 + Z.of_nat j) - rDepth r)
            (flat_map (rows d) l)).
Proof.
  induction 1 as [|t l Ht _ IH]; intros d i0.
  - split; constructor.
  - cbn [flat_map]. rewrite imap_app, length_rows, count_cons.
    destruct (Ht d i0) as [Hs1 Hb1].
    destruct (IH d (i0 + Z.of_nat (size t))) as [Hs2 Hb2].
    assert (E : imap (fun n r => 2 * (i0 + Z.of_nat (size t + n)) - rDepth r)
                  (flat_map (rows d) l)
                = imap (fun j r => 2 * (i0 + Z.of_nat (size t) + Z.of_nat j)
                                   - rDepth r) (flat_map (rows d) l)).
    { apply imap_ext. intros j r _. cbn beta. lia. }
    rewrite E. rewrite Forall_forall in Hb1, Hb2. split.
    + apply StronglySorted_app_between; [exact Hs1 | exact Hs2|].
      intros x y Hx Hy. specialize (Hb1 x Hx). specialize (Hb2 y Hy). lia.
    + apply Forall_app. split; apply Forall_forall; intros v Hv.
      * specialize (Hb1 v Hv). lia.
      * specialize (Hb2 v Hv). lia.
Qed.

Lemma rows_counter_sorted_tree (t : Area) (d i0 : Z) :
  StronglySorted Z.lt
    (imap (fun j r => 2 * (i0 + Z.of_nat j) - rDepth r) (rows d t))
  /\ Forall (fun v => 2 * i0 - d <= v < 2 * (i0 + Z.of_nat (size t)) - d)
       (imap (fun j r => 2 * (i0 + Z.of_nat j) - rDepth r) (rows d t)).
Proof.
  revert d i0. induction t as [c n pc l r subs IH] using Area_ind. intros d i0.
  rewrite rows_eq, size_eq. cbn [SubAreas imap].
  destruct (rows_counter_sorted_from _ IH (d + 1) (i0 + 1)) as [Hs Hb].
  assert (E : imap ((fun j r0 => 2 * (i0 + Z.of_nat j) - rDepth r0) ∘ S)
                (flat_map (rows (d + 1)) subs)
              = imap (fun j r0 => 2 * (i0 + 1 + Z.of_nat j) - rDepth r0)
                  (flat_map (rows (d + 1)) subs)).
  { apply imap_ext. intros j r0 _. unfold compose. cbn beta. lia. }
  rewrite E. rewrite Forall_forall in Hb. cbn [rowOf rDepth]. split.
  - constructor; [exact Hs|]. apply Forall_forall. intros v Hv.
    specialize (Hb v Hv). lia.
  - constructor; [lia|]. apply Forall_forall. intros v Hv.
    specialize (Hb v Hv). lia.
Qed.

Lemma forestRows_counter_sorted (l : list Area) :
  StronglySorted Z.lt (imap counterAt (forestRows l)).
Proof.
  destruct (rows_counter_sorted_from l) with (d := 1) (i0 := 1) as [Hs _].
  { apply Forall_forall. intros t _ d i0. apply rows_counter_sorted_tree. }
  unfold forestRows.
  replace (imap counterAt (flat_map (rows 1) l))
    with (imap (fun j r => 2 * (1 + Z.of_nat j) - rDepth r) (flat_map (rows 1) l));
    [exact Hs|].
  apply imap_ext. intros i r _. unfold counterAt. lia.
Qed.

Section EmitterStatements.

Variable spare : nat -> nat.

(** C7. On the indexed forest of [buildTrees], [genSQLFile] writes one
    statement per node, in pre-order (a node, then the subtrees of its
    children); each statement carries the six fields of its row, the code,
    the name and the parent code as they are, the depth and the two keys as
    decimal numerals that read as these numbers; the rows of depth 1 are
    the provinces in their order, those of depth 2, 3 and 4 the cities,
    areas and streets, and no row has another depth. The statements are in
    the order in which the indexer numbered the nodes, whatever the size of
    the forest: the row at position [i] carries as [Left] the value, as an
    int32, that the counter had when the indexer entered the node number [i]
    of its traversal, and these values of the counter increase along the
    statements. *)
Theorem genSQLFile_rows (d : dataset) (T : list Area) :
  buildTrees spare d = Ok T ->
  let F := assignKeys T in
  genSQLFile F = map statement (forestRows F)
  /\ Forall2 carries (genSQLFile F) (forestRows F)
  /\ Forall2 (fun r a => exists k, r = rowOf k a) (forestRows F) (forestNodes F)
  /\ length (genSQLFile F) = count T
  /\ atDepth 1 (forestRows F) = map (rowOf 1) F
  /\ map rowFlat (atDepth 1 (forestRows F)) = map rootRecord (provinces d)
  /\ map rowFlat (atDepth 2 (forestRows F)) ≡ₚ cities d
  /\ map rowFlat (atDepth 3 (forestRows F)) ≡ₚ areas d
  /\ map rowFlat (atDepth 4 (forestRows F)) ≡ₚ streets d
  /\ Forall (fun r => 1 <= rDepth r <= 4) (forestRows F)
  /\ map rLeft (forestRows F)
     = imap (fun i r => wrap32 (counterAt i r)) (forestRows F)
  /\ StronglySorted Z.lt (imap counterAt (forestRows F)).
Proof.
  intros HT F.
  destruct (buildTrees_levels _ _ _ HT) as (_ & P1 & P2 & P3 & H4).
  destruct (buildTrees_Built _ _ _ HT) as [Hroots _].
  assert (H4F : level 4 F = []).
  { apply (map_nil_inv flatOf). unfold F. rewrite assignKeys_level_flat, H4.
    reflexivity. }
  assert (Hgen : genSQLFile F = map statement (forestRows F)).
  { rewrite genSQLFile_eq. apply (genSQL_rows 4); [exact H4F|..];
      unfold minInt32, maxInt32; lia. }
  pose proof (forestRows_nodes F) as Hnodes.
  split; [exact Hgen|]. split; [rewrite Hgen; apply statements_carry|].
  split; [exact Hnodes|]. split.
  { rewrite Hgen, length_map, (Forall2_length _ _ _ Hnodes).
    unfold F, assignKeys. apply count_indexTrees. }
  unfold forestRows.
  pose proof (atDepth_level 0 F 1) as E1. pose proof (atDepth_level 1 F 1) as E2.
  pose proof (atDepth_level 2 F 1) as E3. pose proof (atDepth_level 3 F 1) as E4.
  change (1 + Z.of_nat 0) with 1 in E1. change (1 + Z.of_nat 1) with 2 in E2.
  change (1 + Z.of_nat 2) with 3 in E3. change (1 + Z.of_nat 3) with 4 in E4.
  rewrite E1, E2, E3, E4, !rowFlat_rowOf.
  unfold F. rewrite !assignKeys_level_flat.
  split; [reflexivity|]. split; [exact Hroots|].
  split; [exact P1|]. split; [exact P2|]. split; [exact P3|].
  pose proof (rows_depth_le 4 _ 1 H4F) as Hle.
  assert (Hge : Forall (fun r => 1 <= rDepth r) (flat_map (rows 1) F)).
  { apply rows_depth_from, Forall_forall. intros t _ d'. apply rows_depth. }
  split.
  { rewrite Forall_forall in Hle, Hge |- *. intros r Hr.
    specialize (Hle r Hr). specialize (Hge r Hr). simpl in Hle. lia. }
  split; [apply (forestRows_Left_counter T) | apply forestRows_counter_sorted].
Qed.

(** Below [2 ^ 30] records the counter does not wrap, and the [Left] keys
    themselves increase along the statements. *)
Lemma genSQLFile_lefts_increase (d : dataset) (T : list Area) :
  buildTrees spare d = Ok T -> Z.of_nat (records d) < 2 ^ 30 ->
  StronglySorted Z.lt (map rLeft (forestRows (assignKeys T))).
Proof.
  intros HT Hrec. rewrite (rows_Left _ _ (forestRows_nodes (assignKeys T))).
  apply (chained_lefts_sorted _ 0 (2 * Z.of_nat (count T))).
  apply assignKeys_chained. rewrite (buildTrees_count _ _ _ HT).
  unfold maxInt32. lia.
Qed.

(** C4. On the example (one province ["11"] A, one city ["1101"] B, one
    area ["110101"] C, one street ["1101010001"] D), the records are
    written in the order A, B, C, D with (left, right, depth) =
    (1, 8, 1), (2, 7, 2), (3, 6, 3), (4, 5, 4). *)
Theorem oneEach_rows :
  (do T <- buildTrees spare oneEach; Ok (forestRows (assignKeys T)))
  = Ok [mkRow "11" "A" "0" 1 1 8;
        mkRow "1101" "B" "11" 2 2 7;
        mkRow "110101" "C" "1101" 3 3 6;
        mkRow "1101010001" "D" "110101" 4 4 5]
  /\ main spare oneEach
     = Ok (map statement
             [mkRow "11" "A" "0" 1 1 8;
              mkRow "1101" "B" "11" 2 2 7;
              mkRow "110101" "C" "1101" 3 3 6;
              mkRow "1101010001" "D" "110101" 4 4 5])
  /\ statement (mkRow "11" "A" "0" 1 1 8)
     = "INSERT INTO nested(id, node, pid, depth, lft, rgt) VALUES(11, 'A', 0, 1, 1, 8);"
       +:+ newline.
Proof. repeat split; vm_compute; reflexivity. Qed.

End EmitterStatements.

(** * The statements at concrete inputs *)

(** ** Where the int32 counter wraps *)

Lemma map_replicate {A B : Type} (f : A -> B) (n : nat) (x : A) :
  map f (replicate n x) = replicate n (f x).
Proof. induction n as [|n IH]; simpl; congruence. Qed.

Lemma count_replicate (n : nat) (t : Area) :
  SubAreas t = [] -> count (replicate n t) = n.
Proof.
  intros Ht. induction n as [|n IH]; [reflexivity|].
  simpl. rewrite count_cons, size_eq, Ht, IH. reflexivity.
Qed.

Lemma buildTrees_provinces (spare : nat -> nat) (ps : list flatNode) :
  buildTrees spare (mkDataset ps [] [] []) = Ok (map provinceNode ps).
Proof.
  unfold buildTrees, afterAreas, afterCities. simpl.
  pose proof (afterProvinces_trees (mkDataset ps [] [] [])) as H. simpl in H.
  rewrite H. reflexivity.
Qed.

(** The last of [n + 1] roots without children, [2 * n + 1] being the
    largest int32: its [Right] is the smallest int32. *)
Lemma last_root_wraps (n : nat) :
  2 * Z.of_nat n + 1 = maxInt32 ->
  last (assignKeys (replicate (S n) leaf))
  = Some (mkArea "110000" "A" "0" 2147483647 (-2147483648) []).
Proof.
  intros Hn. rewrite replicate_S_end. unfold assignKeys.
  rewrite indexTrees_app. cbn [fst]. rewrite indexTrees_cons. cbn [fst indexTrees].
  rewrite last_snoc.
  rewrite indexTrees_counter by (unfold minInt32, maxInt32; lia).
  rewrite count_replicate by reflexivity.
  replace (0 + 2 * Z.of_nat n) with 2147483646 by (unfold maxInt32 in Hn; lia).
  reflexivity.
Qed.

Lemma manyLeaves_last :
  last (assignKeys manyLeaves)
  = Some (mkArea "110000" "A" "0" 2147483647 (-2147483648) []).
Proof.
  unfold manyLeaves.
  replace (Z.to_nat (2 ^ 30)) with (S (Z.to_nat 1073741823)) by lia.
  apply last_root_wraps. unfold maxInt32. lia.
Qed.

Lemma manyProvinces_forest : buildTrees inPlace manyProvinces = Ok manyLeaves.
Proof.
  unfold manyProvinces, manyLeaves. rewrite buildTrees_provinces.
  rewrite map_replicate. reflexivity.
Qed.

Lemma root_in_forestNodes (N : Area) (l : list Area) : N ∈ l -> N ∈ forestNodes l.
Proof.
  intros HN. apply elem_of_forestNodes. exists N. split; [exact HN|].
  rewrite nodes_eq. apply list_elem_of_here.
Qed.

Lemma Right_in_allKeys (N : Area) (l : list Area) : N ∈ l -> Right N ∈ allKeys l.
Proof.
  intros HN. apply root_in_forestNodes in HN.
  unfold allKeys. apply elem_of_app. right.
  apply list_elem_of_In, in_map, list_elem_of_In. exact HN.
Qed.

(** C1, counterexample: the forest [buildTrees] returns for [2 ^ 30]
    provinces has, after [assignKeys], a node whose [Right] is below its
    [Left]. *)
Lemma overflow_breaks_nesting :
  buildTrees inPlace manyProvinces = Ok manyLeaves
  /\ exists N, N ∈ forestNodes (assignKeys manyLeaves)
               /\ Left N = 2147483647 /\ Right N = -2147483648
               /\ Right N < Left N.
Proof.
  split; [exact manyProvinces_forest|].
  exists (mkArea "110000" "A" "0" 2147483647 (-2147483648) []).
  split; [|repeat split].
  apply root_in_forestNodes, last_Some_elem_of, manyLeaves_last.
Qed.

(** C2, counterexample: on [2 ^ 30] roots the keys are not [1 .. 2 ^ 31]:
    the smallest int32 is one of them. *)
Lemma overflow_breaks_range :
  Z.of_nat (count manyLeaves) = 2 ^ 30
  /\ -2147483648 ∈ allKeys (assignKeys manyLeaves)
  /\ -2147483648 ∉ seqZ 1 (2 * Z.of_nat (count manyLeaves)).
Proof.
  assert (Hcount : Z.of_nat (count manyLeaves) = 2 ^ 30).
  { unfold manyLeaves. rewrite count_replicate by reflexivity. lia. }
  split; [exact Hcount|]. split.
  - apply (Right_in_allKeys (mkArea "110000" "A" "0" 2147483647 (-2147483648) [])).
    apply last_Some_elem_of, manyLeaves_last.
  - rewrite elem_of_seqZ. lia.
Qed.

(** C9, counterexample: from the largest int32, [indexTree] on a node
    without children returns [-2147483647], not [2147483649]. *)
Lemma indexTree_wraps :
  (indexTree leaf maxInt32).2 = -2147483647
  /\ maxInt32 + 2 * Z.of_nat (size leaf) = 2147483649
  /\ Left (indexTree leaf (maxInt32 - 1)).1 = 2147483647
  /\ Right (indexTree leaf (maxInt32 - 1)).1 = -2147483648.
Proof. repeat split. Qed.

(** ** Witnesses *)

Lemma indexTree_returns_witness :
  (indexTree (mkArea "11" "A" "0" 0 0 [leaf; leaf]) 0).2
  = 0 + 2 * Z.of_nat (size (mkArea "11" "A" "0" 0 0 [leaf; leaf]))
  /\ Forall (fun N =>
               Right N = Left N + 2 * Z.of_nat (length (descendants N)) + 1
               /\ (SubAreas N = [] <-> Right N = Left N + 1))
       (forestNodes (assignKeys oneEachForest)).
Proof.
  destruct indexTree_returns as (H1 & _ & H3). split.
  - apply H1; vm_compute; discriminate.
  - apply Forall_forall. apply H3. vm_compute. discriminate.
Defined.

Lemma assignKeys_nestedSet_witness :
  Forall nestedSet (forestNodes (assignKeys oneEachForest))
  /\ Forall nestedSet (forestNodes (assignKeys twoProvincesForest)).
Proof.
  destruct assignKeys_nestedSet as [H1 H2]. split.
  - apply Forall_forall. apply H1. vm_compute. discriminate.
  - apply Forall_forall. apply (H2 inPlace twoProvinces).
    + reflexivity.
    + vm_compute. reflexivity.
Defined.

Lemma assignKeys_range_witness :
  allKeys (assignKeys twoProvincesForest)
  ≡ₚ seqZ 1 (2 * Z.of_nat (count twoProvincesForest))
  /\ NoDup (allKeys (assignKeys twoProvincesForest))
  /\ rootsOrdered (assignKeys twoProvincesForest)
  /\ (forall l1 l2, twoProvincesForest = l1 ++ l2 ->
        assignKeys twoProvincesForest
        = assignKeys l1 ++ (indexTrees l2 (2 * Z.of_nat (count l1))).1).
Proof.
  apply assignKeys_range. vm_compute. discriminate.
Defined.

Lemma resolver_prefix_witness :
  getProvince inPlace "1101010001" = Ok "110000"
  /\ getCity inPlace "1101010001" = Ok "110100"
  /\ getArea inPlace "1101010001" = Ok "110101".
Proof.
  destruct (resolver_prefix inPlace "1101010001") as (H2 & H4 & H6).
  split; [|split].
  - apply H2. simpl. lia.
  - apply H4. simpl. lia.
  - apply H6. simpl. lia.
Defined.

Lemma buildTrees_order_witness :
  exists T, buildTrees inPlace twoProvinces = Ok T
    /\ map flatOf T = map rootRecord (provinces twoProvinces)
    /\ siblingsFollow (cities twoProvinces) T
    /\ map flatOf (level 1 T) ≡ₚ cities twoProvinces
    /\ siblingsFollow (areas twoProvinces) (level 1 T)
    /\ map flatOf (level 2 T) ≡ₚ areas twoProvinces
    /\ siblingsFollow (streets twoProvinces) (level 2 T)
    /\ map flatOf (level 3 T) ≡ₚ streets twoProvinces.
Proof. apply buildTrees_order. reflexivity. Defined.

Lemma buildTrees_fields_witness :
  Forall (fun p => ParentCode p = "0") twoProvincesForest
  /\ map Code twoProvincesForest = map code (provinces twoProvinces)
  /\ map Name twoProvincesForest = map name (provinces twoProvinces)
  /\ map flatOf (level 1 twoProvincesForest) ≡ₚ cities twoProvinces
  /\ map flatOf (level 2 twoProvincesForest) ≡ₚ areas twoProvinces
  /\ map flatOf (level 3 twoProvincesForest) ≡ₚ streets twoProvinces
  /\ level 4 twoProvincesForest = [].
Proof. apply (buildTrees_fields inPlace twoProvinces). reflexivity. Defined.

Lemma genSQLFile_rows_witness :
  Forall2 carries (genSQLFile (assignKeys twoProvincesForest))
    (forestRows (assignKeys twoProvincesForest))
  /\ head (genSQLFile (assignKeys twoProvincesForest))
     = Some ("INSERT INTO nested(id, node, pid, depth, lft, rgt) "
             +:+ "VALUES(110000, 'Beijing', 0, 1, 1, 10);"
             +:+ String (ascii_of_nat 10) EmptyString)
  /\ last (genSQLFile (assignKeys twoProvincesForest))
     = Some ("INSERT INTO nested(id, node, pid, depth, lft, rgt) "
             +:+ "VALUES(130200, 'Tangshan', 130000, 2, 20, 21);"
             +:+ String (ascii_of_nat 10) EmptyString)
  /\ length (genSQLFile (assignKeys twoProvincesForest)) = 11%nat
  /\ map rLeft (forestRows (assignKeys twoProvincesForest))
     = [1; 2; 3; 4; 6; 11; 12; 13; 14; 17; 20]
  /\ map rowFlat (atDepth 4 (forestRows (assignKeys twoProvincesForest)))
     ≡ₚ streets twoProvinces.
Proof.
  destruct (genSQLFile_rows inPlace twoProvinces twoProvincesForest eq_refl)
    as (H1 & H2 & _ & H4 & _ & _ & _ & _ & H9 & _ & H11 & _).
  split; [exact H2|]. split; [rewrite H1; reflexivity|].
  split; [rewrite H1; reflexivity|]. split; [exact H4|].
  split; [rewrite H11; reflexivity | exact H9].
Defined.

(** ** Records that do not resolve, codes that are too short *)

(** C3, counterexample: the city ["990100"] resolves to the province
    ["990000"], which is not in the list; [buildTrees] returns a forest, the
    city under the first province. With no province at all the run stops on
    the index expression. *)
Lemma stray_city_is_attached :
  getProvince inPlace "990100" = Ok "990000"
  /\ resolved inPlace strayCity = false
  /\ buildTrees inPlace strayCity
     = Ok [mkArea "110000" "A" "0" 0 0 [mkArea "990100" "B" "990000" 0 0 []]]
  /\ buildTrees tmpBuf strayCity
     = Ok [mkArea "110000" "A" "0" 0 0 [mkArea "990100" "B" "990000" 0 0 []]]
  /\ buildTrees inPlace noProvince = Panic (IndexOutOfRange 0 0).
Proof. repeat split. Qed.

Lemma unresolved_parent_defaults_witness :
  cityStep inPlace (afterProvinces strayCity).2
    ((afterProvinces strayCity).1, ∅) (mkFlat "990100" "B" "990000")
  = Ok ([mkArea "110000" "A" "0" 0 0 [mkArea "990100" "B" "990000" 0 0 []]],
        <["990100" := 0%nat]> ∅)
  /\ map flatOf
       (level 1 [mkArea "110000" "A" "0" 0 0 [mkArea "990100" "B" "990000" 0 0 []]])
     ≡ₚ cities strayCity.
Proof.
  destruct (unresolved_parent_defaults inPlace (afterProvinces strayCity).2 ∅ ∅)
    as (Hcity & _ & _ & Hall).
  split.
  - apply (Hcity (afterProvinces strayCity).1 ∅ (mkFlat "990100" "B" "990000")
             "990000"); reflexivity.
  - apply (Hall strayCity). reflexivity.
Defined.



(** * Further properties of the program *)

(** ** The resolvers on their own results *)

(** X1. A code a resolver returns is six bytes long and resolves to itself;
    the province of the city code of a code is the province of the code, and
    the city and province of its area code are its city and province. *)
Theorem resolver_nesting (spare : nat -> nat) (code k : string) :
  (getProvince spare code = Ok k ->
     getProvince spare k = Ok k /\ String.length k = 6%nat)
  /\ (getCity spare code = Ok k ->
     getCity spare k = Ok k
     /\ getProvince spare k = getProvince spare code
     /\ String.length k = 6%nat)
  /\ (getArea spare code = Ok k ->
     getArea spare k = Ok k
     /\ getCity spare k = getCity spare code
     /\ getProvince spare k = getProvince spare code
     /\ String.length k = 6%nat).
Proof.
  rewrite !getProvince_eq, !getCity_eq, !getArea_eq. repeat split.
  - rewrite (resolver_resolver spare 2 2 code k); auto.
  - apply (resolver_length spare 2 code); auto.
  - rewrite (resolver_resolver spare 4 4 code k); auto.
  - apply (resolver_resolver spare 2 4); auto.
  - apply (resolver_length spare 4 code); auto.
  - rewrite (resolver_resolver spare 6 6 code k); auto.
  - apply (resolver_resolver spare 4 6); auto.
  - apply (resolver_resolver spare 2 6); auto.
  - apply (resolver_length spare 6 code); auto.
Qed.

Lemma resolver_nesting_witness :
  getArea inPlace "110101" = Ok "110101"
  /\ getCity inPlace "110101" = getCity inPlace "1101010001"
  /\ getProvince inPlace "110101" = getProvince inPlace "1101010001"
  /\ getProvince tmpBuf (String "9" (String Ascii.zero "0000"))
     = Ok (String "9" (String Ascii.zero "0000")).
Proof.
  destruct (resolver_nesting inPlace "1101010001" "110101") as (_ & _ & Ha).
  destruct (resolver_nesting tmpBuf "9" (String "9" (String Ascii.zero "0000")))
    as (Hp & _ & _).
  destruct (Ha eq_refl) as (H1 & H2 & H3 & _). destruct (Hp eq_refl) as (H4 & _).
  repeat split; assumption.
Defined.

(** ** Indexing again *)

Lemma indexTrees_unkeyed_from (l : list Area) :
  Forall (fun t => forall s, indexTree (unkey t) s = indexTree t s) l ->
  forall s, indexTrees (map unkey l) s = indexTrees l s.
Proof.
  induction 1 as [|t l Ht _ IH]; intros s; [reflexivity|].
  change (map unkey (t :: l)) with (unkey t :: map unkey l).
  rewrite !indexTrees_cons, Ht, IH. reflexivity.
Qed.

Lemma indexTree_unkeyed (t : Area) (s : Z) : indexTree (unkey t) s = indexTree t s.
Proof.
  revert s. induction t as [c n pc l r subs IH] using Area_ind. intros s.
  rewrite !indexTree_eq, unkey_eq. projs.
  rewrite (indexTrees_unkeyed_from _ IH). reflexivity.
Qed.

Lemma indexTrees_unkeyed (l : list Area) (s : Z) :
  indexTrees (map unkey l) s = indexTrees l s.
Proof.
  apply indexTrees_unkeyed_from, Forall_forall. intros t _ s'.
  apply indexTree_unkeyed.
Qed.

(** X2. [assignKeys] reads no key and writes nothing but keys: forests that
    differ in their [Left] and [Right] only get the same keys, the codes,
    names, parent codes and children stay in place, and indexing an indexed
    forest changes nothing. *)
Theorem assignKeys_idempotent (trees : list Area) :
  assignKeys (assignKeys trees) = assignKeys trees
  /\ map unkey (assignKeys trees) = map unkey trees
  /\ (forall trees', map unkey trees' = map unkey trees ->
        assignKeys trees' = assignKeys trees).
Proof.
  assert (Hsame : forall trees', map unkey trees' = map unkey trees ->
                    assignKeys trees' = assignKeys trees).
  { intros trees' H. unfold assignKeys.
    rewrite <- (indexTrees_unkeyed trees'), H, indexTrees_unkeyed. reflexivity. }
  assert (Hun : map unkey (assignKeys trees) = map unkey trees)
    by apply indexTrees_unkey.
  split; [apply Hsame; exact Hun|]. split; [exact Hun | exact Hsame].
Qed.

(** ** The emitter on any forest *)

Lemma length_genSQL_from (l : list Area) :
  Forall (fun t => forall d, length (genSQL t d) = size t) l ->
  forall d, length (flat_map (fun sub => genSQL sub d) l) = count l.
Proof.
  induction 1 as [|t l Ht _ IH]; intros d; [reflexivity|].
  simpl. rewrite length_app, Ht, IH, count_cons. reflexivity.
Qed.

Lemma length_genSQL (t : Area) (d : Z) : length (genSQL t d) = size t.
Proof.
  revert d. induction t as [c n pc l r subs IH] using Area_ind. intros d.
  rewrite genSQL_eq, size_eq. simpl. f_equal. apply (length_genSQL_from _ IH).
Qed.

Lemma length_genSQLFile (trees : list Area) :
  length (genSQLFile trees) = count trees.
Proof.
  rewrite genSQLFile_eq. apply length_genSQL_from, Forall_forall.
  intros t _ d. apply length_genSQL.
Qed.

(** X3. On any forest, indexed or not and however deep, [genSQLFile] writes
    one statement per node, and the statements of a forest are those of its
    first trees followed by those of the others. *)
Theorem genSQLFile_count (trees : list Area) :
  length (genSQLFile trees) = count trees
  /\ (forall l1 l2, trees = l1 ++ l2 ->
        genSQLFile trees = genSQLFile l1 ++ genSQLFile l2).
Proof.
  split; [apply length_genSQLFile|].
  intros l1 l2 ->. rewrite !genSQLFile_eq. apply flat_map_app.
Qed.

(** X4. The decimal text [itoa] writes reads back as the number: no two
    numbers have the same text. *)
Theorem itoa_reads_back (i j : Z) :
  option_map Z.of_int (NilZero.int_of_string (itoa i)) = Some i
  /\ (itoa i = itoa j -> i = j).
Proof.
  assert (H : forall z, option_map Z.of_int (NilZero.int_of_string (itoa z)) = Some z).
  { intros z. unfold itoa. rewrite NilZero.isi.
    - simpl. f_equal. apply DecimalZ.of_to.
    - destruct z as [|p|p]; try discriminate. simpl. intros [= Hp].
      exact (DecimalPos.Unsigned.to_uint_nonnil p Hp).
    - destruct z as [|p|p]; try discriminate. simpl. intros [= Hp].
      exact (DecimalPos.Unsigned.to_uint_nonnil p Hp). }
  split; [apply H|].
  intros Heq. pose proof (H i) as Hi. rewrite Heq, H in Hi. congruence.
Qed.

(** ** How the builder can stop *)

Lemma bind_Panic {A B : Type} (r : result A) (k : A -> result B)
  (e : runtimeError) :
  (do x <- r; k x) = Panic e <-> r = Panic e \/ exists a, r = Ok a /\ k a = Panic e.
Proof.
  destruct r as [a|e']; simpl; split.
  - intros H. right. exists a. auto.
  - intros [H | (a' & [= <-] & H)]; [discriminate | exact H].
  - intros [= ->]. left. reflexivity.
  - intros [[= ->] | (a' & [=] & _)]. reflexivity.
Qed.

(** A loop that stops does so in one of its steps, from a state that the
    steps before have left. *)
Lemma forEach_Panic {St A : Type} (body : St -> A -> result St)
  (I : St -> Prop) (Q : runtimeError -> Prop) :
  (forall st x st', I st -> body st x = Ok st' -> I st') ->
  (forall st x e, I st -> body st x = Panic e -> Q e) ->
  forall l st e, I st -> forEach body l st = Panic e -> Q e.
Proof.
  intros Hok Hpanic. induction l as [|x l IH]; intros st e HI Hrun;
    simpl in Hrun; [discriminate|].
  apply bind_Panic in Hrun as [Hx | (st1 & Hx & Hrun)].
  - apply (Hpanic _ _ _ HI Hx).
  - apply (IH st1); [apply (Hok _ _ _ HI Hx) | exact Hrun].
Qed.

Lemma forEach_keeps {St A : Type} (body : St -> A -> result St)
  (I : St -> Prop) :
  (forall st x st', I st -> body st x = Ok st' -> I st') ->
  forall l st st', I st -> forEach body l st = Ok st' -> I st'.
Proof.
  intros Hok l st st' HI Hrun.
  apply (forEach_partial body (fun _ s => I s)) with (pre := []) (st := st)
    (l := l); [|exact HI|exact Hrun].
  intros pre s x s' Hs Hx. apply (Hok _ _ _ Hs Hx).
Qed.

Lemma afterProvinces_values (d : dataset) (k : string) (i : nat) :
  (afterProvinces d).2 !! k = Some i -> (i < length (provinces d))%nat.
Proof.
  unfold afterProvinces. intros Hi.
  destruct (provinceLoop_order (provinces d) 0 [] ∅) as [Hlt _].
  { intros k' j. rewrite lookup_empty. discriminate. }
  apply (Hlt _ _ Hi).
Qed.

(** An index read through a table stops only on an empty slice, at the
    position 0 of an absent key, when the positions of the table are
    positions of the slice. *)
Lemma index_Panic_default {A : Type} (l : list A) (order : gmap string nat)
  (k : string) (e : runtimeError) :
  (forall i, order !! k = Some i -> (i < length l)%nat) ->
  index l (lookupOrder order k) = Panic e -> e = IndexOutOfRange 0 0.
Proof.
  intros Hin. unfold index, lookupOrder.
  destruct (order !! k) as [i|] eqn:Hk; simpl.
  - destruct (lookup_lt_is_Some_2 l i (Hin i eq_refl)) as [a ->]. discriminate.
  - destruct l as [|a l]; simpl; [intros [= <-]; reflexivity | discriminate].
Qed.

Section BuilderPanics.

Variable spare : nat -> nat.
Variable po : gmap string nat.

Lemma resolver_Panic (high : nat) (code : string) (e : runtimeError) :
  (high = 2 \/ high = 4 \/ high = 6)%nat ->
  resolver spare high code = Panic e -> builderPanic e.
Proof.
  intros Hhigh. unfold resolver.
  destruct (high <=? length (backing spare code))%nat eqn:Hcap; [discriminate|].
  intros [= <-]. apply Nat.leb_gt in Hcap. simpl. auto.
Qed.

Lemma getProvince_Panic (code : string) (e : runtimeError) :
  getProvince spare code = Panic e -> builderPanic e.
Proof. rewrite getProvince_eq. apply resolver_Panic. auto. Qed.

Lemma getCity_Panic (code : string) (e : runtimeError) :
  getCity spare code = Panic e -> builderPanic e.
Proof. rewrite getCity_eq. apply resolver_Panic. auto. Qed.

Lemma getArea_Panic (code : string) (e : runtimeError) :
  getArea spare code = Panic e -> builderPanic e.
Proof. rewrite getArea_eq. apply resolver_Panic. auto. Qed.

(** The steps keep the positions of the tables inside the forest. *)
Lemma cityStep_fits (T : list Area) (co : gmap string nat) (c : flatNode)
  (st' : list Area * gmap string nat) :
  tablesFit spare po co ∅ T -> cityStep spare po (T, co) c = Ok st' ->
  tablesFit spare po st'.2 ∅ st'.1.
Proof.
  intros (Hpo & Hc & _) H.
  apply cityStep_Ok in H as (pk & p & Hpk & Hp & ->). simpl.
  set (i := lookupOrder po pk) in *.
  assert (Hlt : (i < length (widths T))%nat).
  { unfold widths. rewrite length_fmap. apply (lookup_lt_Some _ _ _ Hp). }
  assert (Hnew : widths (<[i:=appendSub p (cityNode c)]> T) !! i
                 = Some (S (length (SubAreas p)))).
  { rewrite widths_insert, list_lookup_insert_eq by exact Hlt.
    simpl. rewrite length_app. simpl. f_equal. lia. }
  split; [|split].
  - intros k i0 Hk. rewrite length_insert. apply (Hpo _ _ Hk).
  - intros k j. rewrite lookup_insert. case_decide as Hk.
    + intros [= <-]. subst k. exists pk, (S (length (SubAreas p))).
      split; [exact Hpk|]. fold i. split; [exact Hnew | lia].
    + intros Hj. destruct (Hc _ _ Hj) as (pk0 & w0 & Hpk0 & Hw0 & Hlt0).
      destruct (decide (lookupOrder po pk0 = i)) as [Heq | Hne].
      * rewrite Heq in Hw0. apply widths_lookup in Hw0 as (p' & Hp' & ->).
        assert (p' = p) as -> by congruence.
        exists pk0, (S (length (SubAreas p))). split; [exact Hpk0|].
        rewrite Heq. split; [exact Hnew | lia].
      * exists pk0, w0. split; [exact Hpk0|]. split; [|exact Hlt0].
        rewrite widths_insert, list_lookup_insert_ne by congruence. exact Hw0.
  - intros k l. rewrite lookup_empty. discriminate.
Qed.

Lemma areaStep_fits (co : gmap string nat) (T : list Area)
  (ao : gmap string nat) (a : flatNode) (st' : list Area * gmap string nat) :
  tablesFit spare po co ao T -> areaStep spare po co (T, ao) a = Ok st' ->
  tablesFit spare po co st'.2 st'.1.
Proof.
  intros (Hpo & Hc & Ha) H.
  apply areaStep_Ok in H as (pk & ck & p & c & Hpk & Hck & Hp & Hcc & ->).
  simpl. set (i := lookupOrder po pk) in *. set (j := lookupOrder co ck) in *.
  set (c' := appendSub c (areaNode a)).
  set (p' := withSubAreas p (<[j:=c']> (SubAreas p))).
  assert (Hi : (i < length (widths2 T))%nat).
  { unfold widths2. rewrite length_fmap. apply (lookup_lt_Some _ _ _ Hp). }
  assert (Hj : (j < length (widths (SubAreas p)))%nat).
  { unfold widths. rewrite length_fmap. apply (lookup_lt_Some _ _ _ Hcc). }
  assert (Hwid : widths (<[i:=p']> T) = widths T).
  { apply (widths_insert_same _ _ p); [exact Hp|]. simpl. apply length_insert. }
  assert (Hrow : widths2 (<[i:=p']> T) !! i = Some (widths (SubAreas p')))
    by (rewrite widths2_insert; apply list_lookup_insert_eq; exact Hi).
  assert (Hnew : widths (SubAreas p') !! j = Some (S (length (SubAreas c)))).
  { simpl. rewrite widths_insert, list_lookup_insert_eq by exact Hj.
    simpl. rewrite length_app. simpl. f_equal. lia. }
  split; [|split].
  - intros k i0 Hk. rewrite length_insert. apply (Hpo _ _ Hk).
  - intros k j0 Hk. rewrite Hwid. apply (Hc _ _ Hk).
  - intros k l. rewrite lookup_insert. case_decide as Hk.
    + intros [= <-]. subst k.
      exists pk, ck, (widths (SubAreas p')), (S (length (SubAreas c))).
      split; [exact Hpk|]. split; [exact Hck|]. fold i j.
      split; [exact Hrow|]. split; [exact Hnew | lia].
    + intros Hl. destruct (Ha _ _ Hl)
        as (pk0 & ck0 & ws0 & w0 & Hpk0 & Hck0 & Hws0 & Hw0 & Hlw0).
      destruct (decide (lookupOrder po pk0 = i)) as [Heq | Hne].
      * rewrite Heq in Hws0.
        apply widths2_lookup in Hws0 as (p0 & Hp0 & ->).
        assert (p0 = p) as -> by congruence.
        exists pk0, ck0, (widths (SubAreas p')).
        destruct (decide (lookupOrder co ck0 = j)) as [Heqj | Hnej].
        -- exists (S (length (SubAreas c))). rewrite Heqj in Hw0.
           apply widths_lookup in Hw0 as (c0 & Hc0 & ->).
           assert (c0 = c) as -> by congruence.
           split; [exact Hpk0|]. split; [exact Hck0|]. rewrite Heq, Heqj.
           split; [exact Hrow|]. split; [exact Hnew | lia].
        -- exists w0. split; [exact Hpk0|]. split; [exact Hck0|]. rewrite Heq.
           split; [exact Hrow|]. split; [|exact Hlw0].
           simpl. rewrite widths_insert, list_lookup_insert_ne by congruence.
           exact Hw0.
      * exists pk0, ck0, ws0, w0. split; [exact Hpk0|]. split; [exact Hck0|].
        split; [|split; assumption].
        rewrite widths2_insert, list_lookup_insert_ne by congruence. exact Hws0.
Qed.

Lemma streetStep_fits (co ao : gmap string nat) (T : list Area) (s : flatNode)
  (T' : list Area) :
  tablesFit spare po co ao T -> streetStep spare po co ao T s = Ok T' ->
  tablesFit spare po co ao T'.
Proof.
  intros (Hpo & Hc & Ha) H.
  apply streetStep_Ok in H
    as (pk & ck & ak & p & c & a & _ & _ & _ & Hp & Hcc & Haa & ->).
  set (i := lookupOrder po pk) in *. set (j := lookupOrder co ck) in *.
  set (l := lookupOrder ao ak) in *.
  set (c' := withSubAreas c (<[l:=appendSub a (streetNode s)]> (SubAreas c))).
  set (p' := withSubAreas p (<[j:=c']> (SubAreas p))).
  assert (Hwid : widths (<[i:=p']> T) = widths T).
  { apply (widths_insert_same _ _ p); [exact Hp|]. simpl. apply length_insert. }
  assert (Hwid2 : widths2 (<[i:=p']> T) = widths2 T).
  { apply (widths2_insert_same _ _ p); [exact Hp|]. simpl.
    apply (widths_insert_same _ _ c); [exact Hcc|]. simpl. apply length_insert. }
  split; [|split].
  - intros k i0 Hk. rewrite length_insert. apply (Hpo _ _ Hk).
  - intros k j0 Hk. rewrite Hwid. apply (Hc _ _ Hk).
  - intros k l0 Hk. rewrite Hwid2. apply (Ha _ _ Hk).
Qed.

(** The steps stop in a panic of the builder only. *)
Lemma cityStep_Panic (T : list Area) (co : gmap string nat) (c : flatNode)
  (e : runtimeError) :
  tablesFit spare po co ∅ T -> cityStep spare po (T, co) c = Panic e ->
  builderPanic e.
Proof.
  intros (Hpo & _ & _) H. unfold cityStep in H.
  apply bind_Panic in H as [H | (pk & Hpk & H)];
    [apply (getProvince_Panic _ _ H)|].
  apply bind_Panic in H as [H | (p & _ & H)]; [|discriminate].
  apply index_Panic_default in H as ->; [simpl; auto|].
  intros i Hi. apply (Hpo _ _ Hi).
Qed.

Lemma areaStep_Panic (co : gmap string nat) (T : list Area)
  (ao : gmap string nat) (a : flatNode) (e : runtimeError) :
  tablesFit spare po co ao T -> areaStep spare po co (T, ao) a = Panic e ->
  builderPanic e.
Proof.
  intros (Hpo & Hc & _) H. unfold areaStep in H.
  apply bind_Panic in H as [H | (pk & Hpk & H)];
    [apply (getProvince_Panic _ _ H)|].
  apply bind_Panic in H as [H | (ck & Hck & H)];
    [apply (getCity_Panic _ _ H)|].
  apply bind_Panic in H as [H | (p & Hp & H)].
  { apply index_Panic_default in H as ->; [simpl; auto|].
    intros i Hi. apply (Hpo _ _ Hi). }
  apply index_Ok in Hp.
  apply bind_Panic in H as [H | (c & _ & H)]; [|discriminate].
  apply index_Panic_default in H as ->; [simpl; auto|].
  intros j Hj. destruct (Hc _ _ Hj) as (pk0 & w & Hpk0 & Hw & Hjw).
  rewrite (getCity_getProvince _ _ _ Hck) in Hpk0.
  assert (pk0 = pk) as -> by congruence.
  apply widths_lookup in Hw as (p0 & Hp0 & ->).
  assert (p0 = p) as -> by congruence. exact Hjw.
Qed.

Lemma streetStep_Panic (co ao : gmap string nat) (T : list Area)
  (s : flatNode) (e : runtimeError) :
  tablesFit spare po co ao T -> streetStep spare po co ao T s = Panic e ->
  builderPanic e.
Proof.
  intros (Hpo & Hc & Ha) H. unfold streetStep in H.
  apply bind_Panic in H as [H | (pk & Hpk & H)];
    [apply (getProvince_Panic _ _ H)|].
  apply bind_Panic in H as [H | (ck & Hck & H)];
    [apply (getCity_Panic _ _ H)|].
  apply bind_Panic in H as [H | (ak & Hak & H)];
    [apply (getArea_Panic _ _ H)|].
  apply bind_Panic in H as [H | (p & Hp & H)].
  { apply index_Panic_default in H as ->; [simpl; auto|].
    intros i Hi. apply (Hpo _ _ Hi). }
  apply index_Ok in Hp.
  apply bind_Panic in H as [H | (c & Hcc & H)].
  { apply index_Panic_default in H as ->; [simpl; auto|].
    intros j Hj. destruct (Hc _ _ Hj) as (pk0 & w & Hpk0 & Hw & Hjw).
    rewrite (getCity_getProvince _ _ _ Hck) in Hpk0.
    assert (pk0 = pk) as -> by congruence.
    apply widths_lookup in Hw as (p0 & Hp0 & ->).
    assert (p0 = p) as -> by congruence. exact Hjw. }
  apply index_Ok in Hcc.
  apply bind_Panic in H as [H | (a & _ & H)]; [|discriminate].
  apply index_Panic_default in H as ->; [simpl; auto|].
  intros l Hl.
  destruct (Ha _ _ Hl) as (pk0 & ck0 & ws & w & Hpk0 & Hck0 & Hws & Hw & Hlw).
  rewrite (getArea_getProvince _ _ _ Hak) in Hpk0.
  rewrite (getArea_getCity _ _ _ Hak) in Hck0.
  assert (pk0 = pk) as -> by congruence.
  assert (ck0 = ck) as -> by congruence.
  apply widths2_lookup in Hws as (p0 & Hp0 & ->).
  assert (p0 = p) as -> by congruence.
  apply widths_lookup in Hw as (c0 & Hc0 & ->).
  assert (c0 = c) as -> by congruence. exact Hlw.
Qed.

End BuilderPanics.

(** Every panic of [buildTrees] is an index expression at position 0 of an
    empty slice, or the slice expression of a resolver. *)
Lemma buildTrees_panics (spare : nat -> nat) (d : dataset) (e : runtimeError) :
  buildTrees spare d = Panic e -> builderPanic e.
Proof.
  unfold buildTrees, afterAreas, afterCities. intros H.
  set (po := (afterProvinces d).2) in *.
  assert (H0 : tablesFit spare po ∅ ∅ (afterProvinces d).1).
  { split; [|split].
    - intros k i Hi. rewrite afterProvinces_trees, length_map.
      apply (afterProvinces_values _ _ _ Hi).
    - intros k j. rewrite lookup_empty. discriminate.
    - intros k l. rewrite lookup_empty. discriminate. }
  assert (Hcity : forall st x st',
            tablesFit spare po st.2 ∅ st.1 -> cityStep spare po st x = Ok st' ->
            tablesFit spare po st'.2 ∅ st'.1).
  { intros [T0 co0] x st'. apply cityStep_fits. }
  assert (Harea : forall co st x st',
            tablesFit spare po co st.2 st.1 ->
            areaStep spare po co st x = Ok st' ->
            tablesFit spare po co st'.2 st'.1).
  { intros co [T0 ao0] x st'. apply areaStep_fits. }
  apply bind_Panic in H as [H | ([[T2 co] ao] & H & Hstreets)].
  - apply bind_Panic in H as [H | ([T1 co] & Hcities & H)].
    + apply (forEach_Panic (cityStep spare po)
               (fun st => tablesFit spare po st.2 ∅ st.1) builderPanic)
        with (l := cities d) (st := ((afterProvinces d).1, ∅));
        [exact Hcity| |exact H0|exact H].
      intros [T0 co0] x e0. apply cityStep_Panic.
    + pose proof (forEach_keeps (cityStep spare po)
                    (fun st => tablesFit spare po st.2 ∅ st.1) Hcity
                    _ (_, _) _ H0 Hcities) as H1.
      simpl in H, H1.
      apply bind_Panic in H as [H | (s' & _ & H)]; [|discriminate].
      apply (forEach_Panic (areaStep spare po co)
               (fun st => tablesFit spare po co st.2 st.1) builderPanic)
        with (l := areas d) (st := (T1, ∅));
        [apply Harea| | |exact H].
      * intros [T0 ao0] x e0. apply areaStep_Panic.
      * destruct H1 as (Hp1 & Hc1 & _). split; [exact Hp1|]. split; [exact Hc1|].
        intros k l. simpl. rewrite lookup_empty. discriminate.
  - apply bind_Ok in H as ([T1 co'] & Hcities & H).
    apply bind_Ok in H as ([T2' ao'] & Hareas & [= <- <- <-]). simpl in *.
    pose proof (forEach_keeps (cityStep spare po)
                  (fun st => tablesFit spare po st.2 ∅ st.1) Hcity
                  _ (_, _) _ H0 Hcities) as H1. simpl in H1.
    assert (H1' : tablesFit spare po co' ∅ T1).
    { destruct H1 as (Hp1 & Hc1 & _). split; [exact Hp1|]. split; [exact Hc1|].
      intros k l. rewrite lookup_empty. discriminate. }
    pose proof (forEach_keeps (areaStep spare po co')
                  (fun st => tablesFit spare po co' st.2 st.1) (Harea co')
                  _ (_, _) _ H1' Hareas) as H2.
    simpl in H2.
    apply (forEach_Panic (streetStep spare po co' ao')
             (fun T0 => tablesFit spare po co' ao' T0) builderPanic)
      with (l := streets d) (st := T2'); [| |exact H2|exact Hstreets].
    + intros T0 x T0'. apply streetStep_fits.
    + intros T0 x e0. apply streetStep_Panic.
Qed.

(** [main] stops where [buildTrees] stops, or on [trees[0]]. *)
Lemma main_Panic (spare : nat -> nat) (d : dataset) (e : runtimeError) :
  main spare d = Panic e <->
  buildTrees spare d = Panic e
  \/ (buildTrees spare d = Ok [] /\ e = IndexOutOfRange 0 0).
Proof.
  unfold main. rewrite bind_Panic. split.
  - intros [H | (T & HT & H)]; [left; exact H|]. right.
    apply bind_Panic in H as [H | (first & _ & H)]; [|discriminate].
    destruct T as [|t T].
    + split; [exact HT|]. vm_compute in H. congruence.
    + exfalso. unfold index in H.
      destruct (lookup_lt_is_Some_2 (assignKeys (t :: T)) 0) as [a Ha].
      { unfold assignKeys. rewrite length_indexTrees. simpl. lia. }
      rewrite Ha in H. discriminate.
  - intros [H | [HT ->]]; [left; exact H|]. right. exists []. split; [exact HT|].
    reflexivity.
Qed.

(** ** What [main] writes *)

Lemma buildTrees_length (spare : nat -> nat) (d : dataset) (T : list Area) :
  buildTrees spare d = Ok T -> length T = length (provinces d).
Proof.
  intros HT. destruct (buildTrees_levels _ _ _ HT) as (Hroots & _).
  apply (f_equal (@length _)) in Hroots. rewrite !length_map in Hroots.
  exact Hroots.
Qed.

Lemma assignKeys_head (T : list Area) :
  T <> [] -> exists first, assignKeys T !! 0%nat = Some first.
Proof.
  intros HT. apply lookup_lt_is_Some_2. unfold assignKeys.
  rewrite length_indexTrees. destruct T; [congruence | simpl; lia].
Qed.

(** X5. [main] writes statements exactly when there is at least one
    province and [buildTrees] returns a forest; it then writes the statements
    of the indexed forest, as many as there are records. [main] ends in a
    (recovered) panic, and writes nothing, exactly when [buildTrees] panics,
    with that panic, or when [buildTrees] returns the empty forest, with the
    index panic of [trees[0]]; every such panic is an index expression at
    position 0 of an empty slice or the slice expression of a resolver on
    bytes of too little capacity. With no province, [main] always ends in
    such a panic. *)
Theorem main_writes (spare : nat -> nat) (d : dataset) :
  (forall out, main spare d = Ok out <->
     provinces d <> []
     /\ exists T, buildTrees spare d = Ok T /\ out = genSQLFile (assignKeys T))
  /\ (forall out, main spare d = Ok out -> length out = records d)
  /\ (forall e, main spare d = Panic e <->
        buildTrees spare d = Panic e
        \/ (buildTrees spare d = Ok [] /\ e = IndexOutOfRange 0 0))
  /\ (forall e, main spare d = Panic e -> builderPanic e)
  /\ (provinces d = [] -> exists e, main spare d = Panic e /\ builderPanic e).
Proof.
  assert (Hiff : forall out, main spare d = Ok out <->
            provinces d <> []
            /\ exists T, buildTrees spare d = Ok T
                         /\ out = genSQLFile (assignKeys T)).
  { intros out. unfold main. rewrite bind_Ok. split.
    - intros (T & HT & H). apply bind_Ok in H as (first & Hfirst & [= <-]).
      apply index_Ok in Hfirst. split; [|eauto].
      pose proof (buildTrees_length _ _ _ HT) as Hlen.
      apply lookup_lt_Some in Hfirst. unfold assignKeys in Hfirst.
      rewrite length_indexTrees, Hlen in Hfirst.
      intros Hnil. rewrite Hnil in Hfirst. simpl in Hfirst. lia.
    - intros (Hne & T & HT & ->). exists T. split; [exact HT|].
      destruct (assignKeys_head T) as [first Hfirst].
      { pose proof (buildTrees_length _ _ _ HT) as Hlen.
        intros ->. destruct (provinces d); [congruence | discriminate]. }
      apply index_Ok in Hfirst. rewrite Hfirst. reflexivity. }
  assert (Hkind : forall e, main spare d = Panic e -> builderPanic e).
  { intros e He. apply main_Panic in He as [He | [_ ->]].
    - apply (buildTrees_panics _ _ _ He).
    - simpl. auto. }
  split; [exact Hiff|]. split; [|split; [|split; [exact Hkind|]]].
  - intros out Hout. apply Hiff in Hout as (_ & T & HT & ->).
    rewrite length_genSQLFile. unfold assignKeys. rewrite count_indexTrees.
    apply (buildTrees_count _ _ _ HT).
  - intros e. apply main_Panic.
  - intros Hnil.
    assert (Hno : forall out, main spare d <> Ok out).
    { intros out H. apply Hiff in H as (Hne & _). congruence. }
    clear Hiff. destruct (main spare d) as [out|e] eqn:Hmain.
    + exfalso. apply (Hno out). reflexivity.
    + exists e. split; [reflexivity | apply Hkind; reflexivity].
Qed.

Lemma main_writes_witness :
  main inPlace shortOrphan = Panic (SliceBoundsOutOfRange 2 1)
  /\ main inPlace noProvince = Panic (IndexOutOfRange 0 0)
  /\ main tmpBuf (mkDataset [] [] [] []) = Panic (IndexOutOfRange 0 0)
  /\ (exists e, main tmpBuf shortOrphan = Panic e /\ builderPanic e)
  /\ length (genSQLFile (assignKeys twoProvincesForest)) = records twoProvinces.
Proof.
  destruct (main_writes inPlace shortOrphan) as (_ & _ & H1 & _ & _).
  destruct (main_writes inPlace noProvince) as (_ & _ & H2 & _ & _).
  destruct (main_writes tmpBuf (mkDataset [] [] [] [])) as (_ & _ & H3 & _ & _).
  destruct (main_writes tmpBuf shortOrphan) as (_ & _ & _ & _ & H4).
  destruct (main_writes inPlace twoProvinces) as (_ & H5 & _ & _ & _).
  split; [apply H1; left; reflexivity|].
  split; [apply H2; left; reflexivity|].
  split; [apply H3; right; split; reflexivity|].
  split; [apply H4; reflexivity|]. apply H5. reflexivity.
Defined.

(** ** Levels that are missing, codes that cannot be sliced *)

Lemma forEach_Ok_each {St A : Type} (body : St -> A -> result St) (l : list A) :
  forall st st', forEach body l st = Ok st' ->
    Forall (fun x => exists s0 s1, body s0 x = Ok s1) l.
Proof.
  induction l as [|x l IH]; intros st st' Hrun; [constructor|].
  simpl in Hrun. apply bind_Ok in Hrun as (st1 & Hx & Hrun).
  constructor; [eauto | apply (IH _ _ Hrun)].
Qed.

Lemma resolver_Ok_capacity (spare : nat -> nat) (high : nat) (code k : string) :
  resolver spare high code = Ok k ->
  (high <= String.length code + spare (String.length code))%nat.
Proof.
  unfold resolver. destruct (high <=? _)%nat eqn:Hcap; [|discriminate].
  intros _. apply Nat.leb_le in Hcap. rewrite length_backing in Hcap. exact Hcap.
Qed.

(** X6. When [buildTrees] returns a forest, the capacity of the bytes of
    every code was enough for the slices taken from it: 2 bytes of every
    city code, 4 of every area code, 6 of every street code. Where the
    capacity is the length, no code was shorter than that. *)
Theorem buildTrees_sliced_codes (spare : nat -> nat) (d : dataset) (T : list Area) :
  buildTrees spare d = Ok T ->
  Forall (fun c => (2 <= String.length (code c)
                        + spare (String.length (code c)))%nat) (cities d)
  /\ Forall (fun a => (4 <= String.length (code a)
                           + spare (String.length (code a)))%nat) (areas d)
  /\ Forall (fun s => (6 <= String.length (code s)
                           + spare (String.length (code s)))%nat) (streets d).
Proof.
  unfold buildTrees, afterAreas, afterCities. intros H.
  apply bind_Ok in H as ([[T2 co] ao] & H & Hstreets).
  apply bind_Ok in H as ([T1 co'] & Hcities & H).
  apply bind_Ok in H as ([T2' ao'] & Hareas & [= <- <- <-]). simpl in *.
  apply forEach_Ok_each in Hcities, Hareas, Hstreets.
  split; [|split].
  - eapply Forall_impl; [exact Hcities|]. intros c ([T0 c0] & st1 & Hc).
    apply cityStep_Ok in Hc as (pk & _ & Hpk & _).
    rewrite getProvince_eq in Hpk. apply (resolver_Ok_capacity _ _ _ _ Hpk).
  - eapply Forall_impl; [exact Hareas|]. intros a ([T0 a0] & st1 & Ha).
    apply areaStep_Ok in Ha as (pk & ck & _ & _ & _ & Hck & _).
    rewrite getCity_eq in Hck. apply (resolver_Ok_capacity _ _ _ _ Hck).
  - eapply Forall_impl; [exact Hstreets|]. intros s (T0 & T1' & Hs).
    apply streetStep_Ok in Hs as (pk & ck & ak & _ & _ & _ & _ & _ & Hak & _).
    rewrite getArea_eq in Hak. apply (resolver_Ok_capacity _ _ _ _ Hak).
Qed.

Lemma buildTrees_sliced_codes_witness :
  Forall (fun c => (2 <= String.length (code c) + 0)%nat) (cities twoProvinces)
  /\ Forall (fun a => (4 <= String.length (code a) + 0)%nat) (areas twoProvinces)
  /\ Forall (fun s => (6 <= String.length (code s) + 0)%nat) (streets twoProvinces).
Proof.
  apply (buildTrees_sliced_codes inPlace twoProvinces twoProvincesForest).
  reflexivity.
Defined.

Lemma level_S_nil (k : nat) (l : list Area) : level k l = [] -> level (S k) l = [].
Proof. intros H. rewrite level_S, H. reflexivity. Qed.

(** X7. A forest is returned only when no level is skipped: a dataset with
    a street has an area, with an area a city, with a city a province. When
    a level is skipped [buildTrees] ends in a panic, and every panic of
    [buildTrees], on any dataset, is an index expression at position 0 of an
    empty slice or the slice expression of a resolver on bytes of less
    capacity than the 2, 4 or 6 bytes it takes. *)
Theorem buildTrees_needs_every_level (spare : nat -> nat) (d : dataset) :
  (forall T, buildTrees spare d = Ok T ->
     (cities d <> [] -> provinces d <> [])
     /\ (areas d <> [] -> cities d <> [])
     /\ (streets d <> [] -> areas d <> []))
  /\ (forall e, buildTrees spare d = Panic e -> builderPanic e)
  /\ ((cities d <> [] /\ provinces d = [])
      \/ (areas d <> [] /\ cities d = [])
      \/ (streets d <> [] /\ areas d = []) ->
      exists e, buildTrees spare d = Panic e /\ builderPanic e).
Proof.
  assert (Hok : forall T, buildTrees spare d = Ok T ->
            (cities d <> [] -> provinces d <> [])
            /\ (areas d <> [] -> cities d <> [])
            /\ (streets d <> [] -> areas d <> [])).
  { intros T HT.
    destruct (buildTrees_levels _ _ _ HT) as (Hroots & P1 & P2 & P3 & _).
    assert (Hempty : forall (k : nat) (upper lower : list flatNode),
              map flatOf (level (S k) T) ≡ₚ lower ->
              length (level k T) = length upper ->
              lower <> [] -> upper <> []).
    { intros k upper lower Hl Hu Hne ->. apply Hne.
      apply length_zero_iff_nil in Hu. rewrite (level_S_nil _ _ Hu) in Hl.
      apply Permutation_nil in Hl. exact Hl. }
    split; [|split].
    - apply (Hempty 0%nat); [exact P1|]. simpl.
      apply (f_equal (@length _)) in Hroots. rewrite !length_map in Hroots.
      exact Hroots.
    - apply (Hempty 1%nat); [exact P2|].
      apply Permutation_length in P1. rewrite length_map in P1. exact P1.
    - apply (Hempty 2%nat); [exact P3|].
      apply Permutation_length in P2. rewrite length_map in P2. exact P2. }
  split; [exact Hok|]. split; [intros e; apply buildTrees_panics|].
  intros Hskip. destruct (buildTrees spare d) as [T|e] eqn:HT.
  - exfalso. destruct (Hok T eq_refl) as (H1 & H2 & H3).
    destruct Hskip as [[Hc Hp] | [[Ha Hc] | [Hs Ha]]].
    + apply (H1 Hc Hp).
    + apply (H2 Ha Hc).
    + apply (H3 Hs Ha).
  - exists e. split; [reflexivity | apply (buildTrees_panics _ _ _ HT)].
Qed.

Lemma buildTrees_needs_every_level_witness :
  ((cities twoProvinces <> [] -> provinces twoProvinces <> [])
   /\ (areas twoProvinces <> [] -> cities twoProvinces <> [])
   /\ (streets twoProvinces <> [] -> areas twoProvinces <> []))
  /\ builderPanic (IndexOutOfRange 0 0)
  /\ builderPanic (SliceBoundsOutOfRange 2 1)
  /\ (exists e, buildTrees inPlace noProvince = Panic e /\ builderPanic e)
  /\ (exists e, buildTrees inPlace shortOrphan = Panic e /\ builderPanic e).
Proof.
  destruct (buildTrees_needs_every_level inPlace twoProvinces) as (H1 & _ & _).
  destruct (buildTrees_needs_every_level inPlace noProvince) as (_ & H2 & H3).
  destruct (buildTrees_needs_every_level inPlace shortOrphan) as (_ & H4 & H5).
  split; [apply (H1 twoProvincesForest); reflexivity|].
  split; [apply H2; reflexivity|]. split; [apply H4; reflexivity|].
  split; [apply H3 | apply H5]; left; (split; [discriminate | reflexivity]).
Defined.

(** ** Cities always find a province *)

Lemma lookupOrder_province (d : dataset) (k : string) :
  provinces d <> [] ->
  (lookupOrder (afterProvinces d).2 k < length (provinces d))%nat.
Proof.
  intros Hne. unfold lookupOrder.
  destruct ((afterProvinces d).2 !! k) as [i|] eqn:Hi; simpl.
  - apply (afterProvinces_values _ _ _ Hi).
  - destruct (provinces d); [congruence | simpl; lia].
Qed.

(** X8. With at least one province, the loop over the cities cannot stop on
    a city whose code has two bytes or more: whether or not its province is
    in the list, every city ends as the child of a province (the first one
    when its province is not found), and no province is added or lost. *)
Theorem cities_always_attach (spare : nat -> nat) (d : dataset) :
  provinces d <> [] ->
  Forall (fun c => (2 <= String.length (code c))%nat) (cities d) ->
  exists st, afterCities spare d = Ok st
    /\ map flatOf st.1 = map rootRecord (provinces d)
    /\ map flatOf (below st.1) ≡ₚ cities d.
Proof.
  intros Hne Hcodes. unfold afterCities.
  set (po := (afterProvinces d).2).
  destruct (forEach_total (cityStep spare po)
              (fun _ st => length st.1 = length (provinces d))
              (fun c => (2 <= String.length (code c))%nat))
    with (l := cities d) (pre := @nil flatNode)
         (st := ((afterProvinces d).1, ∅ : gmap string nat))
    as (st & Hrun & _).
  - intros pre [T co] c Hlen Hc. simpl in Hlen.
    assert (Hpk : getProvince spare (code c)
                  = Ok (substring 0 2 (code c) +:+ "0000"))
      by (rewrite getProvince_eq, resolver_long by exact Hc; reflexivity).
    pose proof (lookupOrder_province d (substring 0 2 (code c) +:+ "0000") Hne)
      as Hlt.
    fold po in Hlt. rewrite <- Hlen in Hlt.
    destruct (lookup_lt_is_Some_2 _ _ Hlt) as [p Hp'].
    eexists. split; [apply cityStep_Ok; eauto|]. simpl.
    rewrite length_insert. exact Hlen.
  - simpl. rewrite afterProvinces_trees. apply length_map.
  - exact Hcodes.
  - exists st. split; [exact Hrun|].
    pose proof (Built_provinces (provinces d)) as HB0.
    rewrite <- afterProvinces_trees in HB0.
    refine (_ (loop_Built fst (cityStep spare po) cityNode 0 _ cityNode_record
                 _ _ _ _ Hrun HB0)).
    2:{ intros [T0 c0] x st'. apply cityStep_attach. }
    intros [HB Hflat]. simpl in Hflat. split.
    + rewrite Hflat, afterProvinces_trees. apply flatOf_provinces.
    + destruct (HB 0%nat) as [_ Hperm]. rewrite upd_eq in Hperm. exact Hperm.
Qed.

Lemma cities_always_attach_witness :
  exists st, afterCities inPlace strayCity = Ok st
    /\ map flatOf st.1 = map rootRecord (provinces strayCity)
    /\ map flatOf (below st.1) ≡ₚ cities strayCity.
Proof.
  apply cities_always_attach.
  - discriminate.
  - repeat constructor.
Defined.

(** ** Provinces that share a code *)

Lemma provinceLoop_snoc (ps : list flatNode) (p : flatNode) :
  forall (i : nat) (T : list Area) (po : gmap string nat),
    provinceLoop i (ps ++ [p]) (T, po) =
    ((provinceLoop i ps (T, po)).1 ++ [provinceNode p],
     <[code p := (i + length ps)%nat]> (provinceLoop i ps (T, po)).2).
Proof.
  induction ps as [|q ps IH]; intros i T po; simpl.
  - rewrite Nat.add_0_r. reflexivity.
  - rewrite IH. simpl. do 2 f_equal. lia.
Qed.

Lemma lookup_snoc_Some {A : Type} (l : list A) (x y : A) (i : nat) :
  (l ++ [x]) !! i = Some y <-> l !! i = Some y \/ (i = length l /\ y = x).
Proof.
  rewrite lookup_app_Some. apply or_iff_compat_l. split.
  - intros [Hle Hx]. destruct (i - length l)%nat as [|n] eqn:Hn; simpl in Hx.
    + injection Hx as <-. split; [lia | reflexivity].
    + discriminate.
  - intros [-> ->]. split; [lia|]. rewrite Nat.sub_diag. reflexivity.
Qed.

Lemma provinceOrder_last_from (ps : list flatNode) (k : string) (i : nat) :
  (provinceLoop 0 ps ([], ∅)).2 !! k = Some i <->
  (exists p, ps !! i = Some p /\ code p = k)
  /\ (forall j p', (i < j)%nat -> ps !! j = Some p' -> code p' <> k).
Proof.
  revert i. induction ps as [|p ps IH] using rev_ind; intros i.
  - simpl. rewrite lookup_empty. split; [discriminate|].
    intros [(p & Hp & _) _]. discriminate.
  - rewrite provinceLoop_snoc. simpl. rewrite lookup_insert. case_decide as Hk.
    + split.
      * intros [= <-]. split.
        -- exists p. split; [|exact Hk]. apply lookup_snoc_Some. right. auto.
        -- intros j p' Hj Hp'. apply lookup_lt_Some in Hp'.
           rewrite length_app in Hp'. simpl in Hp'. lia.
      * intros [(p0 & Hp0 & Hc0) Hlater]. f_equal.
        pose proof (lookup_lt_Some _ _ _ Hp0) as Hlt.
        rewrite length_app in Hlt. simpl in Hlt.
        destruct (decide (i = length ps)) as [-> | Hne]; [reflexivity|].
        exfalso. apply (Hlater (length ps) p); [lia| |exact Hk].
        apply lookup_snoc_Some. right. auto.
    + rewrite IH. split.
      * intros [(p0 & Hp0 & Hc0) Hlater]. split.
        -- exists p0. split; [|exact Hc0]. apply lookup_snoc_Some. left. exact Hp0.
        -- intros j p' Hj Hp'. apply lookup_snoc_Some in Hp' as [Hp' | [-> ->]].
           ++ apply (Hlater j p' Hj Hp').
           ++ exact Hk.
      * intros [(p0 & Hp0 & Hc0) Hlater].
        apply lookup_snoc_Some in Hp0 as [Hp0 | [-> ->]]; [|congruence].
        split; [eauto|]. intros j p' Hj Hp'. apply (Hlater j p' Hj).
        apply lookup_snoc_Some. left. exact Hp'.
Qed.

(** X9. The table of the provinces gives, for a code, the position of the
    last province of the list that has this code, and no position for a code
    no province has (which then reads as position 0). *)
Theorem provinceOrder_last (d : dataset) (k : string) :
  (forall i, (afterProvinces d).2 !! k = Some i <->
     (exists p, provinces d !! i = Some p /\ code p = k)
     /\ (forall j p', (i < j)%nat -> provinces d !! j = Some p' -> code p' <> k))
  /\ ((afterProvinces d).2 !! k = None <-> k ∉ map code (provinces d))
  /\ (k ∉ map code (provinces d) -> lookupOrder (afterProvinces d).2 k = 0%nat).
Proof.
  assert (Hnone : (afterProvinces d).2 !! k = None <-> k ∉ map code (provinces d)).
  { unfold afterProvinces. split.
    - intros Hn Hin.
      destruct (provinceLoop_order (provinces d) 0 [] ∅) as [_ Hdom].
      { intros k' j. rewrite lookup_empty. discriminate. }
      destruct (Hdom k (or_intror Hin)) as [i Hi]. congruence.
    - intros Hnot.
      destruct ((provinceLoop 0 (provinces d) ([], ∅)).2 !! k) as [i|] eqn:Hi;
        [|reflexivity].
      apply provinceOrder_last_from in Hi as [(p & Hp & Hc) _].
      exfalso. apply Hnot. rewrite <- Hc. apply list_elem_of_In, in_map.
      apply list_elem_of_In, (list_elem_of_lookup_2 _ _ _ Hp). }
  split; [intros i; apply provinceOrder_last_from|]. split; [exact Hnone|].
  intros Hnot. unfold lookupOrder. apply Hnone in Hnot. rewrite Hnot. reflexivity.
Qed.

(** Every step of the builder writes at the position the table of the
    provinces gives, and nowhere else among the roots. *)
Lemma cityStep_frame (spare : nat -> nat) (po : gmap string nat) (i : nat)
  (st : list Area * gmap string nat) (c : flatNode)
  (st' : list Area * gmap string nat) :
  (forall k, lookupOrder po k <> i) ->
  cityStep spare po st c = Ok st' -> st'.1 !! i = st.1 !! i.
Proof.
  intros Hi H. destruct st as [T co].
  apply cityStep_Ok in H as (pk & p & _ & _ & ->). simpl.
  apply list_lookup_insert_ne, Hi.
Qed.

Lemma areaStep_frame (spare : nat -> nat) (po co : gmap string nat) (i : nat)
  (st : list Area * gmap string nat) (a : flatNode)
  (st' : list Area * gmap string nat) :
  (forall k, lookupOrder po k <> i) ->
  areaStep spare po co st a = Ok st' -> st'.1 !! i = st.1 !! i.
Proof.
  intros Hi H. destruct st as [T ao].
  apply areaStep_Ok in H as (pk & ck & p & c & _ & _ & _ & _ & ->). simpl.
  apply list_lookup_insert_ne, Hi.
Qed.

Lemma streetStep_frame (spare : nat -> nat) (po co ao : gmap string nat)
  (i : nat) (T : list Area) (s : flatNode) (T' : list Area) :
  (forall k, lookupOrder po k <> i) ->
  streetStep spare po co ao T s = Ok T' -> T' !! i = T !! i.
Proof.
  intros Hi H.
  apply streetStep_Ok in H as (pk & ck & ak & p & c & a & _ & _ & _ & _ & _ & _ & ->).
  apply list_lookup_insert_ne, Hi.
Qed.

Lemma forEach_frame {St A : Type} (treesOf : St -> list Area)
  (body : St -> A -> result St) (i : nat) :
  (forall st x st', body st x = Ok st' -> treesOf st' !! i = treesOf st !! i) ->
  forall l st st', forEach body l st = Ok st' ->
    treesOf st' !! i = treesOf st !! i.
Proof.
  intros Hstep l st st' Hrun.
  apply (forEach_partial body (fun _ s => treesOf s !! i = treesOf st !! i))
    with (pre := []) (st := st) (l := l); [|reflexivity|exact Hrun].
  intros pre s x s' Hs Hx. rewrite <- Hs. apply (Hstep _ _ _ Hx).
Qed.

(** X10. A province that is not the first of the list and whose code
    occurs again later in the list gets no child: in the forest returned,
    the root at its position is the node it was created as, with no
    children. *)
Theorem shadowed_province_childless (spare : nat -> nat) (d : dataset)
  (T : list Area) (i : nat) (p : flatNode) :
  buildTrees spare d = Ok T ->
  (0 < i)%nat -> provinces d !! i = Some p ->
  (exists j p', (i < j)%nat /\ provinces d !! j = Some p' /\ code p' = code p) ->
  T !! i = Some (provinceNode p).
Proof.
  intros HT Hpos Hp (j & p' & Hij & Hp' & Hcode).
  set (po := (afterProvinces d).2).
  assert (Hi : forall k, lookupOrder po k <> i).
  { intros k. unfold lookupOrder.
    destruct (po !! k) as [v|] eqn:Hv; simpl; [|lia].
    intros ->. unfold po, afterProvinces in Hv.
    apply provinceOrder_last_from in Hv as [(q & Hq & Hqk) Hlater].
    apply (Hlater j p' Hij Hp'). congruence. }
  unfold buildTrees, afterAreas, afterCities in HT. fold po in HT.
  apply bind_Ok in HT as ([[T2 co] ao] & H & Hstreets).
  apply bind_Ok in H as ([T1 co'] & Hcities & H).
  apply bind_Ok in H as ([T2' ao'] & Hareas & [= <- <- <-]). simpl in *.
  pose proof (forEach_frame (fun T => T) _ i
                (fun T0 x T0' => streetStep_frame spare po co' ao' i T0 x T0' Hi)
                _ _ _ Hstreets) as E3.
  pose proof (forEach_frame fst _ i
                (fun st x st' => areaStep_frame spare po co' i st x st' Hi)
                _ _ _ Hareas) as E2.
  pose proof (forEach_frame fst _ i
                (fun st x st' => cityStep_frame spare po i st x st' Hi)
                _ _ _ Hcities) as E1.
  simpl in E1, E2, E3. rewrite E3, E2, E1.
  simpl. rewrite afterProvinces_trees.
  change (map provinceNode (provinces d)) with (provinceNode <$> provinces d).
  rewrite list_lookup_fmap, Hp. reflexivity.
Qed.

Lemma shadowed_province_childless_witness :
  (match buildTrees inPlace twinProvinces with
   | Ok T => T !! 1%nat
   | Panic _ => None
   end) = Some (provinceNode (mkFlat "120000" "Tianjin" "0")).
Proof.
  destruct (buildTrees inPlace twinProvinces) as [T|e] eqn:HT;
    [|vm_compute in HT; discriminate].
  apply (shadowed_province_childless inPlace twinProvinces T 1
           (mkFlat "120000" "Tianjin" "0") HT).
  - lia.
  - reflexivity.
  - exists 2%nat, (mkFlat "120000" "Tianjin again" "0"). repeat split. lia.
Defined.

(** ** Descendants by their keys *)

Lemma chained_range (l : list Area) (s e : Z) (N : Area) :
  chained s l e -> N ∈ forestNodes l ->
  s < Left N /\ Left N < Right N /\ Right N <= e.
Proof.
  intros Hc HN. destruct (chained_nodes _ _ _ _ Hc HN) as (s' & Hk & Hs' & Hr').
  pose proof (keyed_Left _ _ Hk). pose proof (keyed_Right _ _ Hk).
  pose proof (size_pos N). lia.
Qed.

Lemma inside_descendant_from (l : list Area) :
  Forall (fun t => forall s, keyed s t ->
            forall N D, N ∈ nodes t -> D ∈ nodes t ->
              Left N < Left D -> Left D < Right N -> D ∈ descendants N) l ->
  forall s e, chained s l e ->
    forall N D, N ∈ forestNodes l -> D ∈ forestNodes l ->
      Left N < Left D -> Left D < Right N -> D ∈ descendants N.
Proof.
  induction 1 as [|t l Ht _ IH]; intros s e Hc N D HN HD Hlo Hhi.
  - inversion HN.
  - destruct Hc as [Hk Hc]. rewrite forestNodes_cons in HN, HD.
    assert (Hkt : chained s [t] (Right t)) by (simpl; auto).
    assert (Ht_nodes : forall X, X ∈ nodes t -> X ∈ forestNodes [t]).
    { intros X HX. rewrite forestNodes_cons. apply elem_of_app. left. exact HX. }
    apply elem_of_app in HN as [HN | HN], HD as [HD | HD].
    + apply (Ht s Hk N D HN HD Hlo Hhi).
    + pose proof (chained_range _ _ _ _ Hkt (Ht_nodes _ HN)).
      pose proof (chained_range _ _ _ _ Hc HD). lia.
    + pose proof (chained_range _ _ _ _ Hkt (Ht_nodes _ HD)).
      pose proof (chained_range _ _ _ _ Hc HN). lia.
    + apply (IH _ _ Hc N D HN HD Hlo Hhi).
Qed.

Lemma inside_descendant_tree (t : Area) :
  forall s, keyed s t ->
    forall N D, N ∈ nodes t -> D ∈ nodes t ->
      Left N < Left D -> Left D < Right N -> D ∈ descendants N.
Proof.
  induction t as [c n pc l r subs IH] using Area_ind.
  intros s Hk N D HN HD Hlo Hhi.
  pose proof (keyed_children _ _ Hk) as Hc. projs.
  rewrite nodes_eq in HN, HD. projs.
  apply elem_of_cons in HN as [-> | HN], HD as [-> | HD].
  - lia.
  - exact HD.
  - pose proof (chained_range _ _ _ _ Hc HN). projs. lia.
  - apply (inside_descendant_from _ IH _ _ Hc N D HN HD Hlo Hhi).
Qed.

Lemma inside_descendant (l : list Area) (s e : Z) (N D : Area) :
  chained s l e -> N ∈ forestNodes l -> D ∈ forestNodes l ->
  Left N < Left D -> Left D < Right N -> D ∈ descendants N.
Proof.
  intros Hc. apply (inside_descendant_from l) with (s := s) (e := e);
    [|exact Hc].
  apply Forall_forall. intros t _. apply inside_descendant_tree.
Qed.

(** X11. After [assignKeys] on a forest with [2 * count] no more than the
    largest int32, a node [D] of the forest is a descendant of a node [N]
    exactly when the range of [D] lies inside the range of [N], and exactly
    when [Left D] lies inside the range of [N]: the comparison of keys
    decides the ancestry, in both directions. *)
Theorem descendant_by_keys (trees : list Area) (N D : Area) :
  2 * Z.of_nat (count trees) <= maxInt32 ->
  N ∈ forestNodes (assignKeys trees) -> D ∈ forestNodes (assignKeys trees) ->
  (D ∈ descendants N <-> Left N < Left D /\ Right D < Right N)
  /\ (D ∈ descendants N <-> Left N < Left D /\ Left D < Right N).
Proof.
  intros Hhi HN HD. pose proof (assignKeys_chained _ Hhi) as Hc.
  destruct (chained_nodes _ _ _ _ Hc HN) as (sN & HkN & _).
  pose proof (keyed_nestedSet _ _ HkN) as (_ & _ & _ & _ & Hdesc).
  pose proof (chained_range _ _ _ _ Hc HD) as (_ & HD' & _).
  split; split.
  - intros H. destruct (Hdesc D H) as (H1 & H2 & H3). split; assumption.
  - intros [H1 H2]. apply (inside_descendant _ _ _ _ _ Hc HN HD H1). lia.
  - intros H. destruct (Hdesc D H) as (H1 & H2 & H3). split; [assumption | lia].
  - intros [H1 H2]. apply (inside_descendant _ _ _ _ _ Hc HN HD H1 H2).
Qed.

Lemma descendant_by_keys_witness :
  (mkArea "1101010001" "D" "110101" 4 5 []
     ∈ descendants (mkArea "1101" "B" "11" 2 7
                      [mkArea "110101" "C" "1101" 3 6
                         [mkArea "1101010001" "D" "110101" 4 5 []]])
   <-> 2 < 4 /\ 5 < 7)
  /\ (mkArea "1101" "B" "11" 2 7
        [mkArea "110101" "C" "1101" 3 6
           [mkArea "1101010001" "D" "110101" 4 5 []]]
      ∈ descendants (mkArea "1101010001" "D" "110101" 4 5 [])
      <-> 4 < 2 /\ 7 < 5).
Proof.
  split.
  - apply (descendant_by_keys oneEachForest).
    + vm_compute. discriminate.
    + vm_compute. do 1 apply list_elem_of_further. apply list_elem_of_here.
    + vm_compute. do 3 apply list_elem_of_further. apply list_elem_of_here.
  - apply (descendant_by_keys oneEachForest).
    + vm_compute. discriminate.
    + vm_compute. do 3 apply list_elem_of_further. apply list_elem_of_here.
    + vm_compute. do 1 apply list_elem_of_further. apply list_elem_of_here.
Defined.

(** ** Every node under the parent its code names *)

Lemma attachUnder_attach (n : Area) (pc : string) (k : nat) (l l' : list Area) :
  attachUnder n pc k l l' -> attach n k l l'.
Proof. induction 1; constructor; assumption. Qed.

Lemma attachUnder_parent (n : Area) (pc : string) (k : nat) (l l' : list Area) :
  attachUnder n pc k l l' ->
  exists a p b, level k l = a ++ p :: b
                /\ level k l' = a ++ appendSub p n :: b /\ Code p = pc.
Proof.
  induction 1 as [l1 p l2 Hp | k l1 p l2 subs' Hin IH].
  - exists l1, p, l2. auto.
  - destruct IH as (a & q & b & Hl & Hl' & Hq).
    exists (level (S k) l1 ++ a), q, (b ++ level (S k) l2).
    rewrite !level_app, !level_cons. simpl SubAreas. rewrite Hl, Hl'.
    rewrite <- !app_assoc. auto.
Qed.

Lemma linked_family (get : string -> result string) (l l' : list Area) :
  map family l' = map family l -> linked get l -> linked get l'.
Proof.
  unfold linked. intros Heq Hl.
  assert (Hfam : forall m,
            Forall (fun p => Forall (fun c => get (Code c) = Ok (Code p))
                               (SubAreas p)) m
            <-> Forall (fun f => Forall (fun c => get (code c) = Ok (code f.1)) f.2)
                  (map family m)).
  { intros m. rewrite Forall_map. apply Forall_iff. intros p. unfold family.
    simpl. rewrite Forall_map. reflexivity. }
  apply Hfam. rewrite Heq. apply Hfam. exact Hl.
Qed.

Lemma attachUnder_linked (gets : nat -> string -> result string) (n : Area)
  (pc : string) (k : nat) (T T' : list Area) :
  attachUnder n pc k T T' -> SubAreas n = [] -> gets k (Code n) = Ok pc ->
  (forall j, linked (gets j) (level j T)) ->
  forall j, linked (gets j) (level j T').
Proof.
  intros Hunder Hn Hget Hall j. pose proof (attachUnder_attach _ _ _ _ _ Hunder) as Hat.
  specialize (Hall j). destruct (lt_eq_lt_dec j k) as [[Hlt | ->] | Hgt].
  - apply (linked_family _ (level j T));
      [apply (attach_family _ _ _ _ Hat); lia | exact Hall].
  - destruct (attachUnder_parent _ _ _ _ _ Hunder) as (a & p & b & Hl & Hl' & Hp).
    rewrite Hl in Hall. rewrite Hl'. unfold linked in *.
    apply Forall_app in Hall as [Ha Hpb]. apply Forall_cons in Hpb as [Hp' Hb].
    apply Forall_app. split; [exact Ha|]. apply Forall_cons. split; [|exact Hb].
    simpl. apply Forall_app. split; [exact Hp'|].
    apply Forall_cons. split; [|constructor]. rewrite Hp. exact Hget.
  - destruct (decide (j = S k)) as [-> | Hne].
    + destruct (attach_child _ _ _ _ Hat) as (a & b & Hl & Hl').
      rewrite Hl in Hall. rewrite Hl'. unfold linked in *.
      apply Forall_app in Hall as [Ha Hb].
      apply Forall_app. split; [exact Ha|]. apply Forall_cons. split; [|exact Hb].
      rewrite Hn. constructor.
    + rewrite (attach_deeper _ _ _ _ Hat Hn) by lia. exact Hall.
Qed.

(** The codes at the positions of the forest. *)
Lemma codes1_lookup (T : list Area) (i : nat) (k : string) :
  (Code <$> T) !! i = Some k <-> exists p, T !! i = Some p /\ Code p = k.
Proof.
  rewrite list_lookup_fmap. destruct (T !! i) as [p|]; simpl.
  - split; [intros [= <-]; eauto | intros (p' & [= <-] & ->); reflexivity].
  - split; [discriminate | intros (p' & [=] & _)].
Qed.

Lemma codes2_lookup (T : list Area) (i : nat) (cs : list string) :
  codes2 T !! i = Some cs <-> exists p, T !! i = Some p /\ cs = Code <$> SubAreas p.
Proof.
  unfold codes2. rewrite list_lookup_fmap. destruct (T !! i) as [p|]; simpl.
  - split; [intros [= <-]; eauto | intros (p' & [= <-] & ->); reflexivity].
  - split; [discriminate | intros (p' & [=] & _)].
Qed.

Lemma codes3_lookup (T : list Area) (i : nat) (css : list (list string)) :
  codes3 T !! i = Some css <-> exists p, T !! i = Some p /\ css = codes2 (SubAreas p).
Proof.
  unfold codes3. rewrite list_lookup_fmap. destruct (T !! i) as [p|]; simpl.
  - split; [intros [= <-]; eauto | intros (p' & [= <-] & ->); reflexivity].
  - split; [discriminate | intros (p' & [=] & _)].
Qed.

Lemma codes1_insert_same (T : list Area) (i : nat) (p p' : Area) :
  T !! i = Some p -> Code p' = Code p -> Code <$> <[i:=p']> T = Code <$> T.
Proof.
  intros Hp Hc. rewrite list_fmap_insert, Hc. apply list_insert_id.
  apply codes1_lookup. eauto.
Qed.

Lemma codes2_insert (T : list Area) (i : nat) (p : Area) :
  codes2 (<[i:=p]> T) = <[i:=Code <$> SubAreas p]> (codes2 T).
Proof. unfold codes2. apply (list_fmap_insert (fun p => Code <$> SubAreas p)). Qed.

Lemma codes3_insert (T : list Area) (i : nat) (p : Area) :
  codes3 (<[i:=p]> T) = <[i:=codes2 (SubAreas p)]> (codes3 T).
Proof. unfold codes3. apply (list_fmap_insert (fun p => codes2 (SubAreas p))). Qed.

Lemma codes2_insert_same (T : list Area) (i : nat) (p p' : Area) :
  T !! i = Some p -> Code <$> SubAreas p' = Code <$> SubAreas p ->
  codes2 (<[i:=p']> T) = codes2 T.
Proof.
  intros Hp Hc. rewrite codes2_insert, Hc. apply list_insert_id.
  apply codes2_lookup. eauto.
Qed.

Lemma codes3_insert_same (T : list Area) (i : nat) (p p' : Area) :
  T !! i = Some p -> codes2 (SubAreas p') = codes2 (SubAreas p) ->
  codes3 (<[i:=p']> T) = codes3 T.
Proof.
  intros Hp Hc. rewrite codes3_insert, Hc. apply list_insert_id.
  apply codes3_lookup. eauto.
Qed.

Lemma provCoded_flat (po : gmap string nat) (T T' : list Area) :
  map flatOf T' = map flatOf T -> provCoded po T -> provCoded po T'.
Proof.
  intros Hflat Hpo k i Hk. specialize (Hpo _ _ Hk).
  assert (Hcodes : Code <$> T' = Code <$> T).
  { assert (Hm : forall l, Code <$> l = map code (map flatOf l)).
    { intros l. rewrite map_map. reflexivity. }
    rewrite !Hm, Hflat. reflexivity. }
  rewrite Hcodes. exact Hpo.
Qed.

(** A loop keeps an invariant on the list read so far, its records taken
    from those with [P]. *)
Lemma forEach_partial_on {St A : Type} (body : St -> A -> result St)
  (I : list A -> St -> Prop) (P : A -> Prop) :
  (forall pre st x st', I pre st -> P x -> body st x = Ok st' ->
     I (pre ++ [x]) st') ->
  forall l pre st st', I pre st -> Forall P l -> forEach body l st = Ok st' ->
    I (pre ++ l) st'.
Proof.
  intros Hstep. induction l as [|x l IH]; intros pre st st' HI HP Hrun;
    simpl in Hrun.
  - injection Hrun as <-. rewrite app_nil_r. exact HI.
  - apply bind_Ok in Hrun as (st1 & Hx & Hrun).
    apply Forall_cons in HP as [HPx HP].
    rewrite (cons_middle x pre l), app_assoc.
    apply (IH _ st1); [|exact HP|exact Hrun]. apply (Hstep _ st); assumption.
Qed.

Lemma provCoded_provinces (d : dataset) :
  provCoded (afterProvinces d).2 (afterProvinces d).1.
Proof.
  intros k i Hi. rewrite afterProvinces_trees. unfold afterProvinces in Hi.
  apply provinceOrder_last_from in Hi as [(p & Hp & Hc) _].
  apply codes1_lookup. exists (provinceNode p). split; [|exact Hc].
  change (map provinceNode (provinces d)) with (provinceNode <$> provinces d).
  rewrite list_lookup_fmap, Hp. reflexivity.
Qed.

Lemma linked_provinces (gets : nat -> string -> result string)
  (ps : list flatNode) (j : nat) :
  linked (gets j) (level j (map provinceNode ps)).
Proof.
  destruct j as [|j].
  - simpl. apply Forall_map, Forall_forall. intros p _. constructor.
  - change (level (S j) (map provinceNode ps))
      with (level j (below (map provinceNode ps))).
    rewrite below_provinces, level_nil. constructor.
Qed.

Section BuilderLinks.

Variable spare : nat -> nat.
Variable po : gmap string nat.

(** The step of the loop over the cities. *)
Lemma cityStep_under (T : list Area) (co : gmap string nat) (c : flatNode)
  (st' : list Area * gmap string nat) :
  provCoded po T -> cityCoded spare po co T ->
  (exists pk, getProvince spare (code c) = Ok pk /\ is_Some (po !! pk)) ->
  cityStep spare po (T, co) c = Ok st' ->
  (exists pk, getProvince spare (code c) = Ok pk
              /\ attachUnder (cityNode c) pk 0 T st'.1)
  /\ cityCoded spare po st'.2 st'.1
  /\ (forall k, is_Some (co !! k) \/ k = code c -> is_Some (st'.2 !! k)).
Proof.
  intros Hpo Hcc (pk & Hpk & [i Hi]) H.
  apply cityStep_Ok in H as (pk' & p & Hpk' & Hp & ->).
  assert (pk' = pk) as -> by congruence.
  pose proof (lookupOrder_Some _ _ _ Hi) as Hlook. rewrite Hlook in *. simpl.
  pose proof (Hpo _ _ Hi) as Hcode.
  apply codes1_lookup in Hcode as (p0 & Hp0 & Hc0).
  assert (p0 = p) as -> by congruence.
  assert (Hlt : (i < length (codes2 T))%nat).
  { unfold codes2. rewrite length_fmap. apply (lookup_lt_Some _ _ _ Hp). }
  assert (Hnew : codes2 (<[i:=appendSub p (cityNode c)]> T) !! i
                 = Some ((Code <$> SubAreas p) ++ [code c])).
  { rewrite codes2_insert, list_lookup_insert_eq by exact Hlt.
    simpl. rewrite fmap_app. reflexivity. }
  split; [|split].
  - exists pk. split; [exact Hpk|].
    destruct (insert_split _ _ _ (appendSub p (cityNode c)) Hp)
      as (l1 & l2 & -> & -> & _).
    constructor. exact Hc0.
  - intros k j. rewrite lookup_insert. case_decide as Hk.
    + intros [= <-]. subst k. exists pk, ((Code <$> SubAreas p) ++ [code c]).
      split; [exact Hpk|]. rewrite Hlook. split; [exact Hnew|].
      apply list_lookup_middle. rewrite length_fmap. reflexivity.
    + intros Hj. destruct (Hcc _ _ Hj) as (pk0 & cs0 & Hpk0 & Hcs0 & Hj0).
      destruct (decide (lookupOrder po pk0 = i)) as [Heq | Hne].
      * rewrite Heq in Hcs0. apply codes2_lookup in Hcs0 as (p' & Hp' & ->).
        assert (p' = p) as -> by congruence.
        exists pk0, ((Code <$> SubAreas p) ++ [code c]).
        split; [exact Hpk0|]. rewrite Heq. split; [exact Hnew|].
        apply lookup_app_l_Some. exact Hj0.
      * exists pk0, cs0. split; [exact Hpk0|]. split; [|exact Hj0].
        rewrite codes2_insert, list_lookup_insert_ne by congruence. exact Hcs0.
  - intros k. rewrite lookup_insert. case_decide as Hk; [eauto|].
    intros [Hk' | Hk']; [exact Hk' | congruence].
Qed.

Variable co : gmap string nat.

(** The step of the loop over the areas. *)
Lemma areaStep_under (T : list Area) (ao : gmap string nat) (a : flatNode)
  (st' : list Area * gmap string nat) :
  cityCoded spare po co T -> areaCoded spare po co ao T ->
  (exists ck, getCity spare (code a) = Ok ck /\ is_Some (co !! ck)) ->
  areaStep spare po co (T, ao) a = Ok st' ->
  (exists ck, getCity spare (code a) = Ok ck
              /\ attachUnder (areaNode a) ck 1 T st'.1)
  /\ cityCoded spare po co st'.1 /\ areaCoded spare po co st'.2 st'.1
  /\ (forall k, is_Some (ao !! k) \/ k = code a -> is_Some (st'.2 !! k)).
Proof.
  intros Hcc Hac (ck & Hck & [j Hj]) H.
  destruct (Hcc _ _ Hj) as (pk & cs & Hpk & Hcs & Hjc).
  rewrite (getCity_getProvince _ _ _ Hck) in Hpk.
  apply codes2_lookup in Hcs as (p & Hp & ->).
  apply codes1_lookup in Hjc as (c & Hc & Hcode).
  pose proof (lookupOrder_Some _ _ _ Hj) as Hlook.
  set (i := lookupOrder po pk) in *.
  set (c' := appendSub c (areaNode a)).
  set (p' := withSubAreas p (<[j:=c']> (SubAreas p))).
  assert (HT' : areaStep spare po co (T, ao) a
                = Ok (<[i:=p']> T, <[code a := length (SubAreas c)]> ao)).
  { apply areaStep_Ok. exists pk, ck, p, c. rewrite Hlook. auto. }
  rewrite HT' in H. injection H as <-. simpl.
  assert (Hi : (i < length (codes3 T))%nat).
  { unfold codes3. rewrite length_fmap. apply (lookup_lt_Some _ _ _ Hp). }
  assert (Hjlt : (j < length (codes2 (SubAreas p)))%nat).
  { unfold codes2. rewrite length_fmap. apply (lookup_lt_Some _ _ _ Hc). }
  assert (Hrow : codes3 (<[i:=p']> T) !! i = Some (codes2 (SubAreas p')))
    by (rewrite codes3_insert; apply list_lookup_insert_eq; exact Hi).
  assert (Hnew : codes2 (SubAreas p') !! j
                 = Some ((Code <$> SubAreas c) ++ [code a])).
  { simpl. rewrite codes2_insert, list_lookup_insert_eq by exact Hjlt.
    simpl. rewrite fmap_app. reflexivity. }
  assert (Hsame : codes2 (<[i:=p']> T) = codes2 T).
  { apply (codes2_insert_same _ _ p); [exact Hp|]. simpl.
    apply (codes1_insert_same _ _ c); [exact Hc | reflexivity]. }
  split; [|split; [|split]].
  - exists ck. split; [exact Hck|]. subst p' c'.
    destruct (insert_split _ _ _ (appendSub c (areaNode a)) Hc)
      as (m1 & m2 & Hm & -> & _).
    destruct (insert_split _ _ _
                (withSubAreas p (m1 ++ appendSub c (areaNode a) :: m2)) Hp)
      as (l1 & l2 & -> & -> & _).
    constructor. rewrite Hm. constructor. exact Hcode.
  - intros k j0 Hk. rewrite Hsame. apply (Hcc _ _ Hk).
  - intros k l. rewrite lookup_insert. case_decide as Hk.
    + intros [= <-]. subst k.
      exists pk, ck, (codes2 (SubAreas p')), ((Code <$> SubAreas c) ++ [code a]).
      split; [exact Hpk|]. split; [exact Hck|]. split; [exact Hrow|].
      rewrite Hlook. split; [exact Hnew|].
      apply list_lookup_middle. rewrite length_fmap. reflexivity.
    + intros Hl. destruct (Hac _ _ Hl)
        as (pk0 & ck0 & css0 & cs0 & Hpk0 & Hck0 & Hcss0 & Hcs0 & Hl0).
      destruct (decide (lookupOrder po pk0 = i)) as [Heq | Hne].
      * rewrite Heq in Hcss0.
        apply codes3_lookup in Hcss0 as (p0 & Hp0 & ->).
        assert (p0 = p) as -> by congruence.
        exists pk0, ck0, (codes2 (SubAreas p')).
        destruct (decide (lookupOrder co ck0 = j)) as [Heqj | Hnej].
        -- exists ((Code <$> SubAreas c) ++ [code a]). rewrite Heqj in Hcs0.
           apply codes2_lookup in Hcs0 as (c0 & Hc0 & ->).
           assert (c0 = c) as -> by congruence.
           split; [exact Hpk0|]. split; [exact Hck0|].
           rewrite Heq, Heqj. split; [exact Hrow|]. split; [exact Hnew|].
           apply lookup_app_l_Some. exact Hl0.
        -- exists cs0. split; [exact Hpk0|]. split; [exact Hck0|].
           rewrite Heq. split; [exact Hrow|]. split; [|exact Hl0].
           simpl. rewrite codes2_insert, list_lookup_insert_ne by congruence.
           exact Hcs0.
      * exists pk0, ck0, css0, cs0. split; [exact Hpk0|]. split; [exact Hck0|].
        split; [|split; assumption].
        rewrite codes3_insert, list_lookup_insert_ne by congruence. exact Hcss0.
  - intros k. rewrite lookup_insert. case_decide as Hk; [eauto|].
    intros [Hk' | Hk']; [exact Hk' | congruence].
Qed.

Variable ao : gmap string nat.

(** The step of the loop over the streets. *)
Lemma streetStep_under (T : list Area) (s : flatNode) (T' : list Area) :
  areaCoded spare po co ao T ->
  (exists ak, getArea spare (code s) = Ok ak /\ is_Some (ao !! ak)) ->
  streetStep spare po co ao T s = Ok T' ->
  (exists ak, getArea spare (code s) = Ok ak
              /\ attachUnder (streetNode s) ak 2 T T')
  /\ areaCoded spare po co ao T'.
Proof.
  intros Hac (ak & Hak & [l Hl]) H.
  destruct (Hac _ _ Hl) as (pk & ck & css & cs & Hpk & Hck & Hcss & Hcs & Hla).
  rewrite (getArea_getProvince _ _ _ Hak) in Hpk.
  rewrite (getArea_getCity _ _ _ Hak) in Hck.
  apply codes3_lookup in Hcss as (p & Hp & ->).
  apply codes2_lookup in Hcs as (c & Hc & ->).
  apply codes1_lookup in Hla as (a & Ha & Hcode).
  pose proof (lookupOrder_Some _ _ _ Hl) as Hlook.
  set (i := lookupOrder po pk) in *. set (j := lookupOrder co ck) in *.
  set (c' := withSubAreas c (<[l:=appendSub a (streetNode s)]> (SubAreas c))).
  set (p' := withSubAreas p (<[j:=c']> (SubAreas p))).
  assert (HT' : streetStep spare po co ao T s = Ok (<[i:=p']> T)).
  { apply streetStep_Ok. exists pk, ck, ak, p, c, a. rewrite Hlook. auto 10. }
  rewrite HT' in H. injection H as <-.
  assert (Hsame : codes3 (<[i:=p']> T) = codes3 T).
  { apply (codes3_insert_same _ _ p); [exact Hp|]. simpl.
    apply (codes2_insert_same _ _ c); [exact Hc|]. simpl.
    apply (codes1_insert_same _ _ a); [exact Ha | reflexivity]. }
  split.
  - exists ak. split; [exact Hak|]. subst p' c'.
    destruct (insert_split _ _ _ (appendSub a (streetNode s)) Ha)
      as (n1 & n2 & Hn & -> & _).
    destruct (insert_split _ _ _
                (withSubAreas c (n1 ++ appendSub a (streetNode s) :: n2)) Hc)
      as (m1 & m2 & Hm & -> & _).
    destruct (insert_split _ _ _
                (withSubAreas p
                   (m1 ++ withSubAreas c (n1 ++ appendSub a (streetNode s) :: n2)
                       :: m2)) Hp)
      as (l1 & l2 & -> & -> & _).
    constructor. rewrite Hm. constructor. rewrite Hn. constructor. exact Hcode.
  - intros k l0 Hk. rewrite Hsame. apply (Hac _ _ Hk).
Qed.

End BuilderLinks.

Section LoopsLinks.

Variable spare : nat -> nat.
Variable po : gmap string nat.

Lemma cityLoop_under (cs : list flatNode) (T : list Area)
  (st' : list Area * gmap string nat) :
  provCoded po T -> (forall j, linked (resolverAt spare j) (level j T)) ->
  Forall (fun c => exists pk, getProvince spare (code c) = Ok pk
                              /\ is_Some (po !! pk)) cs ->
  forEach (cityStep spare po) cs (T, ∅) = Ok st' ->
  cityCoded spare po st'.2 st'.1
  /\ (forall k, k ∈ map code cs -> is_Some (st'.2 !! k))
  /\ (forall j, linked (resolverAt spare j) (level j st'.1)).
Proof.
  intros Hpo Hl Hcs Hrun.
  apply (forEach_partial_on (cityStep spare po)
           (fun pre st => provCoded po st.1 /\ cityCoded spare po st.2 st.1
                          /\ (forall k, k ∈ map code pre -> is_Some (st.2 !! k))
                          /\ (forall j, linked (resolverAt spare j) (level j st.1))))
    with (pre := []) (st := (T, ∅ : gmap string nat)) (st' := st') in Hcs.
  - tauto.
  - intros pre [T0 co0] c st1 (Hp0 & Hc0 & Hdom0 & Hl0) HP Hx. simpl in *.
    destruct (cityStep_under _ _ _ _ _ _ Hp0 Hc0 HP Hx)
      as ((pk & Hpk & Hun) & Hc1 & Hdom1).
    split; [|split; [exact Hc1|split]].
    + apply (provCoded_flat _ T0); [|exact Hp0].
      apply (attach_flat _ _ _ _ (attachUnder_attach _ _ _ _ _ Hun) 0%nat). lia.
    + intros k. rewrite map_app, elem_of_app. simpl.
      rewrite list_elem_of_singleton. intros [Hk | Hk]; apply Hdom1; auto.
    + apply (attachUnder_linked (resolverAt spare) _ _ _ _ _ Hun);
        [apply cityNode_record | exact Hpk | exact Hl0].
  - simpl. split; [exact Hpo|]. split; [|split; [|exact Hl]].
    + intros k j. rewrite lookup_empty. discriminate.
    + intros k Hk. inversion Hk.
  - exact Hrun.
Qed.

Variable co : gmap string nat.

Lemma areaLoop_under (xs : list flatNode) (T : list Area)
  (st' : list Area * gmap string nat) :
  cityCoded spare po co T -> (forall j, linked (resolverAt spare j) (level j T)) ->
  Forall (fun a => exists ck, getCity spare (code a) = Ok ck
                              /\ is_Some (co !! ck)) xs ->
  forEach (areaStep spare po co) xs (T, ∅) = Ok st' ->
  areaCoded spare po co st'.2 st'.1
  /\ (forall k, k ∈ map code xs -> is_Some (st'.2 !! k))
  /\ (forall j, linked (resolverAt spare j) (level j st'.1)).
Proof.
  intros Hcc Hl Hxs Hrun.
  apply (forEach_partial_on (areaStep spare po co)
           (fun pre st => cityCoded spare po co st.1
                          /\ areaCoded spare po co st.2 st.1
                          /\ (forall k, k ∈ map code pre -> is_Some (st.2 !! k))
                          /\ (forall j, linked (resolverAt spare j) (level j st.1))))
    with (pre := []) (st := (T, ∅ : gmap string nat)) (st' := st') in Hxs.
  - tauto.
  - intros pre [T0 ao0] a st1 (Hc0 & Ha0 & Hdom0 & Hl0) HP Hx. simpl in *.
    destruct (areaStep_under _ _ _ _ _ _ _ Hc0 Ha0 HP Hx)
      as ((ck & Hck & Hun) & Hc1 & Ha1 & Hdom1).
    split; [exact Hc1|split; [exact Ha1|split]].
    + intros k. rewrite map_app, elem_of_app. simpl.
      rewrite list_elem_of_singleton. intros [Hk | Hk]; apply Hdom1; auto.
    + apply (attachUnder_linked (resolverAt spare) _ _ _ _ _ Hun);
        [apply areaNode_record | exact Hck | exact Hl0].
  - simpl. split; [exact Hcc|]. split; [|split; [|exact Hl]].
    + intros k j. rewrite lookup_empty. discriminate.
    + intros k Hk. inversion Hk.
  - exact Hrun.
Qed.

Variable ao : gmap string nat.

Lemma streetLoop_under (xs : list flatNode) (T T' : list Area) :
  areaCoded spare po co ao T -> (forall j, linked (resolverAt spare j) (level j T)) ->
  Forall (fun s => exists ak, getArea spare (code s) = Ok ak
                              /\ is_Some (ao !! ak)) xs ->
  forEach (streetStep spare po co ao) xs T = Ok T' ->
  forall j, linked (resolverAt spare j) (level j T').
Proof.
  intros Hac Hl Hxs Hrun.
  apply (forEach_partial_on (streetStep spare po co ao)
           (fun _ T0 => areaCoded spare po co ao T0
                        /\ (forall j, linked (resolverAt spare j) (level j T0))))
    with (pre := []) (st := T) (st' := T') in Hxs.
  - tauto.
  - intros pre T0 s T1 (Ha0 & Hl0) HP Hx.
    destruct (streetStep_under _ _ _ _ _ _ _ Ha0 HP Hx)
      as ((ak & Hak & Hun) & Ha1).
    split; [exact Ha1|].
    apply (attachUnder_linked (resolverAt spare) _ _ _ _ _ Hun);
      [apply streetNode_record | exact Hak | exact Hl0].
  - split; assumption.
  - exact Hrun.
Qed.

End LoopsLinks.

(** X12. When every record resolves to a record of the level above, every
    node of the forest [buildTrees] returns is the child of a node that
    carries the code its own code resolves to: the city nodes under the
    province with the code of [getProvince], the area nodes under the city
    with the code of [getCity], the street nodes under the area with the
    code of [getArea].  (Codes listed twice do not matter.) *)
Theorem children_under_resolved_code (spare : nat -> nat) (d : dataset)
  (T : list Area) :
  resolved spare d = true -> buildTrees spare d = Ok T ->
  linked (getProvince spare) T
  /\ linked (getCity spare) (level 1 T)
  /\ linked (getArea spare) (level 2 T).
Proof.
  unfold resolved. intros H HT.
  apply andb_prop in H as [H Hstreets]. apply andb_prop in H as [Hcities Hareas].
  apply (forallb_Forall _ _ _ (resolvesTo_true _ _)) in Hcities, Hareas, Hstreets.
  unfold buildTrees, afterAreas, afterCities in HT.
  apply bind_Ok in HT as ([[T2 co] ao] & HT & Hrun3).
  apply bind_Ok in HT as ([T1 co'] & Hrun1 & HT).
  apply bind_Ok in HT as ([T2' ao'] & Hrun2 & [= <- <- <-]). simpl in *.
  set (po := (afterProvinces d).2) in *.
  destruct (cityLoop_under spare po (cities d) (afterProvinces d).1 (T1, co'))
    as (Hcc & Hcdom & Hl1); [apply provCoded_provinces| | |exact Hrun1|].
  { intros j. rewrite afterProvinces_trees. apply linked_provinces. }
  { eapply Forall_impl; [exact Hcities|]. intros c (pk & Hpk & Hin).
    exists pk. split; [exact Hpk|].
    destruct (afterProvinces_order d pk Hin) as (i & Hi & _). eauto. }
  simpl in *.
  destruct (areaLoop_under spare po co' (areas d) T1 (T2', ao'))
    as (Hac & Hadom & Hl2); [exact Hcc|exact Hl1| |exact Hrun2|].
  { eapply Forall_impl; [exact Hareas|]. intros a (ck & Hck & Hin). eauto. }
  simpl in *.
  pose proof (streetLoop_under spare po co' ao' (streets d) T2' T Hac Hl2) as Hl3.
  assert (Hall : forall j, linked (resolverAt spare j) (level j T)).
  { apply Hl3; [|exact Hrun3].
    eapply Forall_impl; [exact Hstreets|]. intros s (ak & Hak & Hin). eauto. }
  split; [exact (Hall 0%nat)|]. split; [exact (Hall 1%nat) | exact (Hall 2%nat)].
Qed.

Lemma children_under_resolved_code_witness :
  linked (getProvince inPlace) twoProvincesForest
  /\ linked (getCity inPlace) (level 1 twoProvincesForest)
  /\ linked (getArea inPlace) (level 2 twoProvincesForest).
Proof.
  apply (children_under_resolved_code inPlace twoProvinces twoProvincesForest);
    vm_compute; reflexivity.
Defined.
